(** * GoSNare: run-length codec, palette, metadata blocks and PDF assembly

    A shallow embedding of the conversion core of GoSNare (rle.go,
    vector.go, the notebook parser and the configuration helpers) together
    with the properties stated about it.

    Conventions of the embedding:
    - a Go [byte] is a [Byte.byte]; [[]byte] and [string] are [list byte];
    - a Go [int] is a [Z]; where an operation takes operands that are not
      bounded by the code itself, the 64-bit two's complement wrap-around is
      written out with [int_wrap];
    - a Go [uint64] is a [Z] reduced modulo 2^64;
    - a Go [float64] is a primitive binary64 [float];
    - a Go [map] is a [gmap];
    - a run-time panic (index or slice bounds out of range) is the outcome
      [Panics]. *)

From Stdlib Require Import ZArith Lia List Bool Floats Uint63.
From Stdlib Require Strings.Byte.
From Stdlib Require Import Strings.String.
From stdpp Require Import gmap strings list.
Import Init.Byte.

Local Open Scope Z_scope.

(** ** Machine integers and bytes *)

Definition int_wrap (z : Z) : Z := (z + 2 ^ 63) mod 2 ^ 64 - 2 ^ 63.
Definition addi (a b : Z) : Z := int_wrap (a + b).
Definition subi (a b : Z) : Z := int_wrap (a - b).
Definition muli (a b : Z) : Z := int_wrap (a * b).

Definition uint64_wrap (z : Z) : Z := z mod 2 ^ 64.

(** [int(b)] for a byte [b]. *)
Definition u8 (b : byte) : Z := Z.of_N (Byte.to_N b).

(** [byte(z)] for an integer [z]: the low eight bits. *)
Definition to_byte (z : Z) : byte :=
  match Byte.of_N (Z.to_N (z mod 256)) with
  | Some b => b
  | None => x00
  end.

(** The 256 bytes. *)
Definition all_bytes : list byte := map to_byte (seqZ 0 256).

(** [len(s)] as an [int]. *)
Definition len {A} (s : list A) : Z := Z.of_nat (length s).

(** A string literal as bytes. *)
Definition B (s : string) : list byte := list_byte_of_string s.

Definition LF : list byte := [x0a].

(** ** rle.go: the run-length decoder *)

(** The colour code that is never handed to [emit]. *)
Definition transparent : byte := x62.

Section DecodeRLE.
Context {Sink : Type}.

(** [emit pos length colorCode] acting on the state its closure captures. *)
Variable emit : Z -> Z -> byte -> Sink -> Sink.

(** The loop variables of [decodeRLE] and the state behind [emit]. *)
Record rle_state : Type := RleState {
  rle_pos : Z;
  heldColor : byte;
  heldLength : byte;
  hasHolder : bool;
  rle_out : Sink
}.

(** [(int(prevLength&0x7f) + 1) << 7] *)
Definition held_run_length (prevLength : byte) : Z :=
  Z.shiftl (Z.land (u8 prevLength) 0x7f + 1) 7.

(** rle.go 141-148: clamp the run, emit it unless transparent, advance. *)
Definition finish_run (expected : Z) (colorCode : byte) (length : Z)
    (pos : Z) (st : rle_state) (out : Sink) : rle_state :=
  let length := if addi pos length >? expected then subi expected pos else length in
  let out := if negb (Byte.eqb colorCode transparent)
             then emit pos length colorCode out else out in
  RleState (addi pos length) (heldColor st) (heldLength st) false out.

(** rle.go 108-148: one iteration of the loop on the pair
    [(colorCode, lengthCode)]. *)
Definition rle_step (expected : Z) (colorCode lengthCode : byte)
    (st : rle_state) : rle_state :=
  let pos := rle_pos st in
  let out := rle_out st in
  if hasHolder st then
    let prevColor := heldColor st in
    let prevLength := heldLength st in
    if Byte.eqb colorCode prevColor then
      let length := 1 + u8 lengthCode + held_run_length prevLength in
      finish_run expected colorCode length pos st out
    else
      let heldLen := held_run_length prevLength in
      let heldLen := if addi pos heldLen >? expected
                     then subi expected pos else heldLen in
      let out := if negb (Byte.eqb prevColor transparent)
                 then emit pos heldLen prevColor out else out in
      let pos := addi pos heldLen in
      let length := u8 lengthCode + 1 in
      finish_run expected colorCode length pos st out
  else if Byte.eqb lengthCode xff then
    finish_run expected colorCode 0x4000 pos st out
  else if negb (Z.land (u8 lengthCode) 0x80 =? 0) then
    RleState pos colorCode lengthCode true out
  else
    finish_run expected colorCode (u8 lengthCode + 1) pos st out.

(** rle.go 107: [for i+1 < len(data) && pos < expected]. *)
Fixpoint rle_loop (expected : Z) (data : list byte) (st : rle_state)
    : rle_state :=
  match data with
  | colorCode :: lengthCode :: rest =>
      if rle_pos st <? expected
      then rle_loop expected rest (rle_step expected colorCode lengthCode st)
      else st
  | _ => st
  end.

(** rle.go 151-159: the pending pair at the end of the input. *)
Definition rle_tail (expected : Z) (st : rle_state) : Sink :=
  if hasHolder st && (rle_pos st <? expected) then
    let tailLen := held_run_length (heldLength st) in
    let remaining := subi expected (rle_pos st) in
    let tailLen := if tailLen >? remaining then remaining else tailLen in
    if (tailLen >? 0) && negb (Byte.eqb (heldColor st) transparent)
    then emit (rle_pos st) tailLen (heldColor st) (rle_out st)
    else rle_out st
  else rle_out st.

Definition rle_init (out : Sink) : rle_state := RleState 0 x00 x00 false out.

Definition decodeRLE (data : list byte) (width height : Z) (out : Sink)
    : Sink :=
  let expected := muli width height in
  rle_tail expected (rle_loop expected data (rle_init out)).
End DecodeRLE.

Arguments rle_state : clear implicits.
Arguments RleState {Sink}.

(** A call of [emit]. *)
Record run : Type := Run { run_pos : Z; run_len : Z; run_color : byte }.

(** The callback that only records its calls, in order. *)
Definition record_run (pos length : Z) (colorCode : byte) (log : list run)
    : list run := log ++ [Run pos length colorCode].

(** The calls of [emit] made by [decodeRLE data width height emit]. *)
Definition decodeRLE_calls (data : list byte) (width height : Z) : list run :=
  decodeRLE record_run data width height [].

(** Making the recorded calls, in order, on a sink. *)
Definition replay {Sink : Type} (emit : Z -> Z -> byte -> Sink -> Sink)
    (log : list run) (out : Sink) : Sink :=
  foldl (fun out r => emit (run_pos r) (run_len r) (run_color r) out) out log.

(** No recorded call carries the transparent code. *)
Definition opaque_log (log : list run) : Prop :=
  Forall (fun r => run_color r <> transparent) log.

(** The loop variables of [decodeRLE] run with a recording callback, seen
    with the sink the recorded calls produce from [out0]. *)
Definition with_sink {Sink : Type} (emit : Z -> Z -> byte -> Sink -> Sink)
    (out0 : Sink) (st : rle_state (list run)) : rle_state Sink :=
  RleState (rle_pos st) (heldColor st) (heldLength st) (hasHolder st)
    (replay emit (rle_out st) out0).

(** A run clamped to what is left of the raster. *)
Definition clamp_run (expected pos length : Z) : Z :=
  Z.min length (expected - pos).

(** A length code that starts a hold when none is pending: the high bit is
    set and the code is not 0xff. *)
Definition is_hold_code (lengthCode : byte) : bool :=
  negb (Byte.eqb lengthCode xff) && negb (Z.land (u8 lengthCode) 0x80 =? 0).

(** The run lies inside a raster of [expected] pixels. *)
Definition run_in_raster (expected : Z) (r : run) : Prop :=
  0 <= run_pos r /\ 0 <= run_len r /\ run_pos r + run_len r <= expected.

(** The position and the recorded calls stay inside the raster. *)
Definition runs_in_raster (expected : Z) (st : rle_state (list run)) : Prop :=
  0 <= rle_pos st <= expected /\ Forall (run_in_raster expected) (rle_out st).

(** Pixel [q] lies in one of the runs. *)
Definition covered (calls : list run) (q : Z) : bool :=
  existsb (fun r => (run_pos r <=? q) && (q <? run_pos r + run_len r)) calls.

(** ** Outcomes of code that can panic *)

Inductive exec (A : Type) : Type :=
| Returns (a : A)   (* normal return *)
| Panics            (* index or slice bounds out of range *)
| NoFuel.           (* the iteration bound of the model was reached *)
Arguments Returns {A} a.
Arguments Panics {A}.
Arguments NoFuel {A}.

Definition exec_bind {A C} (m : exec A) (k : A -> exec C) : exec C :=
  match m with
  | Returns a => k a
  | Panics => Panics
  | NoFuel => NoFuel
  end.

Notation "'do' x <- m ; k" := (exec_bind m (fun x => k))
  (at level 10, x name, m at level 100, k at level 200).

(** ** rle.go: the fill sinks *)

(** Slices are modelled with capacity equal to length, as [make] returns
    them; this is how every buffer handed to the sinks is created. *)

(** [buf[i] = v] *)
Definition store (buf : list byte) (i : Z) (v : byte) : exec (list byte) :=
  if (0 <=? i) && (i <? len buf)
  then Returns (<[Z.to_nat i := v]> buf) else Panics.

(** The bounds check of the slice expression [buf[lo:hi]]. *)
Definition slice_ok (buf : list byte) (lo hi : Z) : bool :=
  (0 <=? lo) && (lo <=? hi) && (hi <=? len buf).

(** [copy(buf[dlo:dhi], buf[slo:shi])]: the first
    [min(dhi-dlo, shi-slo)] bytes of the source land at [dlo]. *)
Definition copy_within (buf : list byte) (dlo dhi slo shi : Z)
    : exec (list byte) :=
  if slice_ok buf dlo dhi && slice_ok buf slo shi then
    let n := Z.to_nat (Z.min (dhi - dlo) (shi - slo)) in
    Returns (take (Z.to_nat dlo) buf
             ++ take n (drop (Z.to_nat slo) buf)
             ++ drop (Z.to_nat dlo + n) buf)
  else Panics.

(** An [int] doubles at most 63 times before it wraps. *)
Definition doubling_fuel : nat := 64.

(** rle.go 186-188 *)
Fixpoint fillRGBA_loop (fuel : nat) (rgba : list byte) (start end_ filled : Z)
    : exec (list byte) :=
  if filled <? subi end_ start then
    match fuel with
    | O => NoFuel
    | S fuel =>
        do rgba <- copy_within rgba (addi start filled) end_ start (addi start filled) ;
        fillRGBA_loop fuel rgba start end_ (muli filled 2)
    end
  else Returns rgba.

(** rle.go 176-189 *)
Definition fillRGBA (rgba : list byte) (pos count : Z) (r g b alpha : byte)
    : exec (list byte) :=
  let start := muli pos 4 in
  let end_ := Z.min (addi start (muli count 4)) (len rgba) in
  if start >=? end_ then Returns rgba else
  do rgba <- store rgba start r ;
  do rgba <- store rgba (addi start 1) g ;
  do rgba <- store rgba (addi start 2) b ;
  do rgba <- store rgba (addi start 3) alpha ;
  fillRGBA_loop doubling_fuel rgba start end_ 4.

(** rle.go 201-203 *)
Fixpoint fillRGB_loop (fuel : nat) (rgb : list byte) (start end_ count filled : Z)
    : exec (list byte) :=
  if filled <? count then
    match fuel with
    | O => NoFuel
    | S fuel =>
        do rgb <- copy_within rgb (addi start (muli filled 3)) end_
                            start (addi start (muli filled 3)) ;
        fillRGB_loop fuel rgb start end_ count (muli filled 2)
    end
  else Returns rgb.

(** rle.go 191-204 *)
Definition fillRGB (rgb : list byte) (pos count : Z) (r g b : byte)
    : exec (list byte) :=
  let start := muli pos 3 in
  let end_ := Z.min (addi start (muli count 3)) (len rgb) in
  let n := subi end_ start in
  if n <=? 0 then Returns rgb else
  do rgb <- store rgb start r ;
  do rgb <- store rgb (addi start 1) g ;
  do rgb <- store rgb (addi start 2) b ;
  fillRGB_loop doubling_fuel rgb start end_ count 1.

(** rle.go 212-214 *)
Fixpoint fillCodes_loop (fuel : nat) (buf : list byte) (pos end_ filled : Z)
    : exec (list byte) :=
  if filled <? subi end_ pos then
    match fuel with
    | O => NoFuel
    | S fuel =>
        do buf <- copy_within buf (addi pos filled) end_ pos (addi pos filled) ;
        fillCodes_loop fuel buf pos end_ (muli filled 2)
    end
  else Returns buf.

(** rle.go 206-215 *)
Definition fillCodes (buf : list byte) (pos count : Z) (code : byte)
    : exec (list byte) :=
  let end_ := Z.min (addi pos count) (len buf) in
  if pos >=? end_ then Returns buf else
  do buf <- store buf pos code ;
  fillCodes_loop doubling_fuel buf pos end_ 1.

(** vector.go 52-54: the closure handed to [decodeRLE]. A call that
    panicked ends the program, so no later call runs. *)
Definition emit_code (pos length : Z) (colorCode : byte)
    (buf : exec (list byte)) : exec (list byte) :=
  do codeMap <- buf ; fillCodes codeMap pos length colorCode.

(** vector.go 51-55: the sink that keeps the raw colour codes. *)
Definition decodeRLEToCodeMap (data codeMap : list byte) (width height : Z)
    : exec (list byte) :=
  decodeRLE emit_code data width height (Returns codeMap).

(** [k] copies of the unit written by a sink (a code, an RGB or an RGBA
    pixel), one behind the other: what the doubling loop builds up. *)
Fixpoint tile (unit : list byte) (k : nat) : list byte :=
  match k with
  | O => []
  | S k => unit ++ tile unit k
  end.

(** ** float64 *)

(** [float64(z)] for an [int] of magnitude below 2^53 (exact). *)
Definition f64 (z : Z) : float :=
  if z <? 0 then PrimFloat.opp (PrimFloat.of_uint63 (Uint63.of_Z (- z)))
  else PrimFloat.of_uint63 (Uint63.of_Z z).

(** The integer part of a float, towards zero; zero for NaN and the
    infinities. *)
Definition trunc (x : float) : Z :=
  match Prim2SF x with
  | S754_finite s m e =>
      let v := if 0 <=? e then Z.pos m * 2 ^ e else Z.pos m / 2 ^ (- e) in
      if s then - v else v
  | _ => 0
  end.

(** [byte(x)] for a float: the fraction is discarded. Go leaves the result
    open when the value does not fit; the low eight bits of the truncated
    value are what the amd64 and arm64 compilers produce. *)
Definition byte_of_float (x : float) : byte := to_byte (trunc x).

(** ** The configuration (src/unnamed/part_000) *)

Record ColorConfig : Type := {
  Black : list byte;
  DarkGray : list byte;
  LightGray : list byte;
  White : list byte
}.

Record MarkConfig : Type := {
  mark_colors : ColorConfig;
  MarkerOpacity : float
}.

Record NoteConfig : Type := { note_colors : ColorConfig }.

Record Config : Type := { Mark : MarkConfig; Note : NoteConfig }.

Definition rgb : Type := (byte * byte * byte)%type.

(** One hexadecimal digit, as [strconv.ParseUint(s, 16, 8)] reads it. *)
Definition hex_digit (c : byte) : option Z :=
  let n := u8 c in
  if (48 <=? n) && (n <=? 57) then Some (n - 48)
  else if (97 <=? n) && (n <=? 102) then Some (n - 97 + 10)
  else if (65 <=? n) && (n <=? 70) then Some (n - 65 + 10)
  else None.

(** [strconv.ParseUint(s, 16, 8)] on a string of two bytes. *)
Definition parse_hex_pair (hi lo : byte) : option byte :=
  match hex_digit hi, hex_digit lo with
  | Some h, Some l => Some (to_byte (16 * h + l))
  | _, _ => None
  end.

(** [strings.TrimPrefix(hex, "#")] *)
Definition trim_hash (hex : list byte) : list byte :=
  match hex with
  | c :: rest => if Byte.eqb c "#"%byte then rest else hex
  | [] => hex
  end.

(** [parseHexColor]: the three channels and whether [err] is nil. On an
    error the channels are zero. *)
Definition parseHexColor (hex : list byte) : rgb * bool :=
  match trim_hash hex with
  | [r1; r2; g1; g2; b1; b2] =>
      match parse_hex_pair r1 r2 with
      | None => ((x00, x00, x00), false)
      | Some r =>
          match parse_hex_pair g1 g2 with
          | None => ((x00, x00, x00), false)
          | Some g =>
              match parse_hex_pair b1 b2 with
              | None => ((x00, x00, x00), false)
              | Some b => ((r, g, b), true)
              end
          end
      end
  | _ => ((x00, x00, x00), false)
  end.

(** ** rle.go: the palette *)

Record Palette : Type := {
  Colors : list rgb;     (* [256][3]byte *)
  Alphas : list byte     (* [256]byte *)
}.

(** [p.Colors[i]] for a constant or byte index, always in range. *)
Definition color_at (colors : list rgb) (i : Z) : rgb :=
  default (x00, x00, x00) (colors !! Z.to_nat i).

Definition alpha_at (alphas : list byte) (i : Z) : byte :=
  default x00 (alphas !! Z.to_nat i).

Record anchor : Type := Anchor { a_pos : Z; a_rgb : rgb }.

(** rle.go 34-36: one channel of one palette entry. *)
Definition interpolate (start_c end_c : byte) (f : float) : byte :=
  byte_of_float (f64 (u8 start_c) + f * f64 (u8 end_c - u8 start_c))%float.

(** rle.go 33-36: the body of the inner loop. *)
Definition palette_entry (start end_ : anchor) (j : Z) : rgb :=
  let dist := a_pos end_ - a_pos start in
  let f := (f64 (j - a_pos start) / f64 dist)%float in
  let '(sr, sg, sb) := a_rgb start in
  let '(er, eg, eb) := a_rgb end_ in
  (interpolate sr er f, interpolate sg eg f, interpolate sb eb f).

(** rle.go 32-37: [for j := start.pos; j <= end.pos; j++]. *)
Definition fill_segment (colors : list rgb) (seg : anchor * anchor) : list rgb :=
  let '(start, end_) := seg in
  foldl (fun colors j => <[Z.to_nat j := palette_entry start end_ j]> colors)
        colors (seqZ (a_pos start) (a_pos end_ - a_pos start + 1)).

(** rle.go 28-38: the segments between consecutive anchors, in order. *)
Definition fill_segments (anchors : list anchor) (colors : list rgb) : list rgb :=
  foldl fill_segment colors (zip anchors (tail anchors)).

(** [p.Colors[dst] = p.Colors[src]] *)
Definition alias (dst src : Z) (colors : list rgb) : list rgb :=
  <[Z.to_nat dst := color_at colors src]> colors.

(** rle.go 10-70 *)
Definition BuildPalette (cfg : ColorConfig) (markerOpacity : float) : Palette :=
  let anchors :=
    [ Anchor 0 (parseHexColor (Black cfg)).1;
      Anchor 157 (parseHexColor (DarkGray cfg)).1;
      Anchor 201 (parseHexColor (LightGray cfg)).1;
      Anchor 255 (parseHexColor (White cfg)).1 ] in
  let colors := fill_segments anchors (replicate 256 (x00, x00, x00)) in
  let alphas := replicate 256 xff in
  let colors := alias 0x61 0 colors in
  let colors := alias 0x63 157 colors in
  let colors := alias 0x64 201 colors in
  let colors := alias 0x65 255 colors in
  let mOpacity := byte_of_float (markerOpacity * 255)%float in
  let mOpacity := if Byte.eqb mOpacity x00 then x26 else mOpacity in
  let colors := alias 0x66 0 colors in
  let colors := alias 0x67 157 colors in
  let colors := alias 0x68 201 colors in
  let alphas := <[Z.to_nat 0x66 := mOpacity]> alphas in
  let alphas := <[Z.to_nat 0x67 := mOpacity]> alphas in
  let alphas := <[Z.to_nat 0x68 := mOpacity]> alphas in
  let colors := alias 0x9d 157 colors in
  let colors := alias 0x9e 157 colors in
  let colors := alias 0xc9 201 colors in
  let colors := alias 0xca 201 colors in
  {| Colors := colors; Alphas := alphas |}.

(** vector.go 519: the palette of a .note conversion. *)
Definition note_palette (cfg : Config) : Palette :=
  BuildPalette (note_colors (Note cfg)) 0x1.999999999999ap-3%float.

(** ConvertMarkToPDFVector (src/unnamed/part_001 422): the palette of a
    .mark conversion. *)
Definition mark_palette (cfg : Config) : Palette :=
  BuildPalette (mark_colors (Mark cfg)) (MarkerOpacity (Mark cfg)).

(** The marker alpha as [BuildPalette] derives it from the opacity
    (rle.go 50-53). *)
Definition marker_alpha (markerOpacity : float) : byte :=
  let mOpacity := byte_of_float (markerOpacity * 255)%float in
  if Byte.eqb mOpacity x00 then x26 else mOpacity.

(** The default colours of [defaultConfig]. *)
Definition sample_colors : ColorConfig :=
  {| Black := B "#000000"; DarkGray := B "#9D9D9D";
     LightGray := B "#C9C9C9"; White := B "#FFFFFF" |}.

(** The default configuration with the given marker opacity. *)
Definition sample_config (marker_opacity : float) : Config :=
  {| Mark := {| mark_colors := sample_colors; MarkerOpacity := marker_opacity |};
     Note := {| note_colors := sample_colors |} |}.

(** ** The notebook parser (src/go.mod): metadata blocks *)

Definition is_byte (c : byte) (lit : byte) : bool := Byte.eqb c lit.

(** [buf[lo:hi]] for indices already known to be in range. *)
Definition slice (buf : list byte) (lo hi : nat) : list byte :=
  take (hi - lo) (drop lo buf).

(** parseMetadataBlock 128-136: [for j := i; j < len(buf); j++], run on
    [buf[j:]]; the index of the first ':' unless a '>' or '<' comes
    first. *)
Fixpoint find_colon (rest : list byte) (j : nat) : option nat :=
  match rest with
  | [] => None
  | c :: rest =>
      if is_byte c ":" then Some j
      else if is_byte c ">" || is_byte c "<" then None
      else find_colon rest (S j)
  end.

(** parseMetadataBlock 145-150: the index of the first '>' from [j] on. *)
Fixpoint find_close (rest : list byte) (j : nat) : option nat :=
  match rest with
  | [] => None
  | c :: rest => if is_byte c ">" then Some j else find_close rest (S j)
  end.

(** parseMetadataBlock 118-158: the record loop, from index [i]. Every
    iteration moves [i] forward, so [length buf] iterations are always
    enough ([parse_block_returns] below). *)
Fixpoint parse_records (fuel : nat) (buf : list byte) (i : nat)
    (result : gmap string string) : exec (gmap string string) :=
  match buf !! i with
  | None => Returns result
  | Some c =>
      match fuel with
      | O => NoFuel
      | S fuel =>
          if negb (is_byte c "<") then parse_records fuel buf (i + 1) result
          else
            let i := (i + 1)%nat in
            match find_colon (drop i buf) i with
            | None => parse_records fuel buf i result
            | Some colonIdx =>
                let key := string_of_list_byte (slice buf i colonIdx) in
                match find_close (drop (colonIdx + 1) buf) (colonIdx + 1) with
                | None => Returns result
                | Some closeIdx =>
                    let value :=
                      string_of_list_byte (slice buf (colonIdx + 1) closeIdx) in
                    parse_records fuel buf (closeIdx + 1) (<[key := value]> result)
                end
            end
      end
  end.

(** The loop run on [buf] from its first byte, with [result] as the map
    built so far. *)
Definition parse_from (result : gmap string string) (buf : list byte)
    : exec (gmap string string) :=
  parse_records (length buf) buf 0 result.

(** The records of a block's payload. *)
Definition parse_block (buf : list byte) : exec (gmap string string) :=
  parse_from ∅ buf.

(** A key holds none of ':', '<', '>'; a value holds no '>'. *)
Definition key_bytes (key : list byte) : Prop :=
  Forall (fun c => c <> ":"%byte /\ c <> "<"%byte /\ c <> ">"%byte) key.

Definition value_bytes (value : list byte) : Prop :=
  Forall (fun c => c <> ">"%byte) value.

(** The record [<KEY:VALUE>] as bytes. *)
Definition record_bytes (kv : list byte * list byte) : list byte :=
  "<"%byte :: kv.1 ++ ":"%byte :: kv.2 ++ [">"%byte].

(** [result[key] = value] for each record, in order. *)
Definition insert_records (result : gmap string string)
    (records : list (list byte * list byte)) : gmap string string :=
  foldl (fun result kv =>
           <[string_of_list_byte kv.1 := string_of_list_byte kv.2]> result)
        result records.

(** What may follow a record that has no ':': the end of the block, or the
    '<' or '>' that stopped the search. *)
Definition stops_colon_search (rest : list byte) : Prop :=
  match rest with
  | [] => True
  | c :: _ => c = "<"%byte \/ c = ">"%byte
  end.

(** [io.ReadFull] of [n] bytes at offset [off] of the file. *)
Definition read_full (file : list byte) (off n : Z) : option (list byte) :=
  let rest := drop (Z.to_nat off) file in
  if n <=? len rest then Some (take (Z.to_nat n) rest) else None.

(** [binary.LittleEndian.Uint32] *)
Definition le_uint32 (buf : list byte) : Z :=
  match buf with
  | [b0; b1; b2; b3] =>
      Z.lor (u8 b0) (Z.lor (Z.shiftl (u8 b1) 8)
        (Z.lor (Z.shiftl (u8 b2) 16) (Z.shiftl (u8 b3) 24)))
  | _ => 0
  end.

(** parseMetadataBlock, src/go.mod 98-160. The inner [option] is [None]
    when a non-nil error is
    returned: a seek to a negative offset or a short read. *)
Definition parseMetadataBlock (file : list byte) (addr : Z)
    : exec (option (gmap string string)) :=
  if addr =? 0 then Returns (Some ∅)
  else if int_wrap addr <? 0 then Returns None
  else
    match read_full file addr 4 with
    | None => Returns None
    | Some lenbuf =>
        let blockLen := le_uint32 lenbuf in
        match read_full file (addr + 4) blockLen with
        | None => Returns None
        | Some buf => do result <- parse_block buf ; Returns (Some result)
        end
    end.

(** ** Formatting and byte-string helpers (fmt, bytes) *)

Fixpoint uint_bytes (d : Decimal.uint) : list byte :=
  match d with
  | Decimal.Nil => []
  | Decimal.D0 d => "0"%byte :: uint_bytes d
  | Decimal.D1 d => "1"%byte :: uint_bytes d
  | Decimal.D2 d => "2"%byte :: uint_bytes d
  | Decimal.D3 d => "3"%byte :: uint_bytes d
  | Decimal.D4 d => "4"%byte :: uint_bytes d
  | Decimal.D5 d => "5"%byte :: uint_bytes d
  | Decimal.D6 d => "6"%byte :: uint_bytes d
  | Decimal.D7 d => "7"%byte :: uint_bytes d
  | Decimal.D8 d => "8"%byte :: uint_bytes d
  | Decimal.D9 d => "9"%byte :: uint_bytes d
  end.

(** The verb [%d]. *)
Definition itoa (z : Z) : list byte :=
  match Z.to_int z with
  | Decimal.Pos d => uint_bytes d
  | Decimal.Neg d => "-"%byte :: uint_bytes d
  end.

(** The verb [%010d] on a [uint64]: zero-padded to at least ten digits. *)
Definition itoa10 (z : Z) : list byte :=
  let s := itoa z in replicate (10 - length s) "0"%byte ++ s.

(** [bytes.HasPrefix(s, old)] *)
Fixpoint has_prefix (old s : list byte) : bool :=
  match old, s with
  | [], _ => true
  | o :: old, c :: s => Byte.eqb o c && has_prefix old s
  | _ :: _, [] => false
  end.

(** [bytes.ReplaceAll(s, old, new)] for a non-empty [old]: the
    non-overlapping occurrences of [old], leftmost first, become [new].
    [skip] counts the bytes of a matched occurrence still to be dropped. *)
Fixpoint replace_from (old new s : list byte) (skip : nat) : list byte :=
  match s with
  | [] => []
  | c :: rest =>
      match skip with
      | S k => replace_from old new rest k
      | O =>
          if has_prefix old s
          then new ++ replace_from old new rest (length old - 1)
          else c :: replace_from old new rest 0
      end
  end.

Definition ReplaceAll (s old new : list byte) : list byte :=
  replace_from old new s 0.

(** No byte 'P' is directly followed by 'A', and the last byte is not 'P':
    no occurrence of a placeholder can start inside such a text. *)
Fixpoint no_PA (s : list byte) : bool :=
  match s with
  | [] => true
  | c :: rest =>
      match rest with
      | [] => negb (Byte.eqb c "P")
      | d :: _ => negb (Byte.eqb c "P" && Byte.eqb d "A") && no_PA rest
      end
  end.

(** The text holds no byte 'P' at all. *)
Definition no_P (s : list byte) : Prop := Forall (fun c => c <> "P"%byte) s.

(** ** vector.go: tone layers and their order *)

(** [cmp(a, b) < 0] moves [a] in front of [b]. *)
Section SortStable.
Context {A : Type}.
Variable cmp : A -> A -> Z.

(** One pass of the inner loop of the insertion sort: the new element
    moves left while it compares less than its left neighbour. The
    sorted prefix is held right to left. *)
Fixpoint insert_moving_left (x : A) (prefix_rev : list A) : list A :=
  match prefix_rev with
  | y :: rest =>
      if cmp x y <? 0 then y :: insert_moving_left x rest
      else x :: prefix_rev
  | [] => [x]
  end.

(** [slices.SortStableFunc]: a sort that keeps the original order of
    elements that compare equal. For a comparison that is a strict weak
    order the result of a stable sort is unique, so the insertion sort
    the library runs on short slices stands for it. *)
Definition SortStableFunc (l : list A) : list A :=
  rev (foldl (fun prefix_rev x => insert_moving_left x prefix_rev) [] l).
End SortStable.

Section Vector.
(** [gotrace.Path], produced by the tracer. *)
Variable Path : Type.

Record colorLayer : Type := {
  cl_r : byte;
  cl_g : byte;
  cl_b : byte;
  cl_alpha : byte;        (* 255 = fully opaque *)
  cl_paths : list Path
}.

Definition is_marker (l : colorLayer) : bool := u8 (cl_alpha l) <? 255.

Definition is_ink (l : colorLayer) : bool := negb (is_marker l).

(** vector.go 181-191: the comparison handed to [SortStableFunc]. *)
Definition markers_first (a b : colorLayer) : Z :=
  let aMarker := u8 (cl_alpha a) <? 255 in
  let bMarker := u8 (cl_alpha b) <? 255 in
  if aMarker && negb bMarker then -1
  else if negb aMarker && bMarker then 1
  else 0.

(** vector.go 180-193: the last step of [renderContentColorLayers]. *)
Definition sort_layers (layers : list colorLayer) : list colorLayer :=
  SortStableFunc markers_first layers.

(** What [SortStableFunc] promises of its result for this comparison: no
    layer compares less than a layer before it. *)
Definition layers_ordered (out : list colorLayer) : Prop :=
  forall (i j : nat) (a b : colorLayer),
    (i < j)%nat -> out !! i = Some a -> out !! j = Some b ->
    (markers_first b a <? 0) = false.
End Vector.

Arguments cl_r {Path}.
Arguments cl_g {Path}.
Arguments cl_b {Path}.
Arguments cl_alpha {Path}.
Arguments cl_paths {Path}.
Arguments is_marker {Path}.
Arguments is_ink {Path}.
Arguments markers_first {Path}.
Arguments sort_layers {Path}.
Arguments layers_ordered {Path}.

(** ** vector.go: the objects of one page *)

#[global] Instance byte_eq_dec : EqDecision byte := Byte.byte_eq_dec.
#[global] Instance byte_countable : Countable byte :=
  inj_countable Byte.to_N Byte.of_N Byte.of_to_N.

Record pdfLink : Type := {
  Rect : float * float * float * float;  (* x0, y0, x1, y1 in points *)
  DestPage : Z                           (* 0-indexed destination page *)
}.

Record pdfObject : Type := { id : Z; data : list byte }.

Record vectorPageChunk : Type := { objects : list pdfObject }.

Record gsEntry : Type := { gs_name : list byte; gs_alpha : byte }.

Section PageChunk.
Variable Path : Type.

(** What the formatting and compression libraries and the tracer's path
    trees contribute, as bytes:
    - [fmt2 x] and [fmt4 x]: the verbs [%.2f] and [%.4f] on [x];
    - [appendFloat4 x]: the bytes [appendFloat4] appends for [x];
    - [appendPDFSubpathTree p sx sy h]: the bytes appended for the path
      tree [p];
    - [compressZlib raw]: the compressed bytes, [None] on an error. *)
Variable fmt2 fmt4 : float -> list byte.
Variable appendFloat4 : float -> list byte.
Variable appendPDFSubpathTree : Path -> float -> float -> float -> list byte.
Variable compressZlib : list byte -> option (list byte).

(** vector.go 280-290: one graphics state per distinct alpha below 255,
    in first-seen order. *)
Definition collect_gs (colorLayers : list (colorLayer Path))
    : list gsEntry * gmap byte (list byte) :=
  foldl (fun '(gsEntries, gsMap) cl =>
           if u8 (cl_alpha cl) <? 255 then
             match gsMap !! cl_alpha cl with
             | Some _ => (gsEntries, gsMap)
             | None =>
                 let name := B "/GS" ++ itoa (len gsEntries + 1) in
                 (gsEntries ++ [{| gs_name := name; gs_alpha := cl_alpha cl |}],
                  <[cl_alpha cl := name]> gsMap)
             end
           else (gsEntries, gsMap))
        ([], ∅) colorLayers.

(** vector.go 306-330: the drawing operators of one tone layer. *)
Definition layer_content (gsMap : gmap byte (list byte))
    (sx sy pageHeightPt : float) (cl : colorLayer Path) : list byte :=
  match cl_paths cl with
  | [] => []
  | _ :: _ =>
      B "q" ++ LF
      ++ (if u8 (cl_alpha cl) <? 255
          then default [] (gsMap !! cl_alpha cl) ++ B " gs" ++ LF else [])
      ++ appendFloat4 (f64 (u8 (cl_r cl)) / 255)%float ++ B " "
      ++ appendFloat4 (f64 (u8 (cl_g cl)) / 255)%float ++ B " "
      ++ appendFloat4 (f64 (u8 (cl_b cl)) / 255)%float ++ B " rg" ++ LF
      ++ concat (map (fun p => appendPDFSubpathTree p sx sy pageHeightPt)
                     (cl_paths cl))
      ++ B "f*" ++ LF ++ B "Q" ++ LF
  end.

(** vector.go 336-340 *)
Definition assign_gs_ids (objStart : Z) (gsEntries : list gsEntry)
    : gmap byte Z * Z :=
  foldl (fun '(gsObjIDs, numObjects) gs =>
           (<[gs_alpha gs := objStart + numObjects]> gsObjIDs, numObjects + 1))
        (∅, 2) gsEntries.

(** vector.go 353-354: one link annotation, its target still symbolic. *)
Definition annot_line (l : pdfLink) : list byte :=
  let '(x0, y0, x1, y1) := Rect l in
  B "     << /Type /Annot /Subtype /Link /Rect ["
  ++ fmt2 x0 ++ B " " ++ fmt2 y0 ++ B " " ++ fmt2 x1 ++ B " " ++ fmt2 y1
  ++ B "] /Border [0 0 0] /A << /S /GoTo /D [PAGEOBJ_" ++ itoa (DestPage l)
  ++ B " /Fit] >> >>" ++ LF.

(** vector.go 348-358 *)
Definition annots_of (links : list pdfLink) : list byte :=
  match links with
  | [] => []
  | _ :: _ =>
      LF ++ B "   /Annots [" ++ LF ++ concat (map annot_line links) ++ B "   ]"
  end.

(** vector.go 360-373 *)
Definition resources_of (hasBG : bool) (imageObjID : Z)
    (gsEntries : list gsEntry) (gsObjIDs : gmap byte Z) : list byte :=
  B "<< "
  ++ (if hasBG then B "/XObject << /Im1 " ++ itoa imageObjID ++ B " 0 R >> "
      else [])
  ++ match gsEntries with
     | [] => []
     | _ :: _ =>
         B "/ExtGState << "
         ++ concat (map (fun gs =>
                           gs_name gs ++ B " "
                           ++ itoa (default 0 (gsObjIDs !! gs_alpha gs))
                           ++ B " 0 R ") gsEntries)
         ++ B ">> "
     end
  ++ B ">>".

(** vector.go 391-398 *)
Definition gs_object (gsObjIDs : gmap byte Z) (gs : gsEntry) : pdfObject :=
  let objID := default 0 (gsObjIDs !! gs_alpha gs) in
  {| id := objID;
     data := itoa objID ++ B " 0 obj" ++ LF ++ B "<< /Type /ExtGState /ca "
             ++ fmt4 (f64 (u8 (gs_alpha gs)) / 255)%float
             ++ B " >>" ++ LF ++ B "endobj" ++ LF |}.

(** vector.go 400-418 *)
Definition image_object (imageObjID bgWidth bgHeight : Z) (bgRGB : list byte)
    : pdfObject :=
  let compressed := default bgRGB (compressZlib bgRGB) in
  {| id := imageObjID;
     data := itoa imageObjID ++ B " 0 obj" ++ LF
             ++ B "<< /Type /XObject" ++ LF
             ++ B "   /Subtype /Image" ++ LF
             ++ B "   /Width " ++ itoa bgWidth ++ LF
             ++ B "   /Height " ++ itoa bgHeight ++ LF
             ++ B "   /ColorSpace /DeviceRGB" ++ LF
             ++ B "   /BitsPerComponent 8" ++ LF
             ++ B "   /Filter /FlateDecode" ++ LF
             ++ B "   /Length " ++ itoa (len compressed) ++ B " >>" ++ LF
             ++ B "stream" ++ LF
             ++ compressed
             ++ LF ++ B "endstream" ++ LF ++ B "endobj" ++ LF |}.

(** vector.go 258-421 *)
Definition buildVectorPageChunk (colorLayers : list (colorLayer Path))
    (bgRGB : option (list byte)) (width height : Z)
    (pageWidthPt pageHeightPt : float) (links : list pdfLink)
    (objStart : Z) (ocrFallback : bool) : vectorPageChunk * Z :=
  let '(bgRGB, bgWidth, bgHeight) :=
    match bgRGB with
    | Some raw => (Some raw, width, height)
    | None => if ocrFallback then (Some [xff; xff; xff], 1, 1)
              else (None, width, height)
    end in
  let hasBG := match bgRGB with Some _ => true | None => false end in
  let '(gsEntries, gsMap) := collect_gs colorLayers in
  let content :=
    (if hasBG
     then B "q" ++ LF ++ appendFloat4 pageWidthPt ++ B " 0 0 "
          ++ appendFloat4 pageHeightPt ++ B " 0 0 cm" ++ LF
          ++ B "/Im1 Do" ++ LF ++ B "Q" ++ LF
     else []) in
  let sx := (pageWidthPt / f64 width)%float in
  let sy := (pageHeightPt / f64 height)%float in
  let content :=
    content ++ concat (map (layer_content gsMap sx sy pageHeightPt) colorLayers) in
  let pageObjID := objStart in
  let contentsObjID := objStart + 1 in
  let '(gsObjIDs, numObjects) := assign_gs_ids objStart gsEntries in
  let '(imageObjID, numObjects) :=
    if hasBG then (objStart + numObjects, numObjects + 1)
    else (0, numObjects) in
  let annots := annots_of links in
  let resources := resources_of hasBG imageObjID gsEntries gsObjIDs in
  let pageObj :=
    itoa pageObjID ++ B " 0 obj" ++ LF
    ++ B "<< /Type /Page" ++ LF
    ++ B "   /Parent 2 0 R" ++ LF
    ++ B "   /MediaBox [0 0 " ++ fmt2 pageWidthPt ++ B " " ++ fmt2 pageHeightPt
    ++ B "]" ++ LF
    ++ B "   /Contents " ++ itoa contentsObjID ++ B " 0 R" ++ LF
    ++ B "   /Resources " ++ resources ++ annots ++ LF
    ++ B ">>" ++ LF ++ B "endobj" ++ LF in
  let contentsObj :=
    itoa contentsObjID ++ B " 0 obj" ++ LF
    ++ B "<< /Length " ++ itoa (len content) ++ B " >>" ++ LF
    ++ B "stream" ++ LF ++ content ++ B "endstream" ++ LF ++ B "endobj" ++ LF in
  let objs :=
    [ {| id := pageObjID; data := pageObj |};
      {| id := contentsObjID; data := contentsObj |} ]
    ++ map (gs_object gsObjIDs) gsEntries
    ++ match bgRGB with
       | Some raw => [image_object imageObjID bgWidth bgHeight raw]
       | None => []
       end in
  ({| objects := objs |}, numObjects).
End PageChunk.

Arguments buildVectorPageChunk {Path}.
Arguments collect_gs {Path}.
Arguments layer_content {Path}.

(** ** vector.go: the PDF writer *)

(** The bytes handed to the buffered writer so far and the tracked offset.
    Write errors of the underlying file are not modelled. *)
Record pdfWriter : Type := { w : list byte; offset : Z }.

(** vector.go 483-491: [write] and [writeStr]. *)
Definition pw_write (pw : pdfWriter) (bytes : list byte) : pdfWriter :=
  {| w := w pw ++ bytes; offset := uint64_wrap (offset pw + len bytes) |}.

Definition pdf_header : list byte :=
  B "%PDF-1.7" ++ LF ++ [x25; xe2; xe3; xcf; xd3] ++ LF.

(** vector.go 493-495 *)
Definition writeHeader (pw : pdfWriter) : pdfWriter := pw_write pw pdf_header.

(** vector.go 502-505: one entry; the offset advances by 20 whatever the
    number of bytes printed. *)
Definition write_xref_entry (pw : pdfWriter) (off : Z) : pdfWriter :=
  {| w := w pw ++ itoa10 off ++ B " 00000 n " ++ LF;
     offset := uint64_wrap (offset pw + 20) |}.

(** vector.go 497-511 *)
Definition writeXrefTrailer (pw : pdfWriter) (xrefOffsets : list Z)
    (totalObjects : Z) : pdfWriter :=
  let xrefStart := offset pw in
  let pw := pw_write pw (B "xref" ++ LF) in
  let pw := pw_write pw (B "0 " ++ itoa (totalObjects + 1) ++ LF) in
  let pw := pw_write pw (B "0000000000 65535 f " ++ LF) in
  let pw := foldl write_xref_entry pw xrefOffsets in
  let pw := pw_write pw (B "trailer" ++ LF) in
  let pw := pw_write pw (B "<< /Size " ++ itoa (totalObjects + 1)
                         ++ B " /Root 1 0 R >>" ++ LF) in
  let pw := pw_write pw (B "startxref" ++ LF) in
  let pw := pw_write pw (itoa xrefStart ++ LF) in
  pw_write pw (B "%%EOF" ++ LF).

(** [xrefOffsets[i] = off] *)
Definition store_offset (xrefOffsets : list Z) (i off : Z) : exec (list Z) :=
  if (0 <=? i) && (i <? len xrefOffsets)
  then Returns (<[Z.to_nat i := off]> xrefOffsets) else Panics.

(** vector.go 662-665: one object is written at the current offset. *)
Definition write_object (acc : exec (pdfWriter * list Z)) (obj : pdfObject)
    : exec (pdfWriter * list Z) :=
  do st <- acc ;
  do xrefOffsets <- store_offset st.2 (id obj - 1) (offset st.1) ;
  Returns (pw_write st.1 (data obj), xrefOffsets).

Definition catalog_object : list byte :=
  B "1 0 obj" ++ LF ++ B "<< /Type /Catalog /Pages 2 0 R >>" ++ LF
  ++ B "endobj" ++ LF.

(** vector.go 652-658: the references to the page objects, separated by
    one space. *)
Fixpoint page_refs (pageObjIDs : list Z) : list byte :=
  match pageObjIDs with
  | [] => []
  | [i] => itoa i ++ B " 0 R"
  | i :: rest => itoa i ++ B " 0 R" ++ B " " ++ page_refs rest
  end.

Definition pages_object (pageObjIDs : list Z) : list byte :=
  B "2 0 obj" ++ LF ++ B "<< /Type /Pages /Kids [ " ++ page_refs pageObjIDs
  ++ B " ] /Count " ++ itoa (len pageObjIDs) ++ B " >>" ++ LF
  ++ B "endobj" ++ LF.

(** vector.go 642-669: the serialisation of a document whose page chunks
    are final; the bytes of the file. *)
Definition write_document (pageObjIDs : list Z) (chunks : list vectorPageChunk)
    (nextObjID : Z) : exec (list byte) :=
  let pw := {| w := []; offset := 0 |} in
  let totalObjects := nextObjID - 1 in
  let xrefOffsets := replicate (Z.to_nat totalObjects) 0 in
  let pw := writeHeader pw in
  do xrefOffsets <- store_offset xrefOffsets 0 (offset pw) ;
  let pw := pw_write pw catalog_object in
  do xrefOffsets <- store_offset xrefOffsets 1 (offset pw) ;
  let pw := pw_write pw (pages_object pageObjIDs) in
  do st <- foldl (fun acc chunk => foldl write_object acc (objects chunk))
                 (Returns (pw, xrefOffsets)) chunks ;
  Returns (w (writeXrefTrailer st.1 st.2 totalObjects)).

(** vector.go 674-702: the single page of a mark overlay; the bytes of
    the file. *)
Definition writeOnePageVectorPDF (chunk : vectorPageChunk) : exec (list byte) :=
  let pageObjID := 3 in
  let numChunkObjs := len (objects chunk) in
  let totalObjects := 2 + numChunkObjs in
  let xrefOffsets := replicate (Z.to_nat totalObjects) 0 in
  let pw := {| w := []; offset := 0 |} in
  let pw := writeHeader pw in
  do xrefOffsets <- store_offset xrefOffsets 0 (offset pw) ;
  let pw := pw_write pw catalog_object in
  do xrefOffsets <- store_offset xrefOffsets 1 (offset pw) ;
  let pw := pw_write pw
              (B "2 0 obj" ++ LF ++ B "<< /Type /Pages /Kids [ "
               ++ itoa pageObjID ++ B " 0 R ] /Count 1 >>" ++ LF
               ++ B "endobj" ++ LF) in
  do st <- foldl write_object (Returns (pw, xrefOffsets)) (objects chunk) ;
  Returns (w (writeXrefTrailer st.1 st.2 totalObjects)).

(** The writer state after [bytes] have been written from the start. *)
Definition written (bytes : list byte) : pdfWriter :=
  {| w := bytes; offset := uint64_wrap (len bytes) |}.

(** The offsets the writer records for objects written one after the other,
    the first at [start]. *)
Fixpoint object_offsets (start : Z) (datas : list (list byte)) : list Z :=
  match datas with
  | [] => []
  | d :: rest => start :: object_offsets (uint64_wrap (start + len d)) rest
  end.

(** One line of the cross-reference table for an object in use. *)
Definition xref_entry (off : Z) : list byte :=
  itoa10 off ++ B " 00000 n " ++ LF.

(** The cross-reference section, the trailer and the footer, for the given
    object offsets, object count and offset of the section itself. *)
Definition xref_section (offsets : list Z) (totalObjects xrefStart : Z)
    : list byte :=
  B "xref" ++ LF
  ++ B "0 " ++ itoa (totalObjects + 1) ++ LF
  ++ B "0000000000 65535 f " ++ LF
  ++ concat (map xref_entry offsets)
  ++ B "trailer" ++ LF
  ++ B "<< /Size " ++ itoa (totalObjects + 1) ++ B " /Root 1 0 R >>" ++ LF
  ++ B "startxref" ++ LF
  ++ itoa xrefStart ++ LF
  ++ B "%%EOF" ++ LF.

(** The bytes of an object begin with its id: ["<id> 0 obj\n"]. *)
Definition starts_object (id : Z) (bytes : list byte) : Prop :=
  exists rest, bytes = itoa id ++ B " 0 obj" ++ LF ++ rest.

(** The number of bytes in front of object [k + 1] of a file that is the
    header followed by the objects [objs]. *)
Definition offset_of (objs : list (list byte)) (k : nat) : Z :=
  len (pdf_header ++ concat (take k objs)).

(** A file whose cross-reference section tells the truth: the file is the
    header, the objects 1, 2, ..., n and the section; the entry of object
    [k + 1] is the number of bytes in front of it, where the bytes of that
    object are found and begin with its id; object 1 is the catalog that
    the trailer names; /Size is n + 1; startxref is the number of bytes in
    front of the section. *)
Definition xref_layout (out : list byte) : Prop :=
  exists objs : list (list byte),
    out = (pdf_header ++ concat objs)
          ++ xref_section (map (offset_of objs) (seq 0 (length objs)))
               (len objs) (len (pdf_header ++ concat objs))
    /\ objs !! 0%nat = Some catalog_object
    /\ forall (k : nat) (d : list byte),
         objs !! k = Some d ->
         starts_object (Z.of_nat k + 1) d
         /\ take (length d) (drop (Z.to_nat (offset_of objs k)) out) = d.

(** What the assembly keeps true of the chunks built so far: the ids are
    3, 4, 5, ... in the order of the objects, the next id is the one after
    the last, every object begins with its id, and no chunk is empty. *)
Definition ids_allocated (next : Z) (chunks : list vectorPageChunk) : Prop :=
  let objs := concat (map objects chunks) in
  next = 3 + len objs
  /\ map id objs = seqZ 3 (len objs)
  /\ Forall (fun o => starts_object (id o) (data o)) objs
  /\ Forall (fun c => objects c <> []) chunks.

(** ** vector.go: assembling a notebook *)

Record NoteLink : Type := {
  SourcePage : Z;
  nl_X : Z; nl_Y : Z; nl_W : Z; nl_H : Z;
  nl_DestPage : Z;
  SameFile : bool
}.

(** vector.go 527-542: the links that stay inside the document, by source
    page, as rectangles in points. *)
Definition page_links (links : list NoteLink) (totalPages : Z)
    (scale pageHeightPt : float) : gmap Z (list pdfLink) :=
  foldl (fun pageLinks nl =>
           if negb (SameFile nl) || (nl_DestPage nl <? 0)
              || (nl_DestPage nl >=? totalPages)
           then pageLinks
           else
             let link :=
               {| Rect := ((f64 (nl_X nl) * scale)%float,
                           (pageHeightPt - f64 (addi (nl_Y nl) (nl_H nl)) * scale)%float,
                           (f64 (addi (nl_X nl) (nl_W nl)) * scale)%float,
                           (pageHeightPt - f64 (nl_Y nl) * scale)%float);
                  DestPage := nl_DestPage nl |} in
             <[SourcePage nl := default [] (pageLinks !! SourcePage nl) ++ [link]]>
               pageLinks)
        ∅ links.

(** vector.go 629-631: the placeholder of one destination page is replaced
    by the reference to its object. *)
Definition resolve_one (bytes : list byte) (dest : Z * Z) : list byte :=
  let '(destPage, destObjID) := dest in
  ReplaceAll bytes (B "PAGEOBJ_" ++ itoa destPage) (itoa destObjID ++ B " 0 R").

(** [for destPage, destObjID := range pageObjIDs] *)
Definition enumerate (l : list Z) : list (Z * Z) :=
  imap (fun i x => (Z.of_nat i, x)) l.

(** vector.go 627-633: the second pass over one page object. *)
Definition resolve_placeholders (pageObjIDs : list Z) (bytes : list byte)
    : list byte :=
  foldl resolve_one bytes (enumerate pageObjIDs).

(** vector.go 626-634 *)
Definition resolve_chunk (pageObjIDs : list Z) (chunk : vectorPageChunk)
    : exec vectorPageChunk :=
  match objects chunk with
  | [] => Panics
  | page :: rest =>
      Returns {| objects :=
                   {| id := id page;
                      data := resolve_placeholders pageObjIDs (data page) |}
                   :: rest |}
  end.

Fixpoint resolve_chunks (pageObjIDs : list Z) (chunks : list vectorPageChunk)
    : exec (list vectorPageChunk) :=
  match chunks with
  | [] => Returns []
  | chunk :: rest =>
      do chunk <- resolve_chunk pageObjIDs chunk ;
      do rest <- resolve_chunks pageObjIDs rest ;
      Returns (chunk :: rest)
  end.

Section Assemble.
Variable Path : Type.
Variable fmt2 fmt4 : float -> list byte.
Variable appendFloat4 : float -> list byte.
Variable appendPDFSubpathTree : Path -> float -> float -> float -> list byte.
Variable compressZlib : list byte -> option (list byte).

(** What rendering one page leaves behind (vector.go 544-548). *)
Record pageResult : Type := {
  colorLayers : list (colorLayer Path);
  bgRGB : option (list byte)
}.

(** The state of the loop of vector.go 606-623. *)
Record alloc_state : Type := {
  nextObjID : Z;
  pageObjIDs : list Z;
  chunks : list vectorPageChunk
}.

Definition build_page (width height : Z) (pageWidthPt pageHeightPt : float)
    (pageLinks : gmap Z (list pdfLink)) (st : alloc_state)
    (ir : nat * pageResult) : alloc_state :=
  let '(i, r) := ir in
  let '(chunk, numObjs) :=
    buildVectorPageChunk fmt2 fmt4 appendFloat4 appendPDFSubpathTree
      compressZlib (colorLayers r) (bgRGB r) width height
      pageWidthPt pageHeightPt
      (default [] (pageLinks !! Z.of_nat i)) (nextObjID st) true in
  {| nextObjID := nextObjID st + numObjs;
     pageObjIDs := pageObjIDs st ++ [nextObjID st];
     chunks := chunks st ++ [chunk] |}.

(** vector.go 606-623 *)
Definition build_pages (width height : Z) (pageWidthPt pageHeightPt : float)
    (pageLinks : gmap Z (list pdfLink)) (results : list pageResult)
    : alloc_state :=
  foldl (build_page width height pageWidthPt pageHeightPt pageLinks)
        {| nextObjID := 3; pageObjIDs := []; chunks := [] |}
        (imap pair results).

(** vector.go 521-542 and 606-623: the page chunks with their symbolic
    link targets, and the object ids. *)
Definition build_note (width height : Z) (ppi : float)
    (links : list NoteLink) (results : list pageResult) : alloc_state :=
  let pageWidthPt := (f64 width / ppi * 72)%float in
  let pageHeightPt := (f64 height / ppi * 72)%float in
  let totalPages := len results in
  let scale := (72 / ppi)%float in
  let pageLinks := page_links links totalPages scale pageHeightPt in
  build_pages width height pageWidthPt pageHeightPt pageLinks results.

(** vector.go 625-634: the second pass over every page object. *)
Definition resolve_note (st : alloc_state) : exec alloc_state :=
  do resolved <- resolve_chunks (pageObjIDs st) (chunks st) ;
  Returns {| nextObjID := nextObjID st;
             pageObjIDs := pageObjIDs st;
             chunks := resolved |}.

(** vector.go 521-669: [ConvertNoteToPDFVector] from the rendered pages
    on; the bytes of the output file. *)
Definition assemble_note (width height : Z) (ppi : float)
    (links : list NoteLink) (results : list pageResult) : exec (list byte) :=
  do st <- resolve_note (build_note width height ppi links results) ;
  write_document (pageObjIDs st) (chunks st) (nextObjID st).

(** src/unnamed/part_001 283-296: the overlay written for a mask that was
    traced to at least one path, in the first colour of the palette; the
    bytes of the overlay file. *)
Definition overlay_document (p : Palette) (paths : list Path)
    (width height : Z) (pageWidthPt pageHeightPt : float)
    : exec (list byte) :=
  let '(r, g, b) := color_at (Colors p) 0 in
  let cl := {| cl_r := r; cl_g := g; cl_b := b; cl_alpha := xff;
               cl_paths := paths |} in
  let '(chunk, _) :=
    buildVectorPageChunk fmt2 fmt4 appendFloat4 appendPDFSubpathTree
      compressZlib [cl] None width height pageWidthPt pageHeightPt
      [] 3 false in
  writeOnePageVectorPDF chunk.
End Assemble.

Arguments colorLayers {Path}.
Arguments bgRGB {Path}.
Arguments Build_pageResult {Path}.

(** A link inside the document, from the first page to page [dest], on some
    rectangle of the page. *)
Definition link_from_first_page (dest : Z) : NoteLink :=
  {| SourcePage := 0; nl_X := 100; nl_Y := 200; nl_W := 300; nl_H := 50;
     nl_DestPage := dest; SameFile := true |}.

(** A page without strokes and without a background. *)
Definition blank_page (Path : Type) : pageResult Path :=
  {| colorLayers := []; bgRGB := None |}.

(** ** Sample documents *)

(** The page object of the first page up to the link target, for a document
    of blank pages of 1404 x 1872 pixels at 300 ppi whose first page carries
    the link [link_from_first_page]. *)
Definition first_page_head (fmt2 : float -> list byte) : list byte :=
  B "3 0 obj" ++ LF
  ++ B "<< /Type /Page" ++ LF
  ++ B "   /Parent 2 0 R" ++ LF
  ++ B "   /MediaBox [0 0 "
  ++ fmt2 (f64 1404 / 300 * 72)%float ++ B " "
  ++ fmt2 (f64 1872 / 300 * 72)%float ++ B "]" ++ LF
  ++ B "   /Contents 4 0 R" ++ LF
  ++ B "   /Resources << /XObject << /Im1 5 0 R >> >>" ++ LF
  ++ B "   /Annots [" ++ LF
  ++ B "     << /Type /Annot /Subtype /Link /Rect ["
  ++ fmt2 (f64 100 * (72 / 300))%float ++ B " "
  ++ fmt2 (f64 1872 / 300 * 72 - f64 250 * (72 / 300))%float ++ B " "
  ++ fmt2 (f64 400 * (72 / 300))%float ++ B " "
  ++ fmt2 (f64 1872 / 300 * 72 - f64 200 * (72 / 300))%float
  ++ B "] /Border [0 0 0] /A << /S /GoTo /D [".

(** What follows the link target. *)
Definition first_page_tail : list byte :=
  B " /Fit] >> >>" ++ LF ++ B "   ]" ++ LF ++ B ">>" ++ LF ++ B "endobj" ++ LF.

(** The rectangle of [link_from_first_page] in points. *)
Definition first_link (dest : Z) : pdfLink :=
  {| Rect := ((f64 100 * (72 / 300))%float,
              (f64 1872 / 300 * 72 - f64 250 * (72 / 300))%float,
              (f64 400 * (72 / 300))%float,
              (f64 1872 / 300 * 72 - f64 200 * (72 / 300))%float);
     DestPage := dest |}.

(** Stand-ins for the formatting verbs and the compressor, used only to run
    the assembly on a sample: every number prints as 0.00 and the
    compressor returns its input. *)
Definition print_zero (x : float) : list byte := B "0.00".

Definition no_paths (p : Empty_set) (sx sy h : float) : list byte := [].

Definition store_raw (raw : list byte) : option (list byte) := Some raw.

(** A notebook of two blank pages whose first page links to the second,
    assembled with the stand-ins. *)
Definition sample_note : exec (list byte) :=
  assemble_note Empty_set print_zero print_zero print_zero no_paths store_raw
    1404 1872 300 [link_from_first_page 1]
    [blank_page Empty_set; blank_page Empty_set].

Definition sample_note_bytes : list byte :=
  match sample_note with
  | Returns out => out
  | _ => []
  end.

(** * The rest of the conversion core *)

(** ** rle.go: the palette sinks *)

(** rle.go 163-166: the closure of [decodeRLEToRGB]. *)
Definition emit_rgb (p : Palette) (pos length : Z) (colorCode : byte)
    (buf : exec (list byte)) : exec (list byte) :=
  do rgb <- buf ;
  let '(r, g, b) := color_at (Colors p) (u8 colorCode) in
  fillRGB rgb pos length r g b.

(** rle.go 162-167 *)
Definition decodeRLEToRGB (data rgb : list byte) (width height : Z)
    (p : Palette) : exec (list byte) :=
  decodeRLE (emit_rgb p) data width height (Returns rgb).

(** rle.go 170-173: the closure of [decodeRLEToRGBA]. *)
Definition emit_rgba (p : Palette) (pos length : Z) (colorCode : byte)
    (buf : exec (list byte)) : exec (list byte) :=
  do rgba <- buf ;
  let '(r, g, b) := color_at (Colors p) (u8 colorCode) in
  fillRGBA rgba pos length r g b (alpha_at (Alphas p) (u8 colorCode)).

(** rle.go 169-174 *)
Definition decodeRLEToRGBA (data rgba : list byte) (width height : Z)
    (p : Palette) : exec (list byte) :=
  decodeRLE (emit_rgba p) data width height (Returns rgba).

(** The bytes a sink writes for one pixel of a colour code. *)
Definition code_unit (colorCode : byte) : list byte := [colorCode].

Definition rgb_unit (p : Palette) (colorCode : byte) : list byte :=
  let '(r, g, b) := color_at (Colors p) (u8 colorCode) in [r; g; b].

Definition rgba_unit (p : Palette) (colorCode : byte) : list byte :=
  let '(r, g, b) := color_at (Colors p) (u8 colorCode) in
  [r; g; b; alpha_at (Alphas p) (u8 colorCode)].

(** Every run starts at or behind the end of the runs before it. *)
Fixpoint runs_ascending (log : list run) : Prop :=
  match log with
  | [] => True
  | r :: rest =>
      Forall (fun r' => run_pos r + run_len r <= run_pos r') rest
      /\ runs_ascending rest
  end.

(** The recorded runs are inside the raster, in ascending order, and end at
    or before the position of the decoder. *)
Definition runs_chained (expected : Z) (st : rle_state (list run)) : Prop :=
  runs_in_raster expected st
  /\ runs_ascending (rle_out st)
  /\ Forall (fun r => run_pos r + run_len r <= rle_pos st) (rle_out st).

(** The run that holds pixel [q], if there is one: the first in the list. *)
Fixpoint covering_run (calls : list run) (q : Z) : option run :=
  match calls with
  | [] => None
  | r :: rest =>
      if (run_pos r <=? q) && (q <? run_pos r + run_len r) then Some r
      else covering_run rest q
  end.

(** What a raster of [u] bytes per pixel holds at byte [i] of pixel [q]
    after the runs were written over [buf]: the byte of the unit of the
    run that holds the pixel, or the byte that was there. *)
Definition raster_byte (unit_of : byte -> list byte) (u : nat)
    (calls : list run) (buf : list byte) (q i : nat) : option byte :=
  match covering_run calls (Z.of_nat q) with
  | Some r => unit_of (run_color r) !! i
  | None => buf !! (u * q + i)%nat
  end.

(** The number of pixels of the runs. *)
Definition pixels_of (calls : list run) : Z :=
  foldr (fun r n => run_len r + n) 0 calls.

(** ** The notebook parser (src/go.mod): the device *)

(** [strconv.ParseUint(s, 10, 64)]: a non-empty string of decimal digits
    whose value is below 2^64; no sign, no underscore. [None] stands for
    the error. *)
Fixpoint parse_digits (acc : Z) (s : list byte) : option Z :=
  match s with
  | [] => Some acc
  | c :: rest =>
      let d := u8 c - 48 in
      if (0 <=? d) && (d <=? 9) then
        let acc := 10 * acc + d in
        if acc <? 2 ^ 64 then parse_digits acc rest else None
      else None
  end.

Definition parse_uint64 (s : list byte) : option Z :=
  match s with
  | [] => None
  | _ => parse_digits 0 s
  end.

(** src/go.mod 12-20 *)
Definition NomadWidth : Z := 1404.
Definition NomadHeight : Z := 1872.
Definition NomadPPI : float := 300.
Definition MantaWidth : Z := 1920.
Definition MantaHeight : Z := 2560.
Definition MantaPPI : float := 300.

(** detectDeviceDimensions, src/go.mod 164-177: width, height, ppi and the
    header map ([None] for nil). *)
Definition detectDeviceDimensions (file : list byte)
    (footerMap : gmap string string)
    : exec (Z * Z * float * option (gmap string string)) :=
  let nomad := Returns (NomadWidth, NomadHeight, NomadPPI, None) in
  match footerMap !! "FILE_FEATURE"%string with
  | Some addrStr =>
      match parse_uint64 (list_byte_of_string addrStr) with
      | Some addr =>
          do parsed <- parseMetadataBlock file addr ;
          match parsed with
          | Some headerMap =>
              match headerMap !! "APPLY_EQUIPMENT"%string with
              | Some equip =>
                  if String.eqb equip "N5"
                  then Returns (MantaWidth, MantaHeight, MantaPPI,
                                Some headerMap)
                  else Returns (NomadWidth, NomadHeight, NomadPPI,
                                Some headerMap)
              | None => Returns (NomadWidth, NomadHeight, NomadPPI,
                                 Some headerMap)
              end
          | None => nomad
          end
      | None => nomad
      end
  | None => nomad
  end.

(** Records with bytes in front of each of them, and bytes behind the
    last. *)
Definition records_with_gaps (items : list (list byte * (list byte * list byte)))
    (tail : list byte) : list byte :=
  concat (map (fun item => item.1 ++ record_bytes item.2) items) ++ tail.

(** ** The configuration (src/unnamed/part_000), continued *)

(** The hexadecimal digit of a value below 16, in capitals or not. *)
Definition hex_char (upper : bool) (n : Z) : byte :=
  if n <? 10 then to_byte (48 + n)
  else to_byte ((if upper then 55 else 87) + n).

(** The two hexadecimal digits of a byte, as a colour is written. *)
Definition hex_pair (upper : bool) (b : byte) : list byte :=
  [hex_char upper (u8 b / 16); hex_char upper (u8 b mod 16)].

Definition is_hex_digit (c : byte) : bool :=
  match hex_digit c with Some _ => true | None => false end.

(** The colour [BuildPalette] works with when it drops the error of
    [parseHexColor]: the colour itself, or black. *)
Definition color_or_black (hex : list byte) : list byte :=
  if (parseHexColor hex).2 then hex else B "#000000".

(** ** vector.go: colour groups *)

(** vector.go 28-47 *)
Definition canonicalGroup (code : byte) : Z :=
  match code with
  | x00 | x61 => 0
  | x63 | x9d | x9e => 1
  | x64 | xc9 | xca => 2
  | x62 | x65 | xfe | xff => 3
  | x66 => 4
  | x67 => 5
  | x68 => 6
  | _ => -1
  end.

(** vector.go 119: the palette index that stands for each group. *)
Definition groupPaletteIdx : list byte := [x00; x9d; xc9; xff; x66; x67; x68].

(** [groupPaletteIdx[g]] for a group in range. *)
Definition group_index (g : Z) : byte :=
  default x00 (groupPaletteIdx !! Z.to_nat g).

(** ** vector.go: from the code map to the layers *)

(** vector.go 68-70: [copy(codeMap[filled:], codeMap[:filled])] with
    [filled] doubling. *)
Fixpoint code_map_loop (fuel : nat) (codeMap : list byte) (filled : Z)
    : exec (list byte) :=
  if filled <? len codeMap then
    match fuel with
    | O => NoFuel
    | S fuel =>
        do codeMap <- copy_within codeMap filled (len codeMap) 0 filled ;
        code_map_loop fuel codeMap (muli filled 2)
    end
  else Returns codeMap.

(** vector.go 64-70: the code map a page starts from. [make] panics on a
    negative length. *)
Definition init_code_map (width height : Z) : exec (list byte) :=
  let totalPixels := muli width height in
  if totalPixels <? 0 then Panics else
  let codeMap := replicate (Z.to_nat totalPixels) x00 in
  do codeMap <- store codeMap 0 xff ;
  code_map_loop doubling_fuel codeMap 1.

(** [image.NewGray(image.Rect(0, 0, width, height))] with every byte of
    [Pix] set to 0xFF (vector.go 103-107), for a raster of [totalPixels]
    pixels. *)
Definition white_mask (totalPixels : Z) : list byte :=
  replicate (Z.to_nat totalPixels) xff.

(** vector.go 97-109: the body of the loop over the pixels. A mask that is
    [None] is the nil pointer. *)
Definition mask_step (totalPixels : Z) (masks : list (option (list byte)))
    (pixel : nat * byte) : list (option (list byte)) :=
  let '(i, code) := pixel in
  let g := canonicalGroup code in
  if (g <? 0) || (g =? 3) then masks
  else
    let mask := default (white_mask totalPixels)
                        (default None (masks !! Z.to_nat g)) in
    <[Z.to_nat g := Some (<[i := x00]> mask)]> masks.

(** vector.go 96-110: [var masks [7]*image.Gray] and the loop over the
    pixels of the code map, which has [width * height] bytes. *)
Definition group_masks (codeMap : list byte) : list (option (list byte)) :=
  foldl (mask_step (len codeMap)) (replicate 7 None) (imap pair codeMap).

(** The mask of group [g] over the pixels [codes]: 0x00 where the code of
    the pixel is of the group, 0xFF elsewhere. *)
Definition group_mask (g : Z) (codes : list byte) : list byte :=
  map (fun code => if canonicalGroup code =? g then x00 else xff) codes.

(** Some pixel of [codes] is of group [g]. *)
Definition group_present (g : Z) (codes : list byte) : bool :=
  existsb (fun code => canonicalGroup code =? g) codes.

(** What the loop over the pixels keeps true: after the pixels [seen] of a
    raster of [totalPixels] the mask of a group is nil when the group is
    the paper or was not met, and is else black at the pixels of the group
    met so far and white everywhere else. *)
Definition mask_so_far (totalPixels : Z) (seen : list byte) (g : Z)
    : option (list byte) :=
  if negb (g =? 3) && group_present g seen
  then Some (group_mask g seen
             ++ replicate (Z.to_nat totalPixels - length seen) xff)
  else None.

Section GroupLayers.
Variable Path : Type.
(** What [gotrace.NewBitmapFromImage] and [gotrace.Trace] make of the
    pixels of a mask: the paths, or [None] for the error. *)
Variable trace : list byte -> option (list Path).

(** vector.go 136-143: the layer of a group. *)
Definition group_layer (p : Palette) (g : Z) (paths : list Path)
    : colorLayer Path :=
  let idx := u8 (group_index g) in
  let '(r, gn, b) := color_at (Colors p) idx in
  {| cl_r := r; cl_g := gn; cl_b := b;
     cl_alpha := alpha_at (Alphas p) idx; cl_paths := paths |}.

(** vector.go 121-143: the body of the loop over the groups; [None] once a
    trace has failed. *)
Definition group_layer_step (p : Palette) (masks : list (option (list byte)))
    (acc : option (list (colorLayer Path))) (g : Z)
    : option (list (colorLayer Path)) :=
  match acc with
  | None => None
  | Some layers =>
      if g =? 3 then Some layers
      else
        match default None (masks !! Z.to_nat g) with
        | None => Some layers
        | Some mask =>
            match trace mask with
            | None => None
            | Some [] => Some layers
            | Some ((_ :: _) as paths) =>
                Some (layers ++ [group_layer p g paths])
            end
        end
  end.

(** vector.go 117-143: [for g := range 7]. *)
Definition group_layers (p : Palette) (masks : list (option (list byte)))
    : option (list (colorLayer Path)) :=
  foldl (group_layer_step p masks) (Some []) (seqZ 0 7).
End GroupLayers.

(** ** src/unnamed/part_001: the pixels of a mark page *)

(** part_001 135-142: [for i := 3; i < len(rgba); i += 4]. *)
Fixpoint hasVisiblePixels (rgba : list byte) : bool :=
  match rgba with
  | _ :: _ :: _ :: a :: rest =>
      if negb (Byte.eqb a x00) then true else hasVisiblePixels rest
  | _ => false
  end.

(** part_001 283-286 and vector.go 527-542: a link is kept when it stays in
    the file and its destination is a page of the document. *)
Definition link_kept (totalPages : Z) (nl : NoteLink) : bool :=
  SameFile nl && (0 <=? nl_DestPage nl) && (nl_DestPage nl <? totalPages).

(** ** vector.go: path trees *)

(** [gotrace.Point], [gotrace.Segment] and [gotrace.Path], as far as the
    writer reads them. A segment type other than the two the writer knows
    is [TypeOther]. *)
Record Point : Type := { pt_X : float; pt_Y : float }.

Inductive SegmType : Type := TypeBezier | TypeCorner | TypeOther.

Record Segment : Type := {
  seg_Type : SegmType;
  Pnt0 : Point; Pnt1 : Point; Pnt2 : Point
}.

Unset Elimination Schemes.
Inductive TracedPath : Type :=
  MkPath { Curve : list Segment; Childs : list TracedPath }.
Set Elimination Schemes.

Section PathTree.
(** The bytes [appendFloat4] appends for a number. *)
Variable appendFloat4 : float -> list byte.

(** vector.go 438-463: the operators of one segment. *)
Definition segment_ops (sx sy pageHeightPt : float) (seg : Segment)
    : list byte :=
  let px (p : Point) := appendFloat4 (pt_X p * sx)%float in
  let py (p : Point) := appendFloat4 (pageHeightPt - pt_Y p * sy)%float in
  match seg_Type seg with
  | TypeBezier =>
      px (Pnt0 seg) ++ B " " ++ py (Pnt0 seg) ++ B " "
      ++ px (Pnt1 seg) ++ B " " ++ py (Pnt1 seg) ++ B " "
      ++ px (Pnt2 seg) ++ B " " ++ py (Pnt2 seg) ++ B " c" ++ LF
  | TypeCorner =>
      px (Pnt1 seg) ++ B " " ++ py (Pnt1 seg) ++ B " l" ++ LF
      ++ px (Pnt2 seg) ++ B " " ++ py (Pnt2 seg) ++ B " l" ++ LF
  | TypeOther => []
  end.

(** vector.go 424-466 *)
Definition appendPDFSubpath (buf : list byte) (p : TracedPath)
    (sx sy pageHeightPt : float) : list byte :=
  match Curve p with
  | [] => buf
  | first :: _ =>
      let last := List.last (Curve p) first in
      let buf := buf ++ appendFloat4 (pt_X (Pnt2 last) * sx)%float in
      let buf := buf ++ B " " in
      let buf := buf ++ appendFloat4
                          (pageHeightPt - pt_Y (Pnt2 last) * sy)%float in
      let buf := buf ++ B " m" ++ LF in
      let buf :=
        foldl (fun buf seg => buf ++ segment_ops sx sy pageHeightPt seg)
              buf (Curve p) in
      buf ++ B "h" ++ LF
  end.

(** vector.go 469-475 *)
Fixpoint appendPDFSubpathTree (buf : list byte) (p : TracedPath)
    (sx sy pageHeightPt : float) {struct p} : list byte :=
  let buf := appendPDFSubpath buf p sx sy pageHeightPt in
  (fix children (buf : list byte) (cs : list TracedPath) : list byte :=
     match cs with
     | [] => buf
     | child :: cs =>
         children (appendPDFSubpathTree buf child sx sy pageHeightPt) cs
     end) buf (Childs p).
End PathTree.

(** A path and its descendants, the parent first, then the tree of each
    child in turn. *)
Fixpoint preorder (p : TracedPath) : list TracedPath :=
  p :: (fix children (cs : list TracedPath) : list TracedPath :=
          match cs with
          | [] => []
          | child :: cs => preorder child ++ children cs
          end) (Childs p).

(** ** vector.go: the ids of the pages *)

(** The id of the first object of each chunk when the objects are numbered
    from [start] on in the order of the chunks. *)
Fixpoint page_ids_from (start : Z) (chunks : list vectorPageChunk) : list Z :=
  match chunks with
  | [] => []
  | c :: cs => start :: page_ids_from (start + len (objects c)) cs
  end.

(** The object under [pid] opens the chunk and is a /Type /Page object,
    and the chunk has at least three objects. *)
Definition page_of_chunk (pid : Z) (chunk : vectorPageChunk) : Prop :=
  3 <= len (objects chunk)
  /\ exists page rest more,
       objects chunk = page :: rest
       /\ id page = pid
       /\ data page = itoa pid ++ B " 0 obj" ++ LF
                      ++ B "<< /Type /Page" ++ LF ++ more.

(** What the loop of vector.go 606-623 keeps true: the next id follows the
    objects made so far, and the id noted for each page is that of the
    first object of its chunk. *)
Definition pages_allocated (st : alloc_state) : Prop :=
  nextObjID st = 3 + len (concat (map objects (chunks st)))
  /\ pageObjIDs st = page_ids_from 3 (chunks st)
  /\ Forall2 page_of_chunk (pageObjIDs st) (chunks st).

(** The step of the loop of vector.go 280-290, on the entries and the map
    so far. *)
Definition collect_gs_step {Path : Type}
    (acc : list gsEntry * gmap byte (list byte)) (cl : colorLayer Path)
    : list gsEntry * gmap byte (list byte) :=
  let '(gsEntries, gsMap) := acc in
  if u8 (cl_alpha cl) <? 255 then
    match gsMap !! cl_alpha cl with
    | Some _ => (gsEntries, gsMap)
    | None =>
        let name := B "/GS" ++ itoa (len gsEntries + 1) in
        (gsEntries ++ [{| gs_name := name; gs_alpha := cl_alpha cl |}],
         <[cl_alpha cl := name]> gsMap)
    end
  else (gsEntries, gsMap).

(** What the loop keeps true of the entries and the map: the alphas are
    distinct and below 255, entry [k] is named /GS[k+1], and the map gives
    the name of each entry and nothing else. *)
Definition gs_consistent (entries : list gsEntry)
    (gsMap : gmap byte (list byte)) : Prop :=
  NoDup (map gs_alpha entries)
  /\ (forall (k : nat) (e : gsEntry),
        entries !! k = Some e ->
        gs_name e = B "/GS" ++ itoa (Z.of_nat k + 1)
        /\ gsMap !! gs_alpha e = Some (gs_name e)
        /\ u8 (gs_alpha e) < 255)
  /\ (forall a : byte, is_Some (gsMap !! a) -> In a (map gs_alpha entries)).

(** * Properties *)

(** ** Machine arithmetic *)

Lemma int_wrap_small z : - 2 ^ 63 <= z < 2 ^ 63 -> int_wrap z = z.
Proof. intros H. unfold int_wrap. rewrite Z.mod_small; lia. Qed.

Lemma len_app {A} (a b : list A) : len (a ++ b) = len a + len b.
Proof. unfold len. rewrite length_app. lia. Qed.

Lemma len_nonneg {A} (a : list A) : 0 <= len a.
Proof. unfold len. lia. Qed.

Lemma pow2_succ (n : nat) : 2 ^ Z.of_nat (S n) = 2 * 2 ^ Z.of_nat n.
Proof. rewrite Nat2Z.inj_succ, Z.pow_succ_r by lia. reflexivity. Qed.

Lemma u8_range b : 0 <= u8 b <= 255.
Proof. unfold u8. pose proof (Byte.to_N_bounded b). lia. Qed.

Lemma held_run_length_range L : 128 <= held_run_length L <= 16384.
Proof. destruct L; vm_compute; split; congruence. Qed.

Lemma byte_eqb_eq (a b : byte) : Byte.eqb a b = true <-> a = b.
Proof.
  split; [apply Byte.byte_dec_bl | apply Byte.byte_dec_lb].
Qed.

Lemma byte_eqb_neq (a b : byte) : Byte.eqb a b = false <-> a <> b.
Proof.
  rewrite <- byte_eqb_eq. destruct (Byte.eqb a b); split; congruence.
Qed.

(** ** The run-length decoder *)

Section DecodeRLEFacts.
Context {Sink : Type}.
Variable emit : Z -> Z -> byte -> Sink -> Sink.

(** Below 2^62 pixels the clamp of rle.go 141-143 is a minimum and the
    position advances without wrapping. *)
Lemma finish_run_spec expected c length pos (st : rle_state Sink) out :
  0 <= pos <= expected -> expected <= 2 ^ 62 -> 0 <= length <= 2 ^ 15 ->
  finish_run emit expected c length pos st out =
  RleState (pos + clamp_run expected pos length) (heldColor st) (heldLength st)
    false
    (if Byte.eqb c transparent then out
     else emit pos (clamp_run expected pos length) c out).
Proof.
  intros Hpos Hexp Hlen. unfold finish_run, clamp_run, addi, subi.
  rewrite (int_wrap_small (pos + length)) by lia.
  rewrite (int_wrap_small (expected - pos)) by lia.
  destruct (Z.gtb_spec (pos + length) expected) as [Hgt | Hle].
  - rewrite Z.min_r by lia. rewrite int_wrap_small by lia.
    destruct (Byte.eqb c transparent); reflexivity.
  - rewrite Z.min_l by lia. rewrite int_wrap_small by lia.
    destruct (Byte.eqb c transparent); reflexivity.
Qed.

Lemma replay_snoc log r out :
  replay emit (log ++ [r]) out =
  emit (run_pos r) (run_len r) (run_color r) (replay emit log out).
Proof. unfold replay. rewrite foldl_app. reflexivity. Qed.

(** The decoder treats its callback as a black box: running it with
    [emit] is running it with the recorder and replaying the record. *)
Lemma finish_run_replay out0 expected c length pos st log :
  finish_run emit expected c length pos (with_sink emit out0 st)
    (replay emit log out0) =
  with_sink emit out0 (finish_run record_run expected c length pos st log).
Proof.
  unfold finish_run, with_sink.
  cbn [rle_pos heldColor heldLength hasHolder rle_out].
  destruct (Byte.eqb c transparent); cbn [negb]; [reflexivity |].
  unfold record_run. rewrite replay_snoc. reflexivity.
Qed.

Lemma rle_step_replay out0 expected c l st :
  rle_step emit expected c l (with_sink emit out0 st) =
  with_sink emit out0 (rle_step record_run expected c l st).
Proof.
  unfold rle_step.
  change (hasHolder (with_sink emit out0 st)) with (hasHolder st).
  change (heldColor (with_sink emit out0 st)) with (heldColor st).
  change (heldLength (with_sink emit out0 st)) with (heldLength st).
  change (rle_pos (with_sink emit out0 st)) with (rle_pos st).
  change (rle_out (with_sink emit out0 st))
    with (replay emit (rle_out st) out0).
  destruct (hasHolder st).
  - destruct (Byte.eqb c (heldColor st)).
    + apply finish_run_replay.
    + destruct (Byte.eqb (heldColor st) transparent); cbn zeta.
      * apply finish_run_replay.
      * cbn [negb]. unfold record_run at 2. rewrite <- finish_run_replay.
        rewrite replay_snoc. reflexivity.
  - destruct (Byte.eqb l xff); [apply finish_run_replay |].
    destruct (negb (Z.land (u8 l) 128 =? 0)); [reflexivity |].
    apply finish_run_replay.
Qed.

Lemma rle_loop_replay out0 expected data : forall st,
  rle_loop emit expected data (with_sink emit out0 st) =
  with_sink emit out0 (rle_loop record_run expected data st).
Proof.
  induction data as [data IH] using (induction_ltof1 _ (@length byte)).
  unfold ltof in IH. intros st.
  destruct data as [| c [| l rest]]; try reflexivity.
  cbn [rle_loop].
  change (rle_pos (with_sink emit out0 st)) with (rle_pos st).
  destruct (rle_pos st <? expected); [| reflexivity].
  rewrite rle_step_replay. apply IH. cbn. lia.
Qed.

Lemma rle_tail_replay out0 expected st :
  rle_tail emit expected (with_sink emit out0 st) =
  replay emit (rle_tail record_run expected st) out0.
Proof.
  unfold rle_tail.
  change (hasHolder (with_sink emit out0 st)) with (hasHolder st).
  change (heldColor (with_sink emit out0 st)) with (heldColor st).
  change (heldLength (with_sink emit out0 st)) with (heldLength st).
  change (rle_pos (with_sink emit out0 st)) with (rle_pos st).
  change (rle_out (with_sink emit out0 st))
    with (replay emit (rle_out st) out0).
  destruct (hasHolder st && (rle_pos st <? expected)); [| reflexivity].
  cbn zeta.
  match goal with |- context [if ?b then _ else _] => destruct b end;
    [| reflexivity].
  unfold record_run. rewrite replay_snoc. reflexivity.
Qed.

Lemma decodeRLE_replay data width height out :
  decodeRLE emit data width height out =
  replay emit (decodeRLE_calls data width height) out.
Proof.
  unfold decodeRLE_calls, decodeRLE.
  change (rle_init out) with (with_sink emit out (rle_init [])).
  rewrite rle_loop_replay. apply rle_tail_replay.
Qed.
End DecodeRLEFacts.

Lemma opaque_log_snoc log pos length c :
  opaque_log log -> Byte.eqb c transparent = false ->
  opaque_log (record_run pos length c log).
Proof.
  intros Hlog Hc. unfold opaque_log, record_run. apply Forall_app. split; [exact Hlog |].
  constructor; [| constructor]. cbn. apply byte_eqb_neq. exact Hc.
Qed.

Lemma finish_run_opaque expected c length pos st log :
  opaque_log log ->
  opaque_log (rle_out (finish_run record_run expected c length pos st log)).
Proof.
  intros Hlog. unfold finish_run. cbn.
  destruct (Byte.eqb c transparent) eqn:Hc; cbn; [exact Hlog |].
  apply opaque_log_snoc; assumption.
Qed.

Lemma rle_step_opaque expected c l st :
  opaque_log (rle_out st) ->
  opaque_log (rle_out (rle_step record_run expected c l st)).
Proof.
  intros Hlog. unfold rle_step.
  destruct (hasHolder st).
  - destruct (Byte.eqb c (heldColor st)); [apply finish_run_opaque; exact Hlog |].
    apply finish_run_opaque.
    destruct (Byte.eqb (heldColor st) transparent) eqn:Hc; cbn; [exact Hlog |].
    apply opaque_log_snoc; assumption.
  - destruct (Byte.eqb l xff); [apply finish_run_opaque; exact Hlog |].
    destruct (negb (Z.land (u8 l) 128 =? 0)); [exact Hlog |].
    apply finish_run_opaque; exact Hlog.
Qed.

Lemma rle_loop_opaque expected data : forall st,
  opaque_log (rle_out st) ->
  opaque_log (rle_out (rle_loop record_run expected data st)).
Proof.
  induction data as [data IH] using (induction_ltof1 _ (@length byte)).
  unfold ltof in IH. intros st Hlog.
  destruct data as [| c [| l rest]]; try exact Hlog.
  cbn [rle_loop]. destruct (rle_pos st <? expected); [| exact Hlog].
  apply IH; [cbn; lia |]. apply rle_step_opaque. exact Hlog.
Qed.

Lemma rle_tail_opaque expected st :
  opaque_log (rle_out st) -> opaque_log (rle_tail record_run expected st).
Proof.
  intros Hlog. unfold rle_tail.
  destruct (hasHolder st && (rle_pos st <? expected)); [| exact Hlog].
  cbn zeta.
  destruct (Byte.eqb (heldColor st) transparent) eqn:Hc.
  - rewrite andb_false_r. exact Hlog.
  - match goal with |- context [if ?b then _ else _] => destruct b end;
      [| exact Hlog].
    apply opaque_log_snoc; assumption.
Qed.

(** C7. Whatever the input bytes, the raster size and the callback,
    [decodeRLE] makes exactly the calls of [decodeRLE_calls] on the sink, in
    order, and none of them carries the transparent code 0x62: not for a
    normal run, not for a held run flushed on a colour change, not for the
    tail flush. A sink therefore changes only through calls for other
    colours. *)
Theorem decodeRLE_never_emits_transparent :
  forall (Sink : Type) (emit : Z -> Z -> byte -> Sink -> Sink)
         (data : list byte) (width height : Z) (out : Sink),
    decodeRLE emit data width height out =
      replay emit (decodeRLE_calls data width height) out
    /\ Forall (fun r => run_color r <> x62) (decodeRLE_calls data width height).
Proof.
  intros Sink emit data width height out. split.
  - apply decodeRLE_replay.
  - unfold decodeRLE_calls, decodeRLE.
    apply rle_tail_opaque, rle_loop_opaque. constructor.
Qed.

Lemma clamp_spec expected pos length :
  0 <= pos <= expected -> expected <= 2 ^ 62 -> 0 <= length <= 2 ^ 15 ->
  (if addi pos length >? expected then subi expected pos else length) =
  clamp_run expected pos length.
Proof.
  intros Hpos Hexp Hlen. unfold clamp_run, addi, subi.
  rewrite !int_wrap_small by lia.
  destruct (Z.gtb_spec (pos + length) expected); lia.
Qed.

Lemma clamp_run_range expected pos length :
  0 <= pos <= expected -> 0 <= length ->
  0 <= clamp_run expected pos length <= expected - pos.
Proof. unfold clamp_run. lia. Qed.

Section DecodeRLEPositions.
Context {Sink : Type}.
Variable emit : Z -> Z -> byte -> Sink -> Sink.

(** The position never moves back and never passes the raster size. *)
Lemma rle_step_pos expected c l (st : rle_state Sink) :
  0 <= rle_pos st <= expected -> expected <= 2 ^ 62 ->
  rle_pos st <= rle_pos (rle_step emit expected c l st) <= expected.
Proof.
  intros Hpos Hexp. unfold rle_step.
  pose proof (u8_range l) as Hl.
  pose proof (held_run_length_range (heldLength st)) as Hh.
  destruct (hasHolder st).
  - destruct (Byte.eqb c (heldColor st)).
    + rewrite finish_run_spec by lia. cbn [rle_pos].
      pose proof (clamp_run_range expected (rle_pos st)
                    (1 + u8 l + held_run_length (heldLength st))). lia.
    + cbn zeta. rewrite clamp_spec by lia.
      pose proof (clamp_run_range expected (rle_pos st)
                    (held_run_length (heldLength st))) as Hc.
      unfold addi at 1 2. rewrite int_wrap_small by lia.
      rewrite finish_run_spec by lia. cbn [rle_pos].
      pose proof (clamp_run_range expected
                    (rle_pos st + clamp_run expected (rle_pos st)
                                    (held_run_length (heldLength st)))
                    (u8 l + 1)). lia.
  - destruct (Byte.eqb l xff).
    + rewrite finish_run_spec by lia. cbn [rle_pos].
      pose proof (clamp_run_range expected (rle_pos st) 16384). lia.
    + destruct (negb (Z.land (u8 l) 128 =? 0)); [cbn [rle_pos]; lia |].
      rewrite finish_run_spec by lia. cbn [rle_pos].
      pose proof (clamp_run_range expected (rle_pos st) (u8 l + 1)). lia.
Qed.

Lemma rle_loop_pos expected data : forall st : rle_state Sink,
  0 <= rle_pos st <= expected -> expected <= 2 ^ 62 ->
  rle_pos st <= rle_pos (rle_loop emit expected data st) <= expected.
Proof.
  induction data as [data IH] using (induction_ltof1 _ (@length byte)).
  unfold ltof in IH. intros st Hpos Hexp.
  destruct data as [| c [| l rest]]; try (cbn; lia).
  cbn [rle_loop]. destruct (Z.ltb_spec (rle_pos st) expected); [| lia].
  pose proof (rle_step_pos expected c l st Hpos Hexp) as Hstep.
  specialize (IH rest ltac:(cbn; lia) (rle_step emit expected c l st)
                ltac:(lia) Hexp). lia.
Qed.
End DecodeRLEPositions.

(** C2. While [decodeRLE] holds a pair [(c, L1)], the next pair [(c, L2)]
    of the same colour makes it call [emit] exactly once, for colour [c] at
    the current position, with length [1 + L2 + ((L1 & 0x7F) + 1) << 7]
    clamped to what is left of the raster; the position advances by that
    length and no hold is pending afterwards. This is for a colour other
    than the transparent code 0x62 and a raster of at most 2^62 pixels. The
    second part reads the two pairs from an idle decoder: the first pair is
    held, the second resolves it. *)
Theorem same_color_pair_extends_held_run :
  forall (Sink : Type) (emit : Z -> Z -> byte -> Sink -> Sink)
         (expected : Z) (st : rle_state Sink) (c L1 L2 : byte)
         (rest : list byte),
    0 <= rle_pos st < expected -> expected <= 2 ^ 62 -> c <> x62 ->
    let length :=
      Z.min (1 + u8 L2 + Z.shiftl (Z.land (u8 L1) 0x7f + 1) 7)
            (expected - rle_pos st) in
    let after :=
      RleState (rle_pos st + length) c L1 false
               (emit (rle_pos st) length c (rle_out st)) in
    (hasHolder st = true -> heldColor st = c -> heldLength st = L1 ->
     rle_step emit expected c L2 st = after)
    /\ (hasHolder st = false -> is_hold_code L1 = true ->
        rle_loop emit expected (c :: L1 :: c :: L2 :: rest) st =
        rle_loop emit expected rest after).
Proof.
  intros Sink emit expected st c L1 L2 rest Hpos Hexp Hc length after.
  assert (Hstep : forall st' : rle_state Sink,
             rle_pos st' = rle_pos st -> rle_out st' = rle_out st ->
             hasHolder st' = true -> heldColor st' = c -> heldLength st' = L1 ->
             rle_step emit expected c L2 st' = after).
  { intros st' Hp Ho Hh Hcol Hlen. unfold rle_step.
    rewrite Hh, Hcol, Hlen, Hp, Ho.
    rewrite (proj2 (byte_eqb_eq c c) eq_refl).
    pose proof (u8_range L2). pose proof (held_run_length_range L1).
    rewrite finish_run_spec by lia.
    rewrite (proj2 (byte_eqb_neq c transparent) Hc).
    rewrite Hcol, Hlen. reflexivity. }
  split.
  - intros Hh Hcol Hlen. apply Hstep; auto.
  - intros Hidle Hhold. cbn [rle_loop].
    destruct (Z.ltb_spec (rle_pos st) expected) as [_ | Hge]; [| lia].
    assert (Hfirst : rle_step emit expected c L1 st =
                     RleState (rle_pos st) c L1 true (rle_out st)).
    { unfold rle_step. rewrite Hidle. unfold is_hold_code in Hhold.
      apply andb_true_iff in Hhold as [Hff Hbit].
      apply negb_true_iff in Hff. rewrite Hff, Hbit. reflexivity. }
    rewrite Hfirst. cbn [rle_pos].
    destruct (Z.ltb_spec (rle_pos st) expected) as [_ | Hge]; [| lia].
    rewrite Hstep; reflexivity.
Qed.

Lemma same_color_pair_extends_held_run_witness :
  rle_step record_run 1000 x61 x05 (RleState 7 x61 x81 true []) =
    RleState 269 x61 x81 false [Run 7 262 x61]
  /\ rle_loop record_run 1000 [x61; x81; x61; x05; x00; x00]
       (RleState 7 x00 x00 false []) =
     rle_loop record_run 1000 [x00; x00]
       (RleState 269 x61 x81 false [Run 7 262 x61]).
Proof.
  pose proof (same_color_pair_extends_held_run (list run) record_run 1000
                (RleState 7 x61 x81 true []) x61 x81 x05 [x00; x00]
                ltac:(cbn; lia) ltac:(lia) ltac:(discriminate)) as [H1 _].
  pose proof (same_color_pair_extends_held_run (list run) record_run 1000
                (RleState 7 x00 x00 false []) x61 x81 x05 [x00; x00]
                ltac:(cbn; lia) ltac:(lia) ltac:(discriminate)) as [_ H2].
  split.
  - exact (H1 eq_refl eq_refl eq_refl).
  - exact (H2 eq_refl eq_refl).
Defined.

(** For the transparent colour there is no such call: after the held pair
    (0x62, 0x80) the pair (0x62, 0x05) resolves a run of 134 pixels, and
    [emit] is not called for it. *)
Lemma same_color_pair_transparent_counterexample :
  ~ (exists length : Z,
       decodeRLE_calls [x62; x80; x62; x05] 1000 1 = [Run 0 length x62]).
Proof. intros [length H]. vm_compute in H. discriminate H. Qed.

(** C3. When the input ends while a pair [(c, L)] is held and the raster is
    not full, [decodeRLE] makes one last call of [emit], for colour [c] at
    the current position with length [((L & 0x7F) + 1) << 7] clamped to what
    is left of the raster; in particular a stream that is one held pair
    gives exactly one call, at position 0, of that length clamped to the
    raster size. This is for a colour other than the transparent code 0x62
    and a raster of at most 2^62 pixels. *)
Theorem held_pair_flushed_at_end_of_input :
  forall (Sink : Type) (emit : Z -> Z -> byte -> Sink -> Sink)
         (data : list byte) (width height : Z) (out : Sink),
    0 <= width * height <= 2 ^ 62 ->
    (let st := rle_loop emit (width * height) data (rle_init out) in
     hasHolder st = true -> rle_pos st < width * height ->
     heldColor st <> x62 ->
     decodeRLE emit data width height out =
     emit (rle_pos st)
          (Z.min (Z.shiftl (Z.land (u8 (heldLength st)) 0x7f + 1) 7)
                 (width * height - rle_pos st))
          (heldColor st) (rle_out st))
    /\ (forall c L : byte,
          is_hold_code L = true -> c <> x62 -> 0 < width * height ->
          decodeRLE_calls [c; L] width height =
          [Run 0 (Z.min (Z.shiftl (Z.land (u8 L) 0x7f + 1) 7) (width * height)) c]).
Proof.
  intros Sink emit data width height out Hsize.
  assert (Hexp : muli width height = width * height).
  { unfold muli. apply int_wrap_small. lia. }
  assert (Htail : forall (S' : Type) (emit' : Z -> Z -> byte -> S' -> S')
                         (st : rle_state S'),
             0 <= rle_pos st -> hasHolder st = true ->
             rle_pos st < width * height -> heldColor st <> x62 ->
             rle_tail emit' (width * height) st =
             emit' (rle_pos st)
                   (Z.min (held_run_length (heldLength st))
                          (width * height - rle_pos st))
                   (heldColor st) (rle_out st)).
  { intros S' emit' st Hpos Hh Hlt Hc. unfold rle_tail. rewrite Hh.
    destruct (Z.ltb_spec (rle_pos st) (width * height)) as [_ | Hge]; [| lia].
    cbn [andb]. cbn zeta. unfold subi. rewrite int_wrap_small by lia.
    pose proof (held_run_length_range (heldLength st)) as Hr.
    rewrite (proj2 (byte_eqb_neq (heldColor st) transparent) Hc). cbn [negb].
    rewrite andb_true_r.
    destruct (Z.gtb_spec (held_run_length (heldLength st))
                (width * height - rle_pos st)) as [Hgt | Hle].
    - rewrite Z.min_r by lia.
      destruct (Z.gtb_spec (width * height - rle_pos st) 0); [reflexivity | lia].
    - rewrite Z.min_l by lia.
      destruct (Z.gtb_spec (held_run_length (heldLength st)) 0);
        [reflexivity | lia]. }
  split.
  - intros st Hh Hlt Hc. unfold decodeRLE. rewrite Hexp. fold st.
    apply Htail; auto.
    pose proof (rle_loop_pos emit (width * height) data (rle_init out)
                  ltac:(cbn; lia) ltac:(lia)) as Hp.
    cbn [rle_init rle_pos] in Hp. fold st in Hp. lia.
  - intros c L Hhold Hc Hpos. unfold decodeRLE_calls, decodeRLE.
    rewrite Hexp. cbn [rle_loop rle_init rle_pos].
    destruct (Z.ltb_spec 0 (width * height)) as [_ | Hge]; [| lia].
    assert (Hfirst : rle_step record_run (width * height) c L (rle_init []) =
                     RleState 0 c L true []).
    { unfold rle_step, rle_init. cbn [hasHolder rle_pos rle_out].
      unfold is_hold_code in Hhold.
      apply andb_true_iff in Hhold as [Hff Hbit].
      apply negb_true_iff in Hff. rewrite Hff, Hbit. reflexivity. }
    rewrite Hfirst. rewrite Htail; cbn [rle_pos hasHolder heldColor heldLength rle_out];
      try lia; auto.
    unfold record_run. cbn [app]. rewrite Z.sub_0_r. reflexivity.
Qed.

Lemma held_pair_flushed_at_end_of_input_witness :
  decodeRLE record_run [x00; x05; x61; x83] 100 5 [] =
    record_run 6 494 x61 [Run 0 6 x00]
  /\ decodeRLE_calls [x61; x80] 100 1 = [Run 0 100 x61].
Proof.
  pose proof (held_pair_flushed_at_end_of_input (list run) record_run
                [x00; x05; x61; x83] 100 5 [] ltac:(lia)) as [H1 _].
  pose proof (held_pair_flushed_at_end_of_input (list run) record_run
                [x61; x80] 100 1 [] ltac:(lia)) as [_ H2].
  split.
  - exact (H1 eq_refl ltac:(vm_compute; reflexivity) ltac:(discriminate)).
  - exact (H2 x61 x80 eq_refl ltac:(discriminate) ltac:(lia)).
Defined.

(** For the transparent colour there is no such call: the single held pair
    (0x62, 0x80) on a raster of 100 pixels is dropped at the end of the input
    and [emit] is not called. *)
Lemma held_pair_transparent_counterexample :
  ~ (exists length : Z,
       decodeRLE_calls [x62; x80] 100 1 = [Run 0 length x62]).
Proof. intros [length H]. vm_compute in H. discriminate H. Qed.
(** ** The fill sinks *)

Lemma tile_length unit k : length (tile unit k) = (length unit * k)%nat.
Proof. induction k as [| k IH]; cbn; [lia |]. rewrite length_app, IH. lia. Qed.

Lemma tile_add unit a b : tile unit (a + b) = tile unit a ++ tile unit b.
Proof.
  induction a as [| a IH]; [reflexivity |].
  cbn. rewrite IH, app_assoc. reflexivity.
Qed.

Lemma take_tile unit j k :
  (j <= k)%nat -> take (length unit * j) (tile unit k) = tile unit j.
Proof.
  intros Hjk. replace k with (j + (k - j))%nat by lia.
  rewrite tile_add, take_app_length'; [reflexivity |].
  rewrite tile_length. reflexivity.
Qed.

Lemma tile_single c k : tile [c] k = replicate k c.
Proof. induction k as [| k IH]; [reflexivity |]. cbn. rewrite IH. reflexivity. Qed.

Lemma len_tile unit k : len (tile unit k) = len unit * Z.of_nat k.
Proof. unfold len. rewrite tile_length. lia. Qed.

(** One round of the doubling loop: the filled prefix of [j] units is copied
    behind itself, as far as the range of [m] units goes. *)
Lemma copy_within_tile pre unit j m rest :
  (j <= m)%nat ->
  len unit * Z.of_nat (m - j) <= len rest ->
  copy_within (pre ++ tile unit j ++ rest)
    (len pre + len unit * Z.of_nat j) (len pre + len unit * Z.of_nat m)
    (len pre) (len pre + len unit * Z.of_nat j) =
  Returns (pre ++ tile unit (Nat.min (2 * j) m)
           ++ drop (length unit * (Nat.min (2 * j) m - j)) rest).
Proof.
  intros Hj Hrest. unfold copy_within, slice_ok.
  pose proof (len_nonneg pre). pose proof (len_nonneg unit).
  set (j' := Nat.min (2 * j) m).
  assert (Hj' : (j <= j' <= 2 * j)%nat /\ (j' <= m)%nat) by lia.
  rewrite !len_app, len_tile.
  assert (Hb : (0 <=? len pre + len unit * Z.of_nat j)
               && (len pre + len unit * Z.of_nat j <=?
                   len pre + len unit * Z.of_nat m)
               && (len pre + len unit * Z.of_nat m <=?
                   len pre + (len unit * Z.of_nat j + len rest))
               && ((0 <=? len pre)
                   && (len pre <=? len pre + len unit * Z.of_nat j)
                   && (len pre + len unit * Z.of_nat j <=?
                       len pre + (len unit * Z.of_nat j + len rest))) = true).
  { rewrite !andb_true_iff, !Z.leb_le. nia. }
  rewrite Hb. f_equal.
  replace (Z.to_nat (Z.min (len pre + len unit * Z.of_nat m -
                            (len pre + len unit * Z.of_nat j))
                           (len pre + len unit * Z.of_nat j - len pre)))
    with (length unit * (j' - j))%nat by (unfold len in *; nia).
  replace (Z.to_nat (len pre + len unit * Z.of_nat j))
    with (length pre + length (tile unit j))%nat
    by (rewrite tile_length; unfold len; nia).
  replace (Z.to_nat (len pre)) with (length pre) by (unfold len; lia).
  assert (Htake : take (length pre + length (tile unit j))
                       (pre ++ tile unit j ++ rest) = pre ++ tile unit j).
  { rewrite (app_assoc pre). apply take_app_length'.
    rewrite length_app. reflexivity. }
  assert (Hsrc : take (length unit * (j' - j))
                      (drop (length pre) (pre ++ tile unit j ++ rest)) =
                 tile unit (j' - j)).
  { rewrite drop_app_length, take_app_le by (rewrite tile_length; nia).
    apply take_tile. lia. }
  assert (Hdrop : drop (length pre + length (tile unit j)
                        + length unit * (j' - j))
                       (pre ++ tile unit j ++ rest) =
                  drop (length unit * (j' - j)) rest).
  { rewrite (app_assoc pre), <- length_app. apply drop_app_add'. reflexivity. }
  rewrite Htake, Hsrc, Hdrop, <- app_assoc. f_equal.
  rewrite app_assoc, <- tile_add.
  replace (j + (j' - j))%nat with j' by lia. reflexivity.
Qed.

(** The loop of [fillCodes] and of [fillRGBA]: from a prefix of [k] units it
    fills the range of [m] units. *)
Lemma fillCodes_loop_fills unit m pre : forall fuel k rest,
  1 <= len unit -> (1 <= k)%nat ->
  len unit * Z.of_nat (m - Nat.min k m) <= len rest ->
  len (pre ++ tile unit (Nat.min k m) ++ rest) <= 2 ^ 62 ->
  Z.of_nat m <= Z.of_nat k * 2 ^ Z.of_nat fuel ->
  fillCodes_loop fuel (pre ++ tile unit (Nat.min k m) ++ rest)
    (len pre) (len pre + len unit * Z.of_nat m) (len unit * Z.of_nat k) =
  Returns (pre ++ tile unit m
           ++ drop (length unit * (m - Nat.min k m)) rest).
Proof.
  induction fuel as [| fuel IH]; intros k rest Hunit Hk Hrest Hlen Hfuel.
  all: pose proof (len_nonneg pre) as Hpre.
  all: rewrite !len_app, len_tile in Hlen.
  all: assert (Hsub : subi (len pre + len unit * Z.of_nat m) (len pre) =
                      len unit * Z.of_nat m)
         by (unfold subi; rewrite int_wrap_small by nia; lia).
  all: cbn [fillCodes_loop]; rewrite Hsub.
  all: destruct (Z.ltb_spec (len unit * Z.of_nat k) (len unit * Z.of_nat m))
         as [Hlt | Hge].
  - rewrite Z.pow_0_r in Hfuel. nia.
  - replace (Nat.min k m) with m by nia.
    rewrite Nat.sub_diag, Nat.mul_0_r, drop_0. reflexivity.
  - assert (Hkm : (k < m)%nat) by nia.
    rewrite Nat.min_l in * by lia.
    assert (Hadd : addi (len pre) (len unit * Z.of_nat k) =
                   len pre + len unit * Z.of_nat k)
      by (unfold addi; rewrite int_wrap_small by nia; lia).
    rewrite Hadd.
    rewrite (copy_within_tile pre unit k m rest) by (lia || nia).
    cbn [exec_bind].
    replace (muli (len unit * Z.of_nat k) 2)
      with (len unit * Z.of_nat (2 * k))
      by (unfold muli; rewrite int_wrap_small by nia; lia).
    rewrite pow2_succ in Hfuel.
    rewrite IH.
    + rewrite drop_drop, <- Nat.mul_add_distr_l. do 4 f_equal. lia.
    + exact Hunit.
    + lia.
    + unfold len. rewrite length_drop. unfold len in Hrest. nia.
    + rewrite !len_app, len_tile. unfold len. rewrite length_drop.
      unfold len in *. nia.
    + nia.
  - replace (Nat.min k m) with m by nia.
    rewrite Nat.sub_diag, Nat.mul_0_r, drop_0. reflexivity.
Qed.

Lemma store_split (buf : list byte) (pos : Z) (v : byte) :
  0 <= pos < len buf ->
  exists x,
    buf = take (Z.to_nat pos) buf ++ x :: drop (S (Z.to_nat pos)) buf
    /\ store buf pos v =
       Returns (take (Z.to_nat pos) buf ++ v :: drop (S (Z.to_nat pos)) buf).
Proof.
  intros Hpos. unfold store.
  destruct (Z.leb_spec 0 pos); [| lia].
  destruct (Z.ltb_spec pos (len buf)); [| lia]. cbn [andb].
  destruct (lookup_lt_is_Some_2 buf (Z.to_nat pos)) as [x Hx];
    [unfold len in *; lia |].
  exists x. split.
  - rewrite <- (take_drop_middle _ _ _ Hx) at 1. reflexivity.
  - f_equal. rewrite <- (take_drop_middle _ _ _ Hx) at 1.
    rewrite insert_app_r_alt by (rewrite length_take; lia).
    rewrite length_take, Nat.min_l by (unfold len in *; lia).
    rewrite Nat.sub_diag. reflexivity.
Qed.

(** [fillCodes] returns for every buffer and every run: the run is cut at the
    end of the buffer, the bytes of the cut run hold the code, and every
    other byte is as it was. *)
Lemma fillCodes_clamped (buf : list byte) (pos count : Z) (code : byte) :
  0 <= pos -> 0 <= count -> pos + count < 2 ^ 63 -> len buf <= 2 ^ 62 ->
  let n := Z.to_nat (Z.min count (len buf - pos)) in
  fillCodes buf pos count code =
  Returns (take (Z.to_nat pos) buf ++ replicate n code
           ++ drop (Z.to_nat pos + n) buf).
Proof.
  intros Hpos Hcount Hsum Hlen n. unfold fillCodes.
  unfold addi. rewrite int_wrap_small by lia.
  destruct (Z.geb_spec pos (Z.min (pos + count) (len buf))) as [Hge | Hlt].
  - replace n with 0%nat by lia.
    rewrite Nat.add_0_r. cbn [replicate app]. rewrite take_drop. reflexivity.
  - destruct (store_split buf pos code ltac:(lia)) as (x & Hbuf & ->).
    cbn [exec_bind].
    set (pre := take (Z.to_nat pos) buf) in *.
    set (rest := drop (S (Z.to_nat pos)) buf) in *.
    assert (Hpre : len pre = pos).
    { unfold pre, len. rewrite length_take. unfold len in *. lia. }
    assert (Hrest : len rest = len buf - pos - 1).
    { unfold rest, len. rewrite length_drop. unfold len in *. lia. }
    pose proof (fillCodes_loop_fills [code] n pre 64 1 rest) as Hloop.
    replace (Nat.min 1 n) with 1%nat in Hloop by lia.
    change (len [code]) with 1 in Hloop.
    change (tile [code] 1) with [code] in Hloop.
    change (length [code]) with 1%nat in Hloop.
    rewrite Hpre, !Z.mul_1_l in Hloop. cbn [app] in Hloop.
    replace (pos + Z.of_nat n) with (Z.min (pos + count) (len buf)) in Hloop
      by lia.
    change (Z.of_nat 1) with 1 in Hloop.
    unfold doubling_fuel. rewrite Hloop.
    + rewrite tile_single, Nat.mul_1_l. do 3 f_equal.
      unfold rest. rewrite drop_drop. f_equal. lia.
    + lia.
    + lia.
    + lia.
    + rewrite len_app, Hpre. unfold len in *. cbn [length]. lia.
    + change (2 ^ Z.of_nat 64) with 18446744073709551616. lia.
Qed.

Lemma fillRGBA_loop_eq fuel : forall rgba start end_ filled,
  fillRGBA_loop fuel rgba start end_ filled =
  fillCodes_loop fuel rgba start end_ filled.
Proof.
  induction fuel as [| fuel IH]; intros; cbn; [reflexivity |].
  destruct (filled <? subi end_ start); [| reflexivity].
  destruct (copy_within _ _ _ _ _); cbn; auto.
Qed.

(** A store into the middle part of a buffer. *)
Lemma store_app (pre mid rest : list byte) (i : nat) (v : byte) :
  (i < length mid)%nat -> len pre + len mid + len rest < 2 ^ 63 ->
  store (pre ++ mid ++ rest) (addi (len pre) (Z.of_nat i)) v =
  Returns (pre ++ <[i := v]> mid ++ rest).
Proof.
  intros Hi Hlen. unfold store, addi.
  pose proof (len_nonneg pre). pose proof (len_nonneg rest).
  rewrite int_wrap_small by (unfold len in *; lia).
  rewrite !len_app.
  destruct (Z.leb_spec 0 (len pre + Z.of_nat i)); [| lia].
  destruct (Z.ltb_spec (len pre + Z.of_nat i) (len pre + (len mid + len rest)));
    [| unfold len in *; lia].
  cbn [andb]. f_equal.
  replace (Z.to_nat (len pre + Z.of_nat i)) with (length pre + i)%nat
    by (unfold len; lia).
  rewrite insert_app_r, insert_app_l by exact Hi. reflexivity.
Qed.

(** A buffer cut at a position where [u] more bytes follow. *)
Lemma cut_buffer (buf : list byte) (start u : nat) :
  (start + u <= length buf)%nat ->
  exists pre mid rest,
    buf = pre ++ mid ++ rest /\ length pre = start /\ length mid = u.
Proof.
  intros H.
  exists (take start buf), (take u (drop start buf)), (drop (start + u) buf).
  split; [| split].
  - rewrite <- drop_drop, take_drop, take_drop. reflexivity.
  - rewrite length_take. lia.
  - rewrite length_take, length_drop. lia.
Qed.

Lemma take_drop_cut (pre mid rest : list byte) (k : nat) :
  take (length pre) (pre ++ mid ++ rest) = pre
  /\ drop (length pre + (length mid + k)) (pre ++ mid ++ rest) = drop k rest.
Proof.
  split.
  - apply take_app_length.
  - rewrite <- drop_drop, drop_app_length, <- drop_drop, drop_app_length.
    reflexivity.
Qed.

(** [fillRGBA] returns for every buffer of whole pixels and every run: the
    run is cut at the end of the buffer, its pixels hold the colour, and
    every other byte is as it was. *)
Lemma fillRGBA_clamped (rgba : list byte) (pixels pos count : Z)
    (r g b alpha : byte) :
  len rgba = 4 * pixels -> pixels <= 2 ^ 60 ->
  0 <= pos -> 0 <= count -> pos + count <= 2 ^ 60 ->
  let n := Z.to_nat (Z.min count (pixels - pos)) in
  fillRGBA rgba pos count r g b alpha =
  Returns (take (4 * Z.to_nat pos) rgba ++ tile [r; g; b; alpha] n
           ++ drop (4 * Z.to_nat pos + 4 * n) rgba).
Proof.
  intros Hlen Hpix Hpos Hcount Hsum n. unfold fillRGBA.
  unfold addi, muli.
  rewrite (int_wrap_small (pos * 4)), (int_wrap_small (count * 4)) by lia.
  rewrite int_wrap_small by lia.
  destruct (Z.geb_spec (pos * 4) (Z.min (pos * 4 + count * 4) (len rgba)))
    as [Hge | Hlt].
  - replace n with 0%nat by lia.
    rewrite Nat.mul_0_r, Nat.add_0_r. cbn [tile app].
    rewrite take_drop. reflexivity.
  - destruct (cut_buffer rgba (4 * Z.to_nat pos) 4)
      as (pre & mid & rest & -> & Hpre & Hmid); [unfold len in *; lia |].
    destruct mid as [| x0 [| x1 [| x2 [| x3 [| ? ?]]]]]; try discriminate Hmid.
    clear Hmid. rewrite !len_app in Hlen, Hlt.
    change (len [x0; x1; x2; x3]) with 4 in Hlen, Hlt.
    assert (Hstart : pos * 4 = len pre) by (unfold len; lia).
    rewrite Hstart.
    pose proof (store_app pre [x0; x1; x2; x3] rest 0 r) as H0.
    unfold addi in H0. rewrite Z.add_0_r, int_wrap_small in H0
      by (unfold len in *; lia).
    rewrite H0 by (cbn; unfold len in *; cbn; lia). cbn [exec_bind].
    rewrite (store_app pre _ rest 1 g) by (cbn; unfold len in *; cbn; lia).
    cbn [exec_bind].
    rewrite (store_app pre _ rest 2 b) by (cbn; unfold len in *; cbn; lia).
    cbn [exec_bind].
    rewrite (store_app pre _ rest 3 alpha) by (cbn; unfold len in *; cbn; lia).
    cbn [exec_bind]. cbn [insert list_insert].
    rewrite fillRGBA_loop_eq.
    pose proof (fillCodes_loop_fills [r; g; b; alpha] n pre 64 1 rest) as Hloop.
    replace (Nat.min 1 n) with 1%nat in Hloop by lia.
    change (len [r; g; b; alpha]) with 4 in Hloop.
    change (tile [r; g; b; alpha] 1) with [r; g; b; alpha] in Hloop.
    change (length [r; g; b; alpha]) with 4%nat in Hloop.
    change (4 * Z.of_nat 1) with 4 in Hloop.
    rewrite !len_app. change (len [x0; x1; x2; x3]) with 4.
    replace (len pre + 4 * Z.of_nat n)
      with (Z.min (len pre + count * 4) (len pre + (4 + len rest))) in Hloop
      by lia.
    unfold doubling_fuel. rewrite Hloop.
    + replace (4 * Z.to_nat pos)%nat with (length pre) by lia.
      destruct (take_drop_cut pre [x0; x1; x2; x3] rest (4 * (n - 1)))
        as [-> Hdrop].
      replace (length pre + 4 * n)%nat
        with (length pre + (length [x0; x1; x2; x3] + 4 * (n - 1)))%nat
        by (cbn [length]; lia).
      rewrite Hdrop. reflexivity.
    + lia.
    + lia.
    + lia.
    + rewrite !len_app. unfold len in *. cbn [length]. lia.
    + change (2 ^ Z.of_nat 64) with 18446744073709551616. lia.
Qed.

(** While the run ends inside the buffer the loop of [fillRGB], which counts
    pixels, goes through the states of the loop that counts bytes. *)
Lemma fillRGB_loop_in_bounds (start count : Z) : forall fuel rgb filled,
  0 <= start -> 0 <= count -> 0 <= filled -> start + 3 * count <= 2 ^ 62 ->
  fillRGB_loop fuel rgb start (start + 3 * count) count filled =
  fillCodes_loop fuel rgb start (start + 3 * count) (3 * filled).
Proof.
  induction fuel as [| fuel IH]; intros rgb filled Hstart Hcount Hfilled Hend.
  all: cbn [fillRGB_loop fillCodes_loop].
  all: replace (subi (start + 3 * count) start) with (3 * count)
         by (unfold subi; rewrite int_wrap_small by lia; lia).
  all: destruct (Z.ltb_spec filled count) as [Hlt | Hge];
         destruct (Z.ltb_spec (3 * filled) (3 * count)); try lia;
         try reflexivity.
  replace (muli filled 3) with (3 * filled)
    by (unfold muli; rewrite int_wrap_small by lia; lia).
  destruct (copy_within _ _ _ _ _); cbn [exec_bind]; try reflexivity.
  replace (muli (3 * filled) 2) with (3 * muli filled 2)
    by (unfold muli; rewrite !int_wrap_small by lia; lia).
  apply IH; try lia.
  unfold muli. rewrite int_wrap_small by lia. lia.
Qed.

(** [fillRGB] fills a run that ends inside a buffer of whole pixels. *)
Lemma fillRGB_in_bounds (rgb : list byte) (pixels pos count : Z) (r g b : byte) :
  len rgb = 3 * pixels -> pixels <= 2 ^ 60 ->
  0 <= pos -> 0 <= count -> pos + count <= pixels ->
  fillRGB rgb pos count r g b =
  Returns (take (3 * Z.to_nat pos) rgb ++ tile [r; g; b] (Z.to_nat count)
           ++ drop (3 * Z.to_nat pos + 3 * Z.to_nat count) rgb).
Proof.
  intros Hlen Hpix Hpos Hcount Hsum. unfold fillRGB.
  unfold addi, muli, subi.
  rewrite (int_wrap_small (pos * 3)), (int_wrap_small (count * 3)) by lia.
  rewrite (int_wrap_small (pos * 3 + count * 3)) by lia.
  rewrite Z.min_l by lia. rewrite int_wrap_small by lia.
  destruct (Z.leb_spec (pos * 3 + count * 3 - pos * 3) 0) as [Hle | Hgt].
  - replace (Z.to_nat count) with 0%nat by lia.
    rewrite Nat.mul_0_r, Nat.add_0_r. cbn [tile app].
    rewrite take_drop. reflexivity.
  - destruct (cut_buffer rgb (3 * Z.to_nat pos) 3)
      as (pre & mid & rest & -> & Hpre & Hmid); [unfold len in *; lia |].
    destruct mid as [| x0 [| x1 [| x2 [| ? ?]]]]; try discriminate Hmid.
    clear Hmid. rewrite !len_app in Hlen.
    change (len [x0; x1; x2]) with 3 in Hlen.
    assert (Hstart : pos * 3 = len pre) by (unfold len; lia).
    rewrite Hstart.
    pose proof (store_app pre [x0; x1; x2] rest 0 r) as H0.
    unfold addi in H0. rewrite Z.add_0_r, int_wrap_small in H0
      by (unfold len in *; lia).
    rewrite H0 by (cbn; unfold len in *; cbn; lia). cbn [exec_bind].
    rewrite (store_app pre _ rest 1 g) by (cbn; unfold len in *; cbn; lia).
    cbn [exec_bind].
    rewrite (store_app pre _ rest 2 b) by (cbn; unfold len in *; cbn; lia).
    cbn [exec_bind]. cbn [insert list_insert].
    replace (len pre + count * 3) with (len pre + 3 * count) by lia.
    rewrite fillRGB_loop_in_bounds by (unfold len in *; lia).
    pose proof (fillCodes_loop_fills [r; g; b] (Z.to_nat count) pre 64 1 rest)
      as Hloop.
    replace (Nat.min 1 (Z.to_nat count)) with 1%nat in Hloop by lia.
    change (len [r; g; b]) with 3 in Hloop.
    change (tile [r; g; b] 1) with [r; g; b] in Hloop.
    change (length [r; g; b]) with 3%nat in Hloop.
    change (3 * Z.of_nat 1) with 3 in Hloop.
    rewrite Z2Nat.id in Hloop by lia.
    unfold doubling_fuel. change (3 * 1) with 3. rewrite Hloop.
    + replace (3 * Z.to_nat pos)%nat with (length pre) by lia.
      destruct (take_drop_cut pre [x0; x1; x2] rest (3 * (Z.to_nat count - 1)))
        as [-> Hdrop].
      replace (length pre + 3 * Z.to_nat count)%nat
        with (length pre + (length [x0; x1; x2] + 3 * (Z.to_nat count - 1)))%nat
        by (cbn [length]; lia).
      rewrite Hdrop. reflexivity.
    + lia.
    + lia.
    + lia.
    + rewrite !len_app. unfold len in *. cbn [length]. lia.
    + change (2 ^ Z.of_nat 64) with 18446744073709551616. lia.
Qed.

(** Past the end of the buffer the loop of [fillRGB] goes on as long as
    [filled < count]: the first round with more than [m] pixels filled asks
    for a slice that starts behind its end. *)
Lemma fillRGB_loop_panics unit m pre count : forall fuel k rest,
  len unit = 3 -> (1 <= k <= 2 * m)%nat -> 2 * Z.of_nat m < count ->
  len unit * Z.of_nat (m - Nat.min k m) <= len rest ->
  len (pre ++ tile unit (Nat.min k m) ++ rest) <= 2 ^ 60 ->
  Z.of_nat m < Z.of_nat k * 2 ^ Z.of_nat fuel ->
  fillRGB_loop (S fuel) (pre ++ tile unit (Nat.min k m) ++ rest)
    (len pre) (len pre + 3 * Z.of_nat m) count (Z.of_nat k) = Panics.
Proof.
  induction fuel as [| fuel IH]; intros k rest Hunit Hk Hcount Hrest Hlen Hfuel.
  all: pose proof (len_nonneg pre) as Hpre.
  all: pose proof (len_nonneg rest) as Hrest0.
  all: rewrite !len_app, len_tile in Hlen.
  all: assert (Hm : 3 * Z.of_nat m <= 2 ^ 60) by lia.
  all: cbn [fillRGB_loop].
  all: destruct (Z.ltb_spec (Z.of_nat k) count) as [_ | Hge]; [| lia].
  all: replace (addi (len pre) (muli (Z.of_nat k) 3))
         with (len pre + 3 * Z.of_nat k)
         by (unfold addi, muli;
             rewrite (int_wrap_small (Z.of_nat k * 3)) by lia;
             rewrite int_wrap_small by lia; lia).
  all: destruct (Nat.le_gt_cases k m) as [Hkm | Hkm].
  - rewrite Z.pow_0_r in Hfuel. lia.
  - unfold copy_within, slice_ok.
    destruct (Z.leb_spec (len pre + 3 * Z.of_nat k) (len pre + 3 * Z.of_nat m));
      [lia |].
    rewrite andb_false_r. reflexivity.
  - rewrite Nat.min_l in * by lia. rewrite <- Hunit.
    rewrite (copy_within_tile pre unit k m rest) by lia.
    cbn [exec_bind].
    replace (muli (Z.of_nat k) 2) with (Z.of_nat (2 * k))
      by (unfold muli; rewrite int_wrap_small by lia; lia).
    rewrite pow2_succ in Hfuel. rewrite Hunit. apply IH.
    + exact Hunit.
    + lia.
    + exact Hcount.
    + unfold len. rewrite length_drop. unfold len in Hrest, Hunit. nia.
    + rewrite !len_app, len_tile. unfold len. rewrite length_drop.
      unfold len in *. nia.
    + nia.
  - unfold copy_within, slice_ok.
    destruct (Z.leb_spec (len pre + 3 * Z.of_nat k) (len pre + 3 * Z.of_nat m));
      [lia |].
    rewrite andb_false_r. reflexivity.
Qed.

(** [fillRGB] panics on every run that is more than twice as long as what is
    left of the buffer behind its start. *)
Lemma fillRGB_overlong_panics (rgb : list byte) (pixels pos count : Z)
    (r g b : byte) :
  len rgb = 3 * pixels -> pixels <= 2 ^ 58 ->
  0 <= pos < pixels -> 2 * (pixels - pos) < count -> count <= 2 ^ 60 ->
  fillRGB rgb pos count r g b = Panics.
Proof.
  intros Hlen Hpix Hpos Hcount Hmax. unfold fillRGB.
  unfold addi, muli, subi.
  rewrite (int_wrap_small (pos * 3)), (int_wrap_small (count * 3)) by lia.
  rewrite (int_wrap_small (pos * 3 + count * 3)) by lia.
  rewrite Z.min_r by lia. rewrite int_wrap_small by lia.
  destruct (Z.leb_spec (len rgb - pos * 3) 0) as [Hle | Hgt]; [lia |].
  destruct (cut_buffer rgb (3 * Z.to_nat pos) 3)
    as (pre & mid & rest & -> & Hpre & Hmid); [unfold len in *; lia |].
  destruct mid as [| x0 [| x1 [| x2 [| ? ?]]]]; try discriminate Hmid.
  clear Hmid Hgt. rewrite !len_app in Hlen.
  change (len [x0; x1; x2]) with 3 in Hlen.
  assert (Hstart : pos * 3 = len pre) by (unfold len; lia).
  rewrite Hstart.
  pose proof (store_app pre [x0; x1; x2] rest 0 r) as H0.
  unfold addi in H0. rewrite Z.add_0_r, int_wrap_small in H0
    by (unfold len in *; lia).
  rewrite H0 by (cbn; unfold len in *; cbn; lia). cbn [exec_bind].
  rewrite (store_app pre _ rest 1 g) by (cbn; unfold len in *; cbn; lia).
  cbn [exec_bind].
  rewrite (store_app pre _ rest 2 b) by (cbn; unfold len in *; cbn; lia).
  cbn [exec_bind]. cbn [insert list_insert].
  set (m := Z.to_nat (pixels - pos)).
  pose proof (fillRGB_loop_panics [r; g; b] m pre count 63 1 rest) as Hloop.
  replace (Nat.min 1 m) with 1%nat in Hloop by lia.
  change (tile [r; g; b] 1) with [r; g; b] in Hloop.
  change (len [r; g; b]) with 3 in Hloop.
  rewrite !len_app. change (len [x0; x1; x2]) with 3.
  replace (len pre + (3 + len rest)) with (len pre + 3 * Z.of_nat m) by lia.
  unfold doubling_fuel. apply Hloop.
  - reflexivity.
  - lia.
  - lia.
  - lia.
  - rewrite !len_app. unfold len in *. cbn [length]. lia.
  - change (2 ^ Z.of_nat 63) with 9223372036854775808. lia.
Qed.



(** Between the two: a run that passes the end of the buffer by less. From
    pixel 7 of 10 a run of 5 pixels panics in the round with [filled = 4];
    from pixel 8 a run of 3 pixels is filled, the loop ending before it asks
    for a slice behind the end; a run that ends inside the buffer is
    filled. *)
Example fillRGB_short_overruns :
  fillRGB (replicate 30 xff) 7 5 x01 x02 x03 = Panics
  /\ fillRGB (replicate 30 xff) 8 3 x01 x02 x03
     = Returns (replicate 24 xff ++ [x01; x02; x03; x01; x02; x03])
  /\ fillRGB (replicate 30 xff) 6 2 x01 x02 x03
     = Returns (replicate 18 xff ++ [x01; x02; x03; x01; x02; x03]
                ++ replicate 6 xff).
Proof. vm_compute. repeat split; reflexivity. Qed.

(** ** The code map behind the decoder *)

Lemma finish_run_in_raster expected c length pos st log :
  0 <= pos <= expected -> expected <= 2 ^ 62 -> 0 <= length <= 2 ^ 15 ->
  Forall (run_in_raster expected) log ->
  runs_in_raster expected (finish_run record_run expected c length pos st log).
Proof.
  intros Hpos Hexp Hlen Hlog. rewrite finish_run_spec by assumption.
  pose proof (clamp_run_range expected pos length ltac:(lia) ltac:(lia)).
  split; cbn [rle_pos rle_out]; [lia |].
  destruct (Byte.eqb c transparent); [exact Hlog |].
  apply Forall_app. split; [exact Hlog |].
  constructor; [| constructor]. unfold run_in_raster. cbn. lia.
Qed.

Lemma rle_step_in_raster expected c l st :
  expected <= 2 ^ 62 -> runs_in_raster expected st ->
  runs_in_raster expected (rle_step record_run expected c l st).
Proof.
  intros Hexp [Hpos Hlog]. unfold rle_step.
  pose proof (u8_range l) as Hl.
  pose proof (held_run_length_range (heldLength st)) as Hh.
  destruct (hasHolder st).
  - destruct (Byte.eqb c (heldColor st)).
    + apply finish_run_in_raster; auto; lia.
    + cbn zeta. rewrite clamp_spec by lia.
      pose proof (clamp_run_range expected (rle_pos st)
                    (held_run_length (heldLength st)) ltac:(lia) ltac:(lia)) as Hc.
      unfold addi. rewrite int_wrap_small by lia.
      apply finish_run_in_raster; auto; try lia.
      destruct (Byte.eqb (heldColor st) transparent); cbn [negb]; [exact Hlog |].
      apply Forall_app. split; [exact Hlog |].
      constructor; [| constructor]. unfold run_in_raster. cbn. lia.
  - destruct (Byte.eqb l xff); [apply finish_run_in_raster; auto; lia |].
    destruct (negb (Z.land (u8 l) 128 =? 0)); [split; assumption |].
    apply finish_run_in_raster; auto; lia.
Qed.

Lemma rle_loop_in_raster expected data : forall st,
  expected <= 2 ^ 62 -> runs_in_raster expected st ->
  runs_in_raster expected (rle_loop record_run expected data st).
Proof.
  induction data as [data IH] using (induction_ltof1 _ (@length byte)).
  unfold ltof in IH. intros st Hexp Hst.
  destruct data as [| c [| l rest]]; try exact Hst.
  cbn [rle_loop]. destruct (rle_pos st <? expected); [| exact Hst].
  apply IH; [cbn; lia | exact Hexp |]. apply rle_step_in_raster; assumption.
Qed.

Lemma decodeRLE_calls_in_raster data width height :
  0 <= width * height <= 2 ^ 62 ->
  Forall (run_in_raster (width * height)) (decodeRLE_calls data width height).
Proof.
  intros Hsize. unfold decodeRLE_calls, decodeRLE.
  replace (muli width height) with (width * height)
    by (unfold muli; rewrite int_wrap_small by lia; reflexivity).
  destruct (rle_loop_in_raster (width * height) data (rle_init [])
              ltac:(lia) ltac:(split; [cbn; lia | constructor]))
    as [Hpos Hlog].
  set (st := rle_loop record_run (width * height) data (rle_init [])) in *.
  unfold rle_tail.
  destruct (hasHolder st && (rle_pos st <? width * height)) eqn:Hcond;
    [| exact Hlog].
  apply andb_true_iff in Hcond as [_ Hlt]. apply Z.ltb_lt in Hlt.
  cbn zeta. unfold subi. rewrite int_wrap_small by lia.
  pose proof (held_run_length_range (heldLength st)) as Hh.
  match goal with |- context [if ?b then _ else _] => destruct b end;
    [| exact Hlog].
  apply Forall_app. split; [exact Hlog |].
  constructor; [| constructor]. unfold run_in_raster. cbn.
  destruct (Z.gtb_spec (held_run_length (heldLength st))
              (width * height - rle_pos st)); lia.
Qed.

(** What [fillCodes] returns differs from the buffer only inside the run. *)
Lemma filled_lookup_outside (buf : list byte) (pos n q : nat) (code : byte) :
  (n <= length buf - pos)%nat -> (q < pos \/ pos + n <= q)%nat ->
  (take pos buf ++ replicate n code ++ drop (pos + n) buf) !! q = buf !! q.
Proof.
  intros Hn [Hq | Hq].
  - destruct (Nat.lt_ge_cases q (length buf)) as [Hin | Hout].
    + rewrite lookup_app_l by (rewrite length_take; lia).
      apply lookup_take_lt. exact Hq.
    + rewrite (lookup_ge_None_2 buf q) by lia.
      apply lookup_ge_None_2.
      rewrite !length_app, length_take, length_replicate, length_drop. lia.
  - destruct (Nat.le_gt_cases pos (length buf)) as [Hin | Hout].
    + rewrite lookup_app_r by (rewrite length_take; lia).
      rewrite length_take, Nat.min_l by lia.
      rewrite lookup_app_r by (rewrite length_replicate; lia).
      rewrite length_replicate, lookup_drop. f_equal. lia.
    + rewrite (lookup_ge_None_2 buf q) by lia.
      apply lookup_ge_None_2.
      rewrite !length_app, length_take, length_replicate, length_drop. lia.
Qed.

Lemma filled_length (buf : list byte) (pos n : nat) (code : byte) :
  (n <= length buf - pos)%nat ->
  length (take pos buf ++ replicate n code ++ drop (pos + n) buf) = length buf.
Proof.
  intros Hn. rewrite !length_app, length_take, length_replicate, length_drop.
  lia.
Qed.

Lemma replay_fillCodes expected calls : forall codeMap,
  expected <= 2 ^ 62 -> len codeMap <= 2 ^ 62 ->
  Forall (run_in_raster expected) calls ->
  exists out,
    replay emit_code calls (Returns codeMap) = Returns out
    /\ length out = length codeMap
    /\ forall q : nat,
         covered calls (Z.of_nat q) = false -> out !! q = codeMap !! q.
Proof.
  induction calls as [| r calls IH]; intros codeMap Hexp Hlen Hruns.
  - exists codeMap. repeat split; reflexivity.
  - apply List.Forall_cons_iff in Hruns as [(Hpos & Hcount & Hend) Hruns].
    unfold replay. cbn [foldl]. unfold emit_code at 2. cbn [exec_bind].
    rewrite fillCodes_clamped by lia. cbv zeta.
    set (n := Z.to_nat (Z.min (run_len r) (len codeMap - run_pos r))).
    set (filled := take (Z.to_nat (run_pos r)) codeMap ++ replicate n (run_color r)
                   ++ drop (Z.to_nat (run_pos r) + n) codeMap).
    assert (Hfilled : length filled = length codeMap).
    { apply filled_length. unfold n, len. lia. }
    destruct (IH filled Hexp ltac:(unfold len in *; lia) Hruns)
      as (out & Hout & Hsize & Hkeep).
    exists out. split; [exact Hout |]. split; [congruence |].
    intros q Hq. cbn [covered existsb] in Hq.
    apply orb_false_iff in Hq as [Hr Hq].
    rewrite (Hkeep q Hq). apply filled_lookup_outside; [unfold n, len; lia |].
    apply andb_false_iff in Hr as [Hr | Hr];
      [apply Z.leb_gt in Hr | apply Z.ltb_ge in Hr]; unfold n; lia.
Qed.

(** A code map of the size of the raster: [decodeRLEToCodeMap] returns
    (no fill leaves the buffer), the map keeps its size, and every pixel
    outside the runs handed to the sink keeps the value the map was
    initialised with. None of these runs is for the transparent code. *)
Lemma decodeRLEToCodeMap_keeps_uncovered data codeMap width height :
  0 <= width * height <= 2 ^ 62 -> len codeMap = width * height ->
  exists out,
    decodeRLEToCodeMap data codeMap width height = Returns out
    /\ length out = length codeMap
    /\ forall q : nat,
         covered (decodeRLE_calls data width height) (Z.of_nat q) = false ->
         out !! q = codeMap !! q.
Proof.
  intros Hsize Hlen. unfold decodeRLEToCodeMap.
  rewrite decodeRLE_replay.
  apply (replay_fillCodes (width * height)); try lia.
  apply decodeRLE_calls_in_raster. exact Hsize.
Qed.

(** The example of the specification: on a raster of ten pixels initialised
    to 0xff the stream 00 05 makes one call, for six pixels of code 0 from
    pixel 0, and the last four pixels stay 0xff. *)
Example decodeRLEToCodeMap_example :
  decodeRLE_calls [x00; x05] 10 1 = [Run 0 6 x00]
  /\ decodeRLEToCodeMap [x00; x05] (replicate 10 xff) 10 1 =
     Returns (replicate 6 x00 ++ replicate 4 xff).
Proof. vm_compute. split; reflexivity. Qed.

(** ** The order of the tone layers *)

Section SortLayers.
Variable Path : Type.
Implicit Types (l : colorLayer Path) (layers out : list (colorLayer Path)).

Lemma markers_first_ink l y :
  is_marker l = false -> (markers_first l y <? 0) = false.
Proof.
  unfold is_marker, markers_first. intros ->. cbn.
  destruct (u8 (cl_alpha y) <? 255); reflexivity.
Qed.

Lemma markers_first_marker l y :
  is_marker l = true -> (markers_first l y <? 0) = negb (is_marker y).
Proof.
  unfold is_marker, markers_first. intros ->. cbn.
  destruct (u8 (cl_alpha y) <? 255); reflexivity.
Qed.

(** An ink layer stays where it was appended. *)
Lemma insert_ink l prefix_rev :
  is_marker l = false ->
  insert_moving_left markers_first l prefix_rev = l :: prefix_rev.
Proof.
  intros Hl. destruct prefix_rev as [| y rest]; [reflexivity |].
  cbn. rewrite markers_first_ink by exact Hl. reflexivity.
Qed.

(** A marker layer moves in front of the ink layers and stops behind the
    markers already there. *)
Lemma insert_marker l inks markers :
  is_marker l = true ->
  Forall (fun y => is_marker y = false) inks ->
  Forall (fun y => is_marker y = true) markers ->
  insert_moving_left markers_first l (inks ++ markers) =
  inks ++ l :: markers.
Proof.
  intros Hl Hinks Hmarkers. induction Hinks as [| y inks Hy _ IH].
  - destruct Hmarkers as [| y markers Hy _]; [reflexivity |].
    cbn. rewrite markers_first_marker, Hy by exact Hl. reflexivity.
  - cbn. rewrite markers_first_marker, Hy by exact Hl. cbn.
    rewrite IH. reflexivity.
Qed.

Lemma sort_invariant layers : forall markers inks,
  Forall (fun y => is_marker y = true) markers ->
  Forall (fun y => is_marker y = false) inks ->
  foldl (fun prefix_rev x => insert_moving_left markers_first x prefix_rev)
        (rev inks ++ rev markers) layers =
  rev (inks ++ List.filter is_ink layers)
  ++ rev (markers ++ List.filter is_marker layers).
Proof.
  induction layers as [| l layers IH]; intros markers inks Hm Hi.
  - cbn. rewrite !app_nil_r. reflexivity.
  - cbn [foldl List.filter]. unfold is_ink at 1.
    destruct (is_marker l) eqn:Hl; cbn [negb].
    + rewrite (insert_marker l (rev inks) (rev markers) Hl
                 (Forall_rev Hi) (Forall_rev Hm)).
      rewrite <- (rev_unit markers l).
      rewrite IH; [| apply Forall_app; auto | exact Hi].
      rewrite <- !app_assoc. reflexivity.
    + rewrite insert_ink by exact Hl.
      rewrite app_comm_cons, <- (rev_unit inks l).
      rewrite IH; [| exact Hm | apply Forall_app; auto].
      rewrite <- !app_assoc. reflexivity.
Qed.

Lemma sort_layers_partition layers :
  sort_layers layers =
  List.filter is_marker layers ++ List.filter is_ink layers.
Proof.
  unfold sort_layers, SortStableFunc.
  pose proof (sort_invariant layers [] [] (List.Forall_nil _) (List.Forall_nil _)) as H.
  cbn [rev app] in H. rewrite H, rev_app_distr, !rev_involutive.
  reflexivity.
Qed.

Lemma filter_filter_same (f : colorLayer Path -> bool) layers :
  List.filter f (List.filter f layers) = List.filter f layers.
Proof.
  induction layers as [| l layers IH]; [reflexivity |].
  cbn. destruct (f l) eqn:Hf; cbn; rewrite ?Hf, IH; reflexivity.
Qed.

Lemma filter_filter_none (f g : colorLayer Path -> bool) layers :
  (forall l, f l = true -> g l = false) ->
  List.filter g (List.filter f layers) = [].
Proof.
  intros Hfg. induction layers as [| l layers IH]; [reflexivity |].
  cbn. destruct (f l) eqn:Hf; cbn; rewrite ?(Hfg l Hf), IH; reflexivity.
Qed.

Lemma layers_ordered_tail l out :
  layers_ordered (l :: out) -> layers_ordered out.
Proof.
  intros H i j a b Hij Hi Hj.
  apply (H (S i) (S j) a b); [lia | exact Hi | exact Hj].
Qed.

Lemma layers_ordered_after_ink l out :
  layers_ordered (l :: out) -> is_marker l = false ->
  List.filter is_marker out = [] /\ List.filter is_ink out = out.
Proof.
  intros H Hl.
  assert (Hall : forall b, In b out -> is_marker b = false).
  { intros b Hb. apply list_elem_of_In, list_elem_of_lookup in Hb as [j Hj].
    specialize (H 0%nat (S j) l b ltac:(lia) eq_refl Hj).
    unfold markers_first in H. unfold is_marker in *. rewrite Hl in H.
    destruct (u8 (cl_alpha b) <? 255); [discriminate H | reflexivity]. }
  clear H. induction out as [| b out IH]; [split; reflexivity |].
  cbn. unfold is_ink at 1. rewrite (Hall b (or_introl eq_refl)). cbn.
  destruct IH as [-> ->]; [intros; apply Hall; right; assumption |].
  split; reflexivity.
Qed.

Lemma layers_ordered_partition out :
  layers_ordered out ->
  out = List.filter is_marker out ++ List.filter is_ink out.
Proof.
  induction out as [| l out IH]; intros H; [reflexivity |].
  cbn. unfold is_ink at 1. destruct (is_marker l) eqn:Hl; cbn.
  - f_equal. apply IH. exact (layers_ordered_tail l out H).
  - destruct (layers_ordered_after_ink l out H Hl) as [-> ->]. reflexivity.
Qed.

(** Markers followed by inks are ordered. *)
Lemma partition_ordered layers :
  layers_ordered (List.filter is_marker layers ++ List.filter is_ink layers).
Proof.
  intros i j a b Hij Hi Hj.
  destruct (is_marker b) eqn:Hb;
    [| apply markers_first_ink; exact Hb].
  rewrite markers_first_marker by exact Hb. apply negb_false_iff.
  destruct (Nat.lt_ge_cases j (length (List.filter is_marker layers)))
    as [Hlt | Hge].
  - rewrite lookup_app_l in Hi by lia.
    apply list_elem_of_lookup_2, list_elem_of_In, filter_In in Hi.
    apply Hi.
  - rewrite lookup_app_r in Hj by exact Hge.
    apply list_elem_of_lookup_2, list_elem_of_In, filter_In in Hj.
    destruct Hj as [_ Hj]. unfold is_ink in Hj. rewrite Hb in Hj.
    discriminate Hj.
Qed.

(** What a stable sort by [markers_first] returns is fixed by its
    contract: an ordered arrangement that keeps the order of the marker
    layers and the order of the ink layers is the one [sort_layers]
    computes. *)
Lemma stable_order_unique layers out :
  layers_ordered out ->
  List.filter is_marker out = List.filter is_marker layers ->
  List.filter is_ink out = List.filter is_ink layers ->
  out = sort_layers layers.
Proof.
  intros Hord Hm Hi. rewrite sort_layers_partition, <- Hm, <- Hi.
  apply layers_ordered_partition. exact Hord.
Qed.
End SortLayers.

(** C8. The sort that ends [renderContentColorLayers] is a stable partition
    by opacity class: the result is the marker layers (alpha < 255) in the
    order in which they were appended, followed by the ink layers
    (alpha = 255) in the order in which they were appended. So every marker
    layer comes before every ink layer, and inside each class the relative
    order is that of the input. The result is ordered by the comparison, and
    it is the only ordered arrangement that keeps the order inside the two
    classes: any stable sort returns it. *)
Theorem sort_layers_markers_first_stable :
  forall (Path : Type) (layers : list (colorLayer Path)),
    let marker (l : colorLayer Path) := u8 (cl_alpha l) <? 255 in
    let ink (l : colorLayer Path) := negb (u8 (cl_alpha l) <? 255) in
    let sorted := sort_layers layers in
    sorted = List.filter marker layers ++ List.filter ink layers
    /\ (forall (i j : nat) (a b : colorLayer Path),
          sorted !! i = Some a -> sorted !! j = Some b ->
          marker a = true -> ink b = true -> (i < j)%nat)
    /\ List.filter marker sorted = List.filter marker layers
    /\ List.filter ink sorted = List.filter ink layers
    /\ layers_ordered sorted
    /\ (forall out : list (colorLayer Path),
          layers_ordered out ->
          List.filter marker out = List.filter marker layers ->
          List.filter ink out = List.filter ink layers ->
          out = sorted).
Proof.
  intros Path layers marker ink sorted.
  assert (Hsorted : sorted = List.filter marker layers ++ List.filter ink layers)
    by apply sort_layers_partition.
  change marker with (@is_marker Path) in *.
  change ink with (@is_ink Path) in *.
  split; [exact Hsorted |]. split; [| split; [| split; [| split]]].
  - intros i j a b Hi Hj Ha Hb. rewrite Hsorted in Hi, Hj.
    destruct (Nat.lt_ge_cases i (length (List.filter is_marker layers)))
      as [Hlt | Hge].
    + destruct (Nat.lt_ge_cases j (length (List.filter is_marker layers)))
        as [Hjlt | Hjge]; [| lia].
      rewrite lookup_app_l in Hj by exact Hjlt.
      apply list_elem_of_lookup_2, list_elem_of_In, filter_In in Hj.
      unfold is_ink in Hb. destruct Hj as [_ Hj]. rewrite Hj in Hb.
      discriminate Hb.
    + rewrite lookup_app_r in Hi by exact Hge.
      apply list_elem_of_lookup_2, list_elem_of_In, filter_In in Hi.
      destruct Hi as [_ Hi]. unfold is_ink in Hi. rewrite Ha in Hi.
      discriminate Hi.
  - rewrite Hsorted, List.filter_app, filter_filter_same.
    rewrite (filter_filter_none _ is_ink is_marker), app_nil_r; [reflexivity |].
    intros l. unfold is_ink. destruct (is_marker l); [discriminate | reflexivity].
  - rewrite Hsorted, List.filter_app, filter_filter_same.
    rewrite (filter_filter_none _ is_marker is_ink); [reflexivity |].
    intros l. unfold is_ink. intros ->. reflexivity.
  - rewrite Hsorted. apply partition_ordered.
  - intros out Hord Hm Hi. apply stable_order_unique; assumption.
Qed.

(** ** The palette *)

Lemma to_byte_u8 b : to_byte (u8 b) = b.
Proof. destruct b; reflexivity. Qed.

Lemma all_bytes_complete b : In b all_bytes.
Proof.
  rewrite <- (to_byte_u8 b). unfold all_bytes. apply in_map.
  apply list_elem_of_In, elem_of_seqZ. pose proof (u8_range b). lia.
Qed.

(** A property of two bytes that holds on all 65536 pairs. *)
Lemma for_all_byte_pairs (P : byte -> byte -> bool) :
  forallb (fun s => forallb (P s) all_bytes) all_bytes = true ->
  forall s e, P s e = true.
Proof.
  intros H s e.
  rewrite forallb_forall in H. specialize (H s (all_bytes_complete s)).
  rewrite forallb_forall in H. exact (H e (all_bytes_complete e)).
Qed.

(** At fraction 0 the interpolation returns the start channel and at
    fraction 1 the end channel, byte for byte, in binary64 arithmetic. *)
Lemma interpolate_0 s e : interpolate s e 0%float = s.
Proof.
  apply byte_eqb_eq.
  apply (for_all_byte_pairs (fun s e => Byte.eqb (interpolate s e 0%float) s)).
  vm_compute. reflexivity.
Qed.

Lemma interpolate_1 s e : interpolate s e 1%float = e.
Proof.
  apply byte_eqb_eq.
  apply (for_all_byte_pairs (fun s e => Byte.eqb (interpolate s e 1%float) e)).
  vm_compute. reflexivity.
Qed.

Lemma palette_entry_start p q c0 c1 :
  (f64 (p - p) / f64 (q - p))%float = 0%float ->
  palette_entry (Anchor p c0) (Anchor q c1) p = c0.
Proof.
  intros Hf. unfold palette_entry. cbn [a_pos a_rgb]. rewrite Hf.
  destruct c0 as [[sr sg] sb], c1 as [[er eg] eb].
  rewrite !interpolate_0. reflexivity.
Qed.

Lemma palette_entry_end p q c0 c1 :
  (f64 (q - p) / f64 (q - p))%float = 1%float ->
  palette_entry (Anchor p c0) (Anchor q c1) q = c1.
Proof.
  intros Hf. unfold palette_entry. cbn [a_pos a_rgb]. rewrite Hf.
  destruct c0 as [[sr sg] sb], c1 as [[er eg] eb].
  rewrite !interpolate_1. reflexivity.
Qed.

(** The colour table with the interpolated entries left symbolic: [g1],
    [g2], [g3] give the entries of the three segments. *)
Lemma anchor_entries (g1 g2 g3 : Z -> rgb) :
  let colors :=
    foldl (fun colors j => <[Z.to_nat j := g3 j]> colors)
      (foldl (fun colors j => <[Z.to_nat j := g2 j]> colors)
         (foldl (fun colors j => <[Z.to_nat j := g1 j]> colors)
            (replicate 256 (x00, x00, x00)) (seqZ 0 (157 - 0 + 1)))
         (seqZ 157 (201 - 157 + 1)))
      (seqZ 201 (255 - 201 + 1)) in
  let colors := alias 0x61 0 colors in
  let colors := alias 0x63 157 colors in
  let colors := alias 0x64 201 colors in
  let colors := alias 0x65 255 colors in
  let colors := alias 0x66 0 colors in
  let colors := alias 0x67 157 colors in
  let colors := alias 0x68 201 colors in
  let colors := alias 0x9d 157 colors in
  let colors := alias 0x9e 157 colors in
  let colors := alias 0xc9 201 colors in
  let colors := alias 0xca 201 colors in
  colors !! 0%nat = Some (g1 0)
  /\ colors !! 157%nat = Some (g2 157)
  /\ colors !! 201%nat = Some (g3 201)
  /\ colors !! 255%nat = Some (g3 255).
Proof. vm_compute. auto. Qed.

(** C5. Whatever the four configured anchor colours, the palette maps the
    codes 0, 157, 201 and 255 to exactly the colours [parseHexColor] reads
    from the configuration, each channel byte for byte: the binary64
    interpolation is exact at both ends of a segment, and the two segments
    that share code 157 (and 201) agree on it. *)
Theorem BuildPalette_anchor_codes_exact :
  forall (cfg : ColorConfig) (markerOpacity : float),
    let p := BuildPalette cfg markerOpacity in
    Colors p !! 0%nat = Some (parseHexColor (Black cfg)).1
    /\ Colors p !! 157%nat = Some (parseHexColor (DarkGray cfg)).1
    /\ Colors p !! 201%nat = Some (parseHexColor (LightGray cfg)).1
    /\ Colors p !! 255%nat = Some (parseHexColor (White cfg)).1
    /\ palette_entry (Anchor 0 (parseHexColor (Black cfg)).1)
         (Anchor 157 (parseHexColor (DarkGray cfg)).1) 157
       = palette_entry (Anchor 157 (parseHexColor (DarkGray cfg)).1)
           (Anchor 201 (parseHexColor (LightGray cfg)).1) 157
    /\ palette_entry (Anchor 157 (parseHexColor (DarkGray cfg)).1)
         (Anchor 201 (parseHexColor (LightGray cfg)).1) 201
       = palette_entry (Anchor 201 (parseHexColor (LightGray cfg)).1)
           (Anchor 255 (parseHexColor (White cfg)).1) 201.
Proof.
  intros cfg markerOpacity p. subst p.
  set (c0 := (parseHexColor (Black cfg)).1).
  set (c1 := (parseHexColor (DarkGray cfg)).1).
  set (c2 := (parseHexColor (LightGray cfg)).1).
  set (c3 := (parseHexColor (White cfg)).1).
  pose proof (palette_entry_start 0 157 c0 c1 eq_refl) as H0.
  pose proof (palette_entry_end 0 157 c0 c1 eq_refl) as H157a.
  pose proof (palette_entry_start 157 201 c1 c2 eq_refl) as H157.
  pose proof (palette_entry_end 157 201 c1 c2 eq_refl) as H201a.
  pose proof (palette_entry_start 201 255 c2 c3 eq_refl) as H201.
  pose proof (palette_entry_end 201 255 c2 c3 eq_refl) as H255.
  pose proof (anchor_entries (palette_entry (Anchor 0 c0) (Anchor 157 c1))
                (palette_entry (Anchor 157 c1) (Anchor 201 c2))
                (palette_entry (Anchor 201 c2) (Anchor 255 c3))) as H.
  cbv zeta in H. rewrite H0, H157, H201, H255 in H.
  destruct H as (E0 & E157 & E201 & E255).
  split; [exact E0 |]. split; [exact E157 |].
  split; [exact E201 |]. split; [exact E255 |]. split.
  - rewrite H157a, H157. reflexivity.
  - rewrite H201a, H201. reflexivity.
Qed.

Lemma marker_alphas_entries (m : byte) :
  let alphas :=
    <[Z.to_nat 0x68 := m]>
      (<[Z.to_nat 0x67 := m]> (<[Z.to_nat 0x66 := m]> (replicate 256 xff))) in
  alphas !! Z.to_nat 0x66 = Some m
  /\ alphas !! Z.to_nat 0x67 = Some m
  /\ alphas !! Z.to_nat 0x68 = Some m.
Proof. vm_compute. auto. Qed.

Lemma BuildPalette_marker_alphas cfg markerOpacity :
  Alphas (BuildPalette cfg markerOpacity) !! Z.to_nat 0x66
    = Some (marker_alpha markerOpacity)
  /\ Alphas (BuildPalette cfg markerOpacity) !! Z.to_nat 0x67
     = Some (marker_alpha markerOpacity)
  /\ Alphas (BuildPalette cfg markerOpacity) !! Z.to_nat 0x68
     = Some (marker_alpha markerOpacity).
Proof. exact (marker_alphas_entries (marker_alpha markerOpacity)). Qed.

(** C10. For every configuration the palette of a .note conversion is built
    with the opacity 0.2, so the marker codes 0x66, 0x67 and 0x68 get the
    alpha byte 51 and the palette is the same for two configurations that
    agree on the note colours, whatever their marker opacity. The palette of
    a .mark conversion is built with the configured marker opacity, which
    decides its marker alphas: the configurations with marker opacity 0.38
    and 0.5 give the alpha bytes 96 and 127 there, and 51 for .note. *)
Theorem marker_opacity_reaches_only_mark_palette :
  forall cfg : Config,
    (u8 <$> Alphas (note_palette cfg) !! Z.to_nat 0x66 = Some 51
     /\ u8 <$> Alphas (note_palette cfg) !! Z.to_nat 0x67 = Some 51
     /\ u8 <$> Alphas (note_palette cfg) !! Z.to_nat 0x68 = Some 51)
    /\ (forall cfg' : Config,
          Note cfg' = Note cfg -> note_palette cfg' = note_palette cfg)
    /\ mark_palette cfg =
       BuildPalette (mark_colors (Mark cfg)) (MarkerOpacity (Mark cfg))
    /\ (Alphas (mark_palette cfg) !! Z.to_nat 0x66
          = Some (marker_alpha (MarkerOpacity (Mark cfg)))
        /\ Alphas (mark_palette cfg) !! Z.to_nat 0x67
           = Some (marker_alpha (MarkerOpacity (Mark cfg)))
        /\ Alphas (mark_palette cfg) !! Z.to_nat 0x68
           = Some (marker_alpha (MarkerOpacity (Mark cfg))))
    /\ (u8 <$> Alphas (mark_palette (sample_config 0x1.851eb851eb852p-2))
                 !! Z.to_nat 0x66 = Some 96
        /\ u8 <$> Alphas (mark_palette (sample_config 0x1p-1))
                    !! Z.to_nat 0x66 = Some 127
        /\ note_palette (sample_config 0x1.851eb851eb852p-2)
           = note_palette (sample_config 0x1p-1)).
Proof.
  intros cfg. split; [| split; [| split; [| split]]].
  - unfold note_palette.
    destruct (BuildPalette_marker_alphas (note_colors (Note cfg))
                0x1.999999999999ap-3%float) as (H66 & H67 & H68).
    rewrite H66, H67, H68. repeat split; reflexivity.
  - intros cfg' Hnote. unfold note_palette. rewrite Hnote. reflexivity.
  - reflexivity.
  - unfold mark_palette. apply BuildPalette_marker_alphas.
  - split; [| split].
    + unfold mark_palette.
      rewrite (proj1 (BuildPalette_marker_alphas _ _)). reflexivity.
    + unfold mark_palette.
      rewrite (proj1 (BuildPalette_marker_alphas _ _)). reflexivity.
    + reflexivity.
Qed.

(** ** Metadata blocks *)

Lemma is_byte_true c lit : is_byte c lit = true <-> c = lit.
Proof. apply byte_eqb_eq. Qed.

Lemma is_byte_false c lit : is_byte c lit = false <-> c <> lit.
Proof. apply byte_eqb_neq. Qed.

Lemma find_colon_bounds rest : forall j k,
  find_colon rest j = Some k -> (j <= k < j + length rest)%nat.
Proof.
  induction rest as [| c rest IH]; intros j k H; [discriminate |].
  cbn in H. destruct (is_byte c ":").
  - injection H as <-. cbn. lia.
  - destruct (is_byte c ">" || is_byte c "<"); [discriminate |].
    apply IH in H. cbn. lia.
Qed.

Lemma find_close_bounds rest : forall j k,
  find_close rest j = Some k -> (j <= k < j + length rest)%nat.
Proof.
  induction rest as [| c rest IH]; intros j k H; [discriminate |].
  cbn in H. destruct (is_byte c ">").
  - injection H as <-. cbn. lia.
  - apply IH in H. cbn. lia.
Qed.

Lemma find_colon_shift rest : forall n j,
  find_colon rest (n + j) = (fun k => (n + k)%nat) <$> find_colon rest j.
Proof.
  induction rest as [| c rest IH]; intros n j; [reflexivity |].
  cbn. destruct (is_byte c ":"); [reflexivity |].
  destruct (is_byte c ">" || is_byte c "<"); [reflexivity |].
  rewrite <- IH. f_equal. lia.
Qed.

Lemma find_close_shift rest : forall n j,
  find_close rest (n + j) = (fun k => (n + k)%nat) <$> find_close rest j.
Proof.
  induction rest as [| c rest IH]; intros n j; [reflexivity |].
  cbn. destruct (is_byte c ">"); [reflexivity |].
  rewrite <- IH. f_equal. lia.
Qed.

Lemma find_colon_key key rest j :
  key_bytes key ->
  find_colon (key ++ ":"%byte :: rest) j = Some (j + length key)%nat.
Proof.
  intros Hkey. revert j. induction Hkey as [| c key (Hc & Hlt & Hgt) _ IH];
    intros j.
  - cbn. f_equal. lia.
  - cbn. apply is_byte_false in Hc, Hlt, Hgt. rewrite Hc, Hlt, Hgt. cbn.
    rewrite IH. f_equal. lia.
Qed.

Lemma find_colon_junk junk rest j :
  key_bytes junk -> stops_colon_search rest ->
  find_colon (junk ++ rest) j = None.
Proof.
  intros Hjunk Hrest. revert j.
  induction Hjunk as [| c junk (Hc & Hlt & Hgt) _ IH]; intros j.
  - destruct rest as [| c rest]; [reflexivity |].
    cbn. destruct Hrest as [-> | ->]; reflexivity.
  - cbn. apply is_byte_false in Hc, Hlt, Hgt. rewrite Hc, Hlt, Hgt. cbn.
    apply IH.
Qed.

Lemma find_close_value value rest j :
  value_bytes value ->
  find_close (value ++ ">"%byte :: rest) j = Some (j + length value)%nat.
Proof.
  intros Hvalue. revert j. induction Hvalue as [| c value Hc _ IH]; intros j.
  - cbn. f_equal. lia.
  - cbn. apply is_byte_false in Hc. rewrite Hc. rewrite IH. f_equal. lia.
Qed.

Lemma find_close_open value j :
  value_bytes value -> find_close value j = None.
Proof.
  intros Hvalue. revert j. induction Hvalue as [| c value Hc _ IH]; intros j.
  - reflexivity.
  - cbn. apply is_byte_false in Hc. rewrite Hc. apply IH.
Qed.

(** The loop always ends by its own condition: [length buf - i] iterations
    are enough, and more make no difference. *)
Lemma parse_records_fuel buf : forall fuel1 fuel2 i result,
  (length buf - i <= fuel1)%nat -> (length buf - i <= fuel2)%nat ->
  parse_records fuel1 buf i result = parse_records fuel2 buf i result.
Proof.
  induction fuel1 as [| fuel1 IH]; intros fuel2 i result H1 H2.
  - assert (Hnone : buf !! i = None) by (apply lookup_ge_None; lia).
    destruct fuel2; cbn; rewrite Hnone; reflexivity.
  - destruct fuel2 as [| fuel2].
    + assert (Hnone : buf !! i = None) by (apply lookup_ge_None; lia).
      cbn. rewrite Hnone. reflexivity.
    + cbn [parse_records]. destruct (buf !! i) as [c |] eqn:Hc; [| reflexivity].
      apply lookup_lt_Some in Hc.
      destruct (negb (is_byte c "<")); [apply IH; lia |].
      cbn zeta.
      destruct (find_colon (drop (i + 1) buf) (i + 1)) as [colonIdx |] eqn:Hcolon;
        [| apply IH; lia].
      apply find_colon_bounds in Hcolon. rewrite length_drop in Hcolon.
      destruct (find_close (drop (colonIdx + 1) buf) (colonIdx + 1))
        as [closeIdx |] eqn:Hclose; [| reflexivity].
      apply find_close_bounds in Hclose. rewrite length_drop in Hclose.
      apply IH; lia.
Qed.

Lemma parse_records_returns buf : forall fuel i result,
  (length buf - i <= fuel)%nat ->
  exists m, parse_records fuel buf i result = Returns m.
Proof.
  induction fuel as [| fuel IH]; intros i result Hfuel.
  - assert (Hnone : buf !! i = None) by (apply lookup_ge_None; lia).
    exists result. cbn. rewrite Hnone. reflexivity.
  - cbn [parse_records]. destruct (buf !! i) as [c |] eqn:Hc; [| eauto].
    apply lookup_lt_Some in Hc.
    destruct (negb (is_byte c "<")); [apply IH; lia |].
    cbn zeta.
    destruct (find_colon (drop (i + 1) buf) (i + 1)) as [colonIdx |] eqn:Hcolon;
      [| apply IH; lia].
    apply find_colon_bounds in Hcolon. rewrite length_drop in Hcolon.
    destruct (find_close (drop (colonIdx + 1) buf) (colonIdx + 1))
      as [closeIdx |] eqn:Hclose; [| eauto].
    apply find_close_bounds in Hclose. rewrite length_drop in Hclose.
    apply IH; lia.
Qed.

Lemma parse_block_returns buf : exists m, parse_block buf = Returns m.
Proof. apply parse_records_returns. lia. Qed.

Lemma slice_shift pre buf lo hi :
  slice (pre ++ buf) (length pre + lo) (length pre + hi) = slice buf lo hi.
Proof.
  unfold slice. rewrite drop_app_add'; [| reflexivity]. f_equal. lia.
Qed.

(** The loop only looks at the bytes from [i] on. *)
Lemma parse_records_shift pre buf : forall fuel i result,
  parse_records fuel (pre ++ buf) (length pre + i) result =
  parse_records fuel buf i result.
Proof.
  induction fuel as [| fuel IH]; intros i result.
  - cbn. rewrite lookup_app_r by lia.
    replace (length pre + i - length pre)%nat with i by lia. reflexivity.
  - cbn [parse_records]. rewrite lookup_app_r by lia.
    replace (length pre + i - length pre)%nat with i by lia.
    destruct (buf !! i) as [c |]; [| reflexivity].
    destruct (negb (is_byte c "<")).
    { rewrite <- IH. f_equal. lia. }
    cbn zeta.
    replace (length pre + i + 1)%nat with (length pre + (i + 1))%nat by lia.
    rewrite drop_app_add' by reflexivity.
    rewrite find_colon_shift.
    destruct (find_colon (drop (i + 1) buf) (i + 1)) as [colonIdx |];
      cbn [fmap option_fmap option_map].
    2: { apply IH. }
    replace (length pre + colonIdx + 1)%nat
      with (length pre + (colonIdx + 1))%nat by lia.
    rewrite drop_app_add' by reflexivity.
    rewrite find_close_shift.
    destruct (find_close (drop (colonIdx + 1) buf) (colonIdx + 1))
      as [closeIdx |]; cbn [fmap option_fmap option_map]; [| reflexivity].
    rewrite !slice_shift.
    replace (length pre + closeIdx + 1)%nat
      with (length pre + (closeIdx + 1))%nat by lia.
    apply IH.
Qed.

(** Resuming the loop behind a consumed prefix is parsing the rest. *)
Lemma parse_records_resume pre rest fuel result :
  (length rest <= fuel)%nat ->
  parse_records fuel (pre ++ rest) (length pre) result = parse_from result rest.
Proof.
  intros Hfuel. unfold parse_from.
  rewrite <- (Nat.add_0_r (length pre)).
  rewrite parse_records_shift. apply parse_records_fuel; lia.
Qed.

Lemma find_colon_from rest n :
  find_colon rest n = (fun k => (n + k)%nat) <$> find_colon rest 0.
Proof. rewrite <- find_colon_shift. f_equal. lia. Qed.

Lemma find_close_from rest n :
  find_close rest n = (fun k => (n + k)%nat) <$> find_close rest 0.
Proof. rewrite <- find_close_shift. f_equal. lia. Qed.

(** The four ways an iteration can go, on the bytes still to be read. *)
Ltac first_iteration :=
  unfold parse_from at 1;
  cbn [length parse_records lookup list_lookup Nat.add drop];
  cbn zeta; rewrite ?drop_0.

Lemma parse_from_nil result : parse_from result [] = Returns result.
Proof. reflexivity. Qed.

Lemma parse_from_other result c rest :
  c <> "<"%byte -> parse_from result (c :: rest) = parse_from result rest.
Proof.
  intros Hc. first_iteration.
  apply is_byte_false in Hc. rewrite Hc. cbn [negb].
  apply (parse_records_resume [c] rest). lia.
Qed.

Lemma parse_from_no_colon result rest :
  find_colon rest 0 = None ->
  parse_from result ("<"%byte :: rest) = parse_from result rest.
Proof.
  intros Hcolon. first_iteration.
  change (is_byte "<" "<") with true. cbn [negb].
  rewrite (find_colon_from rest 1), Hcolon. cbn [fmap option_fmap option_map].
  apply (parse_records_resume ["<"%byte] rest). lia.
Qed.

Lemma parse_from_no_close result rest colonIdx :
  find_colon rest 0 = Some colonIdx ->
  find_close (drop (colonIdx + 1) rest) 0 = None ->
  parse_from result ("<"%byte :: rest) = Returns result.
Proof.
  intros Hcolon Hclose. first_iteration.
  change (is_byte "<" "<") with true. cbn [negb].
  rewrite (find_colon_from rest 1), Hcolon. cbn [fmap option_fmap option_map].
  replace (1 + colonIdx + 1)%nat with (S (colonIdx + 1)) by lia.
  cbn [drop].
  rewrite find_close_from, Hclose. reflexivity.
Qed.

Lemma parse_from_record result rest colonIdx closeIdx :
  find_colon rest 0 = Some colonIdx ->
  find_close (drop (colonIdx + 1) rest) 0 = Some closeIdx ->
  parse_from result ("<"%byte :: rest) =
  parse_from
    (<[string_of_list_byte (take colonIdx rest) :=
         string_of_list_byte (take closeIdx (drop (colonIdx + 1) rest))]> result)
    (drop (colonIdx + 1 + closeIdx + 1) rest).
Proof.
  intros Hcolon Hclose. first_iteration.
  change (is_byte "<" "<") with true. cbn [negb].
  rewrite (find_colon_from rest 1), Hcolon. cbn [fmap option_fmap option_map].
  replace (1 + colonIdx + 1)%nat with (S (colonIdx + 1)) by lia.
  cbn [drop].
  rewrite find_close_from, Hclose. cbn [fmap option_fmap option_map].
  pose proof (find_colon_bounds _ _ _ Hcolon) as Hb1.
  pose proof (find_close_bounds _ _ _ Hclose) as Hb2.
  rewrite length_drop in Hb2.
  assert (Hkey : slice ("<"%byte :: rest) 1 (1 + colonIdx)
                 = take colonIdx rest).
  { unfold slice. cbn [drop]. f_equal. lia. }
  assert (Hval : slice ("<"%byte :: rest) (S (colonIdx + 1))
                   (S (colonIdx + 1) + closeIdx)
                 = take closeIdx (drop (colonIdx + 1) rest)).
  { unfold slice. cbn [drop]. f_equal. lia. }
  rewrite Hkey, Hval.
  set (m := <[_ := _]> result).
  set (consumed := (colonIdx + 1 + closeIdx + 1)%nat).
  transitivity
    (parse_records (length rest)
       (("<"%byte :: take consumed rest) ++ drop consumed rest)
       (length ("<"%byte :: take consumed rest)) m).
  - f_equal.
    + cbn [app]. rewrite take_drop. reflexivity.
    + cbn [length]. rewrite length_take. subst consumed. lia.
  - apply parse_records_resume. rewrite length_drop. lia.
Qed.

Lemma drop_past (A : Type) (front : list A) (c : A) (back : list A) :
  drop (length front + 1) (front ++ c :: back) = back.
Proof. induction front as [| x front IH]; [reflexivity | exact IH]. Qed.

Lemma parse_from_well_formed result key value rest :
  key_bytes key -> value_bytes value ->
  parse_from result ("<"%byte :: key ++ ":"%byte :: value ++ ">"%byte :: rest) =
  parse_from
    (<[string_of_list_byte key := string_of_list_byte value]> result) rest.
Proof.
  intros Hkey Hvalue.
  rewrite (parse_from_record result _ (length key) (length value)).
  - rewrite take_app_length, drop_past, take_app_length.
    replace (length key + 1 + length value + 1)%nat
      with ((length key + 1) + (length value + 1))%nat by lia.
    rewrite <- drop_drop, !drop_past. reflexivity.
  - rewrite find_colon_key by exact Hkey. reflexivity.
  - rewrite drop_past, find_close_value by exact Hvalue. reflexivity.
Qed.

Lemma parse_from_skip junk rest result :
  Forall (fun c => c <> "<"%byte) junk ->
  parse_from result (junk ++ rest) = parse_from result rest.
Proof.
  induction 1 as [| c junk Hc _ IH]; [reflexivity |].
  cbn [app]. rewrite parse_from_other by exact Hc. exact IH.
Qed.

Lemma parse_from_malformed result junk rest :
  key_bytes junk -> stops_colon_search rest ->
  parse_from result ("<"%byte :: junk ++ rest) = parse_from result rest.
Proof.
  intros Hjunk Hrest.
  rewrite parse_from_no_colon by (apply find_colon_junk; assumption).
  apply parse_from_skip.
  eapply Forall_impl; [exact Hjunk |]. cbn. tauto.
Qed.

Lemma parse_from_unclosed result key value :
  key_bytes key -> value_bytes value ->
  parse_from result ("<"%byte :: key ++ ":"%byte :: value) = Returns result.
Proof.
  intros Hkey Hvalue.
  apply (parse_from_no_close result _ (length key)).
  - rewrite find_colon_key by exact Hkey. reflexivity.
  - rewrite drop_past. apply find_close_open. exact Hvalue.
Qed.

Lemma record_bytes_app key value rest :
  record_bytes (key, value) ++ rest =
  "<"%byte :: key ++ ":"%byte :: value ++ ">"%byte :: rest.
Proof.
  unfold record_bytes. cbn [fst snd app]. f_equal.
  rewrite <- app_assoc. cbn [app]. f_equal. f_equal.
  rewrite <- app_assoc. reflexivity.
Qed.

Lemma parse_from_records records : forall result rest,
  Forall (fun kv => key_bytes kv.1 /\ value_bytes kv.2) records ->
  parse_from result (concat (map record_bytes records) ++ rest) =
  parse_from (insert_records result records) rest.
Proof.
  induction records as [| [key value] records IH]; intros result rest Hrecs.
  - reflexivity.
  - inversion Hrecs as [| kv recs [Hkey Hvalue] Hrest]; subst.
    cbn [fst snd] in Hkey, Hvalue.
    cbn [map concat]. rewrite <- app_assoc, record_bytes_app.
    rewrite parse_from_well_formed by assumption.
    apply IH. exact Hrest.
Qed.

Lemma read_full_at pre bytes post n :
  len bytes = n ->
  read_full (pre ++ bytes ++ post) (len pre) n = Some bytes.
Proof.
  intros <-. unfold read_full, len. rewrite !Nat2Z.id.
  rewrite drop_app_length, length_app.
  destruct (Z.leb_spec (Z.of_nat (length bytes))
              (Z.of_nat (length bytes + length post))); [| lia].
  rewrite take_app_length. reflexivity.
Qed.


Ltac bytes_ok :=
  unfold key_bytes, value_bytes; cbn;
  repeat (apply List.Forall_cons; [repeat split; discriminate |]);
  apply List.Forall_nil.


(** ** Placeholders and their replacement *)

Lemma no_P_no_PA s : no_P s -> no_PA s = true.
Proof.
  induction 1 as [| c s Hc _ IH]; [reflexivity |].
  cbn [no_PA]. apply byte_eqb_neq in Hc. rewrite Hc.
  destruct s; [reflexivity | exact IH].
Qed.

Lemma no_PA_app a b : no_PA a = true -> no_PA b = true -> no_PA (a ++ b) = true.
Proof.
  intros Ha Hb. induction a as [| c a IH]; [exact Hb |].
  cbn [app no_PA] in *. destruct a as [| d a].
  - cbn [app]. apply negb_true_iff in Ha. rewrite Ha. cbn.
    destruct b; [reflexivity | exact Hb].
  - cbn [app] in *. apply andb_true_iff in Ha as [Hcd Ha].
    rewrite Hcd. cbn. apply IH. exact Ha.
Qed.

Lemma no_P_app a b : no_P a -> no_P b -> no_P (a ++ b).
Proof. intros Ha Hb. apply Forall_app. split; assumption. Qed.

Lemma uint_bytes_no_P d : no_P (uint_bytes d).
Proof.
  induction d; cbn; try (apply List.Forall_cons; [discriminate | assumption]).
  apply List.Forall_nil.
Qed.

Lemma itoa_no_P z : no_P (itoa z).
Proof.
  unfold itoa. destruct (Z.to_int z).
  - apply uint_bytes_no_P.
  - apply List.Forall_cons; [discriminate | apply uint_bytes_no_P].
Qed.

(** A replacement of a text that starts with "PA" leaves a prefix without
    "PA" as it is. *)
Lemma replace_from_no_PA old new pre s :
  no_PA pre = true ->
  replace_from ("P"%byte :: "A"%byte :: old) new (pre ++ s) 0 =
  pre ++ replace_from ("P"%byte :: "A"%byte :: old) new s 0.
Proof.
  intros Hpre. induction pre as [| c pre IH]; [reflexivity |].
  cbn [app replace_from has_prefix]. cbn [no_PA] in Hpre.
  destruct pre as [| d pre].
  - cbn [app] in *. apply negb_true_iff in Hpre.
    assert (Hc : Byte.eqb "P" c = false).
    { apply byte_eqb_neq. apply byte_eqb_neq in Hpre. congruence. }
    rewrite Hc. cbn [andb]. reflexivity.
  - cbn [app] in *. apply andb_true_iff in Hpre as [Hcd Hpre].
    assert (Hc : Byte.eqb "P" c && (Byte.eqb "A" d && has_prefix old (pre ++ s))
                 = false).
    { apply negb_true_iff in Hcd. apply andb_false_iff in Hcd as [Hc | Hd].
      - apply byte_eqb_neq in Hc.
        rewrite (proj2 (byte_eqb_neq "P" c)) by congruence. reflexivity.
      - apply byte_eqb_neq in Hd.
        rewrite (proj2 (byte_eqb_neq "A" d)) by congruence.
        apply andb_false_r. }
    cbn [has_prefix]. rewrite Hc. f_equal. apply IH. exact Hpre.
Qed.

Lemma resolve_one_no_PA pre s dest :
  no_PA pre = true -> resolve_one (pre ++ s) dest = pre ++ resolve_one s dest.
Proof.
  intros Hpre. destruct dest as [destPage destObjID].
  unfold resolve_one, ReplaceAll.
  change (B "PAGEOBJ_" ++ itoa destPage)
    with ("P"%byte :: "A"%byte :: (B "GEOBJ_" ++ itoa destPage)).
  apply replace_from_no_PA. exact Hpre.
Qed.

(** The second pass leaves a prefix without "PA" as it is. *)
Lemma resolve_placeholders_no_PA pageObjIDs pre s :
  no_PA pre = true ->
  resolve_placeholders pageObjIDs (pre ++ s) =
  pre ++ resolve_placeholders pageObjIDs s.
Proof.
  intros Hpre. unfold resolve_placeholders.
  generalize (enumerate pageObjIDs) as dests. intros dests. revert s.
  induction dests as [| dest dests IH]; intros s; [reflexivity |].
  cbn [foldl]. rewrite resolve_one_no_PA by exact Hpre. apply IH.
Qed.

Lemma resolve_chunk_returns ids c page others :
  objects c = page :: others ->
  resolve_chunk ids c =
  Returns {| objects :=
               {| id := id page;
                  data := resolve_placeholders ids (data page) |} :: others |}.
Proof. intros Hobjs. unfold resolve_chunk. rewrite Hobjs. reflexivity. Qed.

Lemma resolve_chunks_cons ids c cs r rs :
  resolve_chunk ids c = Returns r -> resolve_chunks ids cs = Returns rs ->
  resolve_chunks ids (c :: cs) = Returns (r :: rs).
Proof. intros Hc Hcs. cbn [resolve_chunks]. rewrite Hc, Hcs. reflexivity. Qed.

(** The second pass keeps the chunks, their objects and the object ids; it
    only rewrites the bytes of each page object. *)
Lemma resolve_chunks_spec ids chunks :
  Forall (fun c => objects c <> []) chunks ->
  exists resolved,
    resolve_chunks ids chunks = Returns resolved
    /\ Forall2 (fun c r =>
                  exists page others,
                    objects c = page :: others
                    /\ r = {| objects :=
                               {| id := id page;
                                  data := resolve_placeholders ids (data page) |}
                               :: others |})
               chunks resolved.
Proof.
  induction 1 as [| c chunks Hc _ (resolved & Hres & Hall)].
  - exists []. split; [reflexivity | constructor].
  - destruct (objects c) as [| page others] eqn:Hobjs; [congruence |].
    eexists (_ :: resolved). split.
    + apply resolve_chunks_cons; [| exact Hres].
      apply resolve_chunk_returns. exact Hobjs.
    + constructor; [| exact Hall]. exists page, others.
      split; [exact Hobjs | reflexivity].
Qed.

Section PlaceholderCollision.
Variable Path : Type.
Variable fmt2 fmt4 : float -> list byte.
Variable appendFloat4 : float -> list byte.
Variable appendPDFSubpathTree : Path -> float -> float -> float -> list byte.
Variable compressZlib : list byte -> option (list byte).

(** The verb [%.2f] prints digits, a sign, a point, or NaN and Inf: never
  the letter P. *)
Hypothesis fmt2_no_P : forall x, no_P (fmt2 x).

Local Abbreviation build :=
(build_note Path fmt2 fmt4 appendFloat4 appendPDFSubpathTree compressZlib
   1404 1872 300).

Local Abbreviation first_chunk dest :=
(buildVectorPageChunk fmt2 fmt4 appendFloat4 appendPDFSubpathTree
   compressZlib [] None 1404 1872 (f64 1404 / 300 * 72)%float
   (f64 1872 / 300 * 72)%float [first_link dest] 3 true).1.

Lemma first_page_head_no_PA : no_PA (first_page_head fmt2) = true.
Proof.
unfold first_page_head.
repeat (apply no_PA_app;
        [first [reflexivity | apply no_P_no_PA, fmt2_no_P] |]).
reflexivity.
Qed.

(** The page object of the first page as the first pass leaves it. *)
Lemma first_chunk_objects dest :
exists others,
  objects (first_chunk dest) =
  {| id := 3;
     data := first_page_head fmt2 ++ B "PAGEOBJ_" ++ itoa dest
             ++ first_page_tail |}
  :: others.
Proof.
eexists. unfold buildVectorPageChunk.
cbn [collect_gs foldl assign_gs_ids fst snd objects].
f_equal. f_equal.
unfold annots_of, annot_line, resources_of, first_link,
  first_page_head, first_page_tail.
cbn [concat map Rect DestPage].
rewrite <- !app_assoc. reflexivity.
Qed.

(** The second pass on a document of [pages] blank pages whose first page
  links to page [dest], given the object ids of the pages and what the
  replacements make of the link target. *)
Lemma first_page_resolved (pages : nat) (dest : Z) (ids : list Z)
  (target : list byte) :
let st0 := build [link_from_first_page dest]
             (replicate pages (blank_page Path)) in
pageObjIDs st0 = ids ->
(exists cs0, chunks st0 = first_chunk dest :: cs0
             /\ Forall (fun c => objects c <> []) cs0) ->
resolve_placeholders ids (B "PAGEOBJ_" ++ itoa dest ++ first_page_tail)
  = target ++ first_page_tail ->
exists (st : alloc_state) (page : pdfObject) (others : list pdfObject)
       (cs : list vectorPageChunk),
  resolve_note st0 = Returns st
  /\ pageObjIDs st = ids
  /\ chunks st = {| objects := page :: others |} :: cs
  /\ id page = 3
  /\ data page = first_page_head fmt2 ++ target ++ first_page_tail.
Proof.
intros st0 Hids (cs0 & Hcs0 & Hne) Htarget.
destruct (resolve_chunks_spec ids cs0 Hne) as (rs & Hrs & _).
destruct (first_chunk_objects dest) as [others0 Hobjs0].
pose proof (resolve_chunk_returns ids _ _ _ Hobjs0) as Hr.
cbn [id data] in Hr.
rewrite resolve_placeholders_no_PA in Hr by apply first_page_head_no_PA.
rewrite Htarget in Hr.
pose proof (resolve_chunks_cons _ _ _ _ _ Hr Hrs) as Hres.
rewrite <- Hcs0, <- Hids in Hres.
exists {| nextObjID := nextObjID st0; pageObjIDs := pageObjIDs st0;
          chunks := {| objects :=
                         {| id := 3;
                            data := first_page_head fmt2 ++ target
                                    ++ first_page_tail |} :: others0 |}
                    :: rs |},
       {| id := 3;
          data := first_page_head fmt2 ++ target ++ first_page_tail |},
       others0, rs.
split; [| split; [| split; [| split]]].
- unfold resolve_note. rewrite Hres. reflexivity.
- exact Hids.
- reflexivity.
- reflexivity.
- reflexivity.
Qed.

Ltac run_first_pass :=
cbv zeta;
lazymatch goal with
| |- exists _, _ = _ /\ Forall _ _ =>
    eexists; split;
    [vm_compute; reflexivity
    | repeat (apply List.Forall_cons; [intros H; discriminate H |]);
      apply List.Forall_nil]
| |- _ = _ => vm_compute; reflexivity
end.

(** The example of two pages whose first page links to the second: the
  pages are the objects 3 and 6, and the link becomes the reference
  "6 0 R". *)
Lemma link_to_second_page_resolved :
exists (st : alloc_state) (page : pdfObject) (others : list pdfObject)
       (cs : list vectorPageChunk),
  resolve_note
    (build [link_from_first_page 1] (replicate 2 (blank_page Path)))
  = Returns st
  /\ pageObjIDs st = [3; 6]
  /\ chunks st = {| objects := page :: others |} :: cs
  /\ id page = 3
  /\ data page = first_page_head fmt2 ++ B "6 0 R" ++ first_page_tail.
Proof.
apply (first_page_resolved 2 1 [3; 6] (B "6 0 R")); run_first_pass.
Qed.

(** C1, on a document of 13 blank pages whose first page links to the last
  page. The pages get the object ids 3, 6, ..., 39, so the link should
  become the reference to object 39. The second pass replaces the
  placeholder of page 1 before that of page 12, and "PAGEOBJ_1" is the
  beginning of "PAGEOBJ_12": the link ends up as the reference to the
  object of page 1 followed by a stray digit, "6 0 R2". *)
Theorem placeholder_of_page_12_hit_by_page_1 :
exists (st : alloc_state) (page : pdfObject) (others : list pdfObject)
       (cs : list vectorPageChunk),
  resolve_note
    (build [link_from_first_page 12] (replicate 13 (blank_page Path)))
  = Returns st
  /\ pageObjIDs st = [3; 6; 9; 12; 15; 18; 21; 24; 27; 30; 33; 36; 39]
  /\ chunks st = {| objects := page :: others |} :: cs
  /\ id page = 3
  /\ data page = first_page_head fmt2 ++ B "6 0 R2" ++ first_page_tail
  /\ data page <> first_page_head fmt2 ++ B "39 0 R" ++ first_page_tail.
Proof.
destruct (first_page_resolved 13 12
            [3; 6; 9; 12; 15; 18; 21; 24; 27; 30; 33; 36; 39] (B "6 0 R2"))
  as (st & page & others & cs & Hres & Hids & Hchunks & Hid & Hdata);
  try run_first_pass.
exists st, page, others, cs. repeat (split; [assumption |]).
rewrite Hdata. intros Heq.
apply app_inv_head in Heq. vm_compute in Heq. discriminate Heq.
Qed.
End PlaceholderCollision.

Lemma placeholder_of_page_12_hit_by_page_1_witness :
  exists (st : alloc_state) (page : pdfObject) (others : list pdfObject)
         (cs : list vectorPageChunk),
    resolve_note
      (build_note Empty_set print_zero print_zero print_zero no_paths store_raw
         1404 1872 300 [link_from_first_page 12]
         (replicate 13 (blank_page Empty_set)))
    = Returns st
    /\ pageObjIDs st = [3; 6; 9; 12; 15; 18; 21; 24; 27; 30; 33; 36; 39]
    /\ chunks st = {| objects := page :: others |} :: cs
    /\ id page = 3
    /\ data page = first_page_head print_zero ++ B "6 0 R2" ++ first_page_tail
    /\ data page <> first_page_head print_zero ++ B "39 0 R" ++ first_page_tail.
Proof.
  apply (placeholder_of_page_12_hit_by_page_1 Empty_set print_zero print_zero
           print_zero no_paths store_raw).
  intros x. unfold print_zero, no_P. cbn.
  repeat (apply List.Forall_cons; [discriminate |]). apply List.Forall_nil.
Defined.

(** ** The writer *)

Lemma uint64_wrap_idemp_add a b :
  uint64_wrap (uint64_wrap a + b) = uint64_wrap (a + b).
Proof. unfold uint64_wrap. apply Zplus_mod_idemp_l. Qed.

Lemma uint64_wrap_small z : 0 <= z < 2 ^ 64 -> uint64_wrap z = z.
Proof. intros H. unfold uint64_wrap. apply Z.mod_small. exact H. Qed.

Lemma pw_write_written bytes more :
  pw_write (written bytes) more = written (bytes ++ more).
Proof.
  unfold pw_write, written. cbn [w offset]. f_equal.
  rewrite uint64_wrap_idemp_add, len_app. reflexivity.
Qed.

Lemma store_offset_next (done rest : list Z) off :
  store_offset (done ++ 0 :: rest) (len done) off = Returns (done ++ off :: rest).
Proof.
  unfold store_offset. rewrite len_app.
  pose proof (len_nonneg done). pose proof (len_nonneg rest).
  replace (len (0 :: rest)) with (1 + len rest) by (unfold len; cbn; lia).
  destruct (Z.leb_spec 0 (len done)); [| lia].
  destruct (Z.ltb_spec (len done) (len done + (1 + len rest))); [| lia].
  cbn [andb]. f_equal. unfold len. rewrite Nat2Z.id.
  rewrite insert_app_r_alt by lia. rewrite Nat.sub_diag. reflexivity.
Qed.

(** vector.go 661-666 on objects whose ids continue the ids already
    recorded: each offset lands in the next free slot. *)
Lemma write_objects_consecutive objs : forall bytes done rest,
  map id objs = seqZ (len done + 1) (len objs) ->
  foldl write_object
    (Returns (written bytes, done ++ replicate (length objs) 0 ++ rest)) objs =
  Returns (written (bytes ++ concat (map data objs)),
           done ++ object_offsets (uint64_wrap (len bytes)) (map data objs)
           ++ rest).
Proof.
  induction objs as [| obj objs IH]; intros bytes done rest Hids.
  - cbn. rewrite app_nil_r. reflexivity.
  - cbn [length replicate app foldl map concat object_offsets].
    replace (len (obj :: objs)) with (Z.succ (len objs)) in Hids
      by (unfold len; cbn [length]; lia).
    rewrite seqZ_cons in Hids by (pose proof (len_nonneg objs); lia).
    cbn [map] in Hids. injection Hids as Hid Hids.
    rewrite Z.pred_succ in Hids.
    unfold write_object at 2. cbn [exec_bind fst snd].
    replace (id obj - 1) with (len done) by lia.
    rewrite store_offset_next. cbn [exec_bind]. rewrite pw_write_written.
    change (offset (written bytes)) with (uint64_wrap (len bytes)).
    rewrite (cons_middle (uint64_wrap (len bytes)) done), app_assoc.
    rewrite IH.
    + rewrite <- !app_assoc. cbn [app]. rewrite uint64_wrap_idemp_add, len_app.
      reflexivity.
    + rewrite len_app. replace (len [uint64_wrap (len bytes)]) with 1 by reflexivity.
      rewrite Hids. f_equal; try lia.
Qed.

Lemma write_chunks_flat chunks : forall acc,
  foldl (fun acc chunk => foldl write_object acc (objects chunk)) acc chunks =
  foldl write_object acc (concat (map objects chunks)).
Proof.
  induction chunks as [| c chunks IH]; intros acc; [reflexivity |].
  cbn [foldl map concat]. rewrite foldl_app. apply IH.
Qed.

Lemma write_xref_entries offsets : forall pw,
  w (foldl write_xref_entry pw offsets) = w pw ++ concat (map xref_entry offsets).
Proof.
  induction offsets as [| off offsets IH]; intros pw.
  - cbn. rewrite app_nil_r. reflexivity.
  - cbn [foldl map concat]. rewrite IH. cbn [write_xref_entry w].
    unfold xref_entry. rewrite <- !app_assoc. reflexivity.
Qed.

(** vector.go 497-511 *)
Lemma writeXrefTrailer_bytes pw offsets totalObjects :
  w (writeXrefTrailer pw offsets totalObjects) =
  w pw ++ xref_section offsets totalObjects (offset pw).
Proof.
  unfold writeXrefTrailer, xref_section. cbn [pw_write w].
  rewrite write_xref_entries. cbn [pw_write w].
  rewrite <- !app_assoc. reflexivity.
Qed.

(** The serialisation of a document whose chunk objects carry the ids 3,
    4, 5, ... in the order in which they are written: the objects follow
    the header, the recorded offsets are the offsets at which they were
    written, and the cross-reference section comes last. *)
Lemma write_document_bytes pageObjIDs chunks nextObjID :
  let objs := concat (map objects chunks) in
  let datas := catalog_object :: pages_object pageObjIDs :: map data objs in
  map id objs = seqZ 3 (len objs) -> nextObjID = 3 + len objs ->
  write_document pageObjIDs chunks nextObjID =
  Returns ((pdf_header ++ concat datas)
           ++ xref_section (object_offsets (uint64_wrap (len pdf_header)) datas)
                (len datas) (uint64_wrap (len (pdf_header ++ concat datas)))).
Proof.
  intros objs datas Hids Hnext. unfold write_document.
  replace (Z.to_nat (nextObjID - 1)) with (S (S (length objs)))
    by (unfold len in Hnext; lia).
  cbn [replicate].
  change {| w := []; offset := 0 |} with (written []).
  unfold writeHeader. rewrite pw_write_written. cbn [app].
  pose proof (store_offset_next [] (0 :: replicate (length objs) 0)
                (offset (written pdf_header))) as H1.
  change (len []) with 0 in H1. cbn [app] in H1. rewrite H1. clear H1.
  cbn [exec_bind]. rewrite pw_write_written.
  pose proof (store_offset_next [offset (written pdf_header)]
                (replicate (length objs) 0)
                (offset (written (pdf_header ++ catalog_object)))) as H2.
  change (len [offset (written pdf_header)]) with 1 in H2.
  cbn [app] in H2. rewrite H2. clear H2.
  cbn [exec_bind]. rewrite pw_write_written.
  rewrite write_chunks_flat. fold objs.
  pose proof (write_objects_consecutive objs
                ((pdf_header ++ catalog_object) ++ pages_object pageObjIDs)
                [offset (written pdf_header);
                 offset (written (pdf_header ++ catalog_object))] []) as Hw.
  rewrite !app_nil_r in Hw. cbn [app] in Hw. rewrite Hw by exact Hids.
  cbn [exec_bind fst snd].
  rewrite writeXrefTrailer_bytes. cbn [w offset written].
  assert (Hbytes : ((pdf_header ++ catalog_object) ++ pages_object pageObjIDs)
                   ++ concat (map data objs) = pdf_header ++ concat datas).
  { subst datas. cbn [concat]. rewrite <- !app_assoc. reflexivity. }
  assert (Htotal : nextObjID - 1 = len datas).
  { subst datas. unfold len in *. cbn [length]. rewrite length_map. lia. }
  assert (Hoffs : uint64_wrap (len pdf_header)
                  :: uint64_wrap (len (pdf_header ++ catalog_object))
                  :: object_offsets
                       (uint64_wrap
                          (len ((pdf_header ++ catalog_object)
                                ++ pages_object pageObjIDs)))
                       (map data objs)
                  = object_offsets (uint64_wrap (len pdf_header)) datas).
  { subst datas. cbn [object_offsets].
    rewrite !uint64_wrap_idemp_add, <- !len_app. reflexivity. }
  rewrite Hbytes, Htotal, Hoffs. reflexivity.
Qed.

(** ** The objects of a page *)

Section ChunkFacts.
Variable Path : Type.
Variable fmt2 fmt4 : float -> list byte.
Variable appendFloat4 : float -> list byte.
Variable appendPDFSubpathTree : Path -> float -> float -> float -> list byte.
Variable compressZlib : list byte -> option (list byte).

(** Each alpha gets one graphics state: the map tells which alphas have
    been seen. *)
Lemma collect_gs_invariant (layers : list (colorLayer Path)) :
  forall entries (gsMap : gmap byte (list byte)),
    NoDup (map gs_alpha entries) ->
    (forall a, is_Some (gsMap !! a) <-> In a (map gs_alpha entries)) ->
    NoDup (map gs_alpha
             (foldl (fun '(gsEntries, gsMap) cl =>
                       if u8 (cl_alpha cl) <? 255 then
                         match gsMap !! cl_alpha cl with
                         | Some _ => (gsEntries, gsMap)
                         | None =>
                             let name := B "/GS" ++ itoa (len gsEntries + 1) in
                             (gsEntries ++ [{| gs_name := name;
                                               gs_alpha := cl_alpha cl |}],
                              <[cl_alpha cl := name]> gsMap)
                         end
                       else (gsEntries, gsMap))
                    (entries, gsMap) layers).1).
Proof.
  induction layers as [| cl layers IH]; intros entries gsMap Hnd Hdom.
  - exact Hnd.
  - cbn [foldl]. destruct (u8 (cl_alpha cl) <? 255); [| apply IH; assumption].
    destruct (gsMap !! cl_alpha cl) as [name |] eqn:Hlook;
      [apply IH; assumption |].
    apply IH.
    + rewrite map_app. cbn [map gs_alpha].
      apply NoDup_app. split; [exact Hnd |]. split.
      * intros a Ha Hin. apply list_elem_of_In in Ha.
        apply list_elem_of_singleton in Hin. subst a.
        apply Hdom in Ha. rewrite Hlook in Ha. destruct Ha as [? Ha].
        discriminate Ha.
      * apply NoDup_singleton.
    + intros a. rewrite map_app, in_app_iff. cbn [map gs_alpha In].
      destruct (decide (cl_alpha cl = a)) as [-> | Hne].
      * rewrite lookup_insert_eq. split; [intros _; right; left; reflexivity |].
        intros _. eexists. reflexivity.
      * rewrite lookup_insert_ne by exact Hne. rewrite Hdom.
        split; [intros H; left; exact H |].
        intros [H | [H | []]]; [exact H | congruence].
Qed.

Lemma collect_gs_NoDup (layers : list (colorLayer Path)) :
  NoDup (map gs_alpha (collect_gs layers).1).
Proof.
  unfold collect_gs. apply collect_gs_invariant.
  - constructor.
  - intros a. rewrite lookup_empty. cbn. split; [intros [? H]; discriminate H | tauto].
Qed.

(** The graphics states get the ids that follow the contents object. *)
Lemma assign_gs_ids_invariant objStart entries :
  forall (ids : gmap byte Z) (n : Z),
    NoDup (map gs_alpha entries) ->
    let result :=
      foldl (fun '(gsObjIDs, numObjects) gs =>
               (<[gs_alpha gs := objStart + numObjects]> gsObjIDs,
                numObjects + 1))
            (ids, n) entries in
    result.2 = n + len entries
    /\ (forall (k : nat) gs,
          entries !! k = Some gs ->
          result.1 !! gs_alpha gs = Some (objStart + n + Z.of_nat k))
    /\ (forall a, ~ In a (map gs_alpha entries) -> result.1 !! a = ids !! a).
Proof.
  induction entries as [| gs entries IH]; intros ids n Hnd.
  - cbn. split; [unfold len; cbn; lia |]. split; [| reflexivity].
    intros k gs H. discriminate H.
  - cbn [foldl map] in *. apply NoDup_cons in Hnd as [Hnotin Hnd].
    specialize (IH (<[gs_alpha gs := objStart + n]> ids) (n + 1) Hnd).
    cbn zeta in IH. destruct IH as (Hcount & Hlook & Hother).
    split; [| split].
    + rewrite Hcount. unfold len. cbn [length]. lia.
    + intros [| k] gs' Hk.
      * injection Hk as <-. rewrite Hother.
        -- rewrite lookup_insert_eq. f_equal. lia.
        -- intros Hin. apply Hnotin. apply list_elem_of_In. exact Hin.
      * cbn in Hk. rewrite (Hlook k gs' Hk). f_equal. lia.
    + intros a Ha. cbn [In] in Ha. rewrite Hother by tauto.
      apply lookup_insert_ne. intros Heq. apply Ha. left. exact Heq.
Qed.

Lemma gs_object_ids (ids : gmap byte Z) entries : forall base,
  (forall (k : nat) gs,
     entries !! k = Some gs ->
     ids !! gs_alpha gs = Some (base + Z.of_nat k)) ->
  map id (map (gs_object fmt4 ids) entries) = seqZ base (len entries).
Proof.
  induction entries as [| gs entries IH]; intros base Hlook.
  - reflexivity.
  - replace (len (gs :: entries)) with (Z.succ (len entries))
      by (unfold len; cbn [length]; lia).
    rewrite seqZ_cons by (pose proof (len_nonneg entries); lia).
    rewrite Z.pred_succ. cbn [map]. f_equal.
    + unfold gs_object. cbn [id]. rewrite (Hlook 0%nat gs eq_refl).
      cbn. lia.
    + apply IH. intros k gs' Hk. rewrite (Hlook (S k) gs' Hk). f_equal. lia.
Qed.

Lemma gs_object_starts (ids : gmap byte Z) entries :
  Forall (fun o => starts_object (id o) (data o))
         (map (gs_object fmt4 ids) entries).
Proof.
  apply Forall_map. apply Forall_forall. intros gs _.
  unfold gs_object, starts_object. cbn [id data]. eexists. reflexivity.
Qed.

Lemma seqZ_two_more base n :
  0 <= n ->
  seqZ base (2 + n) = base :: (base + 1) :: seqZ (base + 2) n.
Proof.
  intros Hn. rewrite seqZ_cons by lia. f_equal.
  rewrite seqZ_cons by lia. f_equal. f_equal; lia.
Qed.

(** vector.go 332-346 and 385-420: a chunk holds the page object, the
    contents object, the graphics states and the image, with consecutive
    ids from [objStart] on; the count returned is their number; and the
    bytes of each object begin with its own id. *)
Lemma chunk_structure layers bg width height pw ph links objStart ocr :
  let result :=
    buildVectorPageChunk fmt2 fmt4 appendFloat4 appendPDFSubpathTree
      compressZlib layers bg width height pw ph links objStart ocr in
  result.2 = len (objects result.1)
  /\ map id (objects result.1) = seqZ objStart result.2
  /\ Forall (fun o => starts_object (id o) (data o)) (objects result.1)
  /\ exists page others, objects result.1 = page :: others.
Proof.
  unfold buildVectorPageChunk.
  pose proof (collect_gs_NoDup layers) as Hnd.
  destruct (collect_gs layers) as [entries gsMap]. cbn [fst] in Hnd.
  pose proof (assign_gs_ids_invariant objStart entries ∅ 2 Hnd) as Hgs.
  cbn zeta in Hgs. fold (assign_gs_ids objStart entries) in Hgs.
  destruct (assign_gs_ids objStart entries) as [ids n].
  cbn [fst snd] in Hgs. destruct Hgs as (Hn & Hlook & _).
  pose proof (len_nonneg entries) as Hlen.
  assert (Hgsids : map id (map (gs_object fmt4 ids) entries)
                   = seqZ (objStart + 2) (len entries)).
  { apply gs_object_ids. intros k gs Hk. rewrite (Hlook k gs Hk).
    f_equal; try lia. }
  pose proof (gs_object_starts ids entries) as Hgsstart.
  assert (Hcase :
    forall (img : list pdfObject) (total imgId : Z),
      (img = [] /\ total = n
       \/ exists d, img = [{| id := objStart + n; data := d |}]
                    /\ starts_object (objStart + n) d /\ total = n + 1) ->
      forall pageData contentsData,
        starts_object objStart pageData ->
        starts_object (objStart + 1) contentsData ->
        let objs :=
          [ {| id := objStart; data := pageData |};
            {| id := objStart + 1; data := contentsData |} ]
          ++ map (gs_object fmt4 ids) entries ++ img in
        total = len objs
        /\ map id objs = seqZ objStart total
        /\ Forall (fun o => starts_object (id o) (data o)) objs
        /\ exists page others, objs = page :: others).
  { intros img total imgId Himg pageData contentsData Hp Hc objs.
    subst objs. cbn [app].
    destruct Himg as [[-> ->] | (d & -> & Hd & ->)].
    - rewrite app_nil_r. split; [| split; [| split]].
      + unfold len. cbn [length]. rewrite length_map. unfold len in Hn. lia.
      + cbn [map]. rewrite Hgsids, Hn, seqZ_two_more by lia. reflexivity.
      + repeat (apply List.Forall_cons; [assumption |]). exact Hgsstart.
      + eauto.
    - split; [| split; [| split]].
      + unfold len. cbn [length]. rewrite length_app, length_map.
        unfold len in Hn. cbn [length]. lia.
      + cbn [map]. rewrite map_app, Hgsids. cbn [map id].
        replace (n + 1) with (2 + (len entries + 1)) by lia.
        rewrite seqZ_two_more by lia. do 2 f_equal.
        rewrite seqZ_app by lia. f_equal.
        rewrite seqZ_cons by lia. rewrite seqZ_nil by lia.
        f_equal. lia.
      + repeat (apply List.Forall_cons; [assumption |]).
        apply Forall_app. split; [exact Hgsstart |].
        apply List.Forall_cons; [exact Hd | apply List.Forall_nil].
      + eauto. }
  assert (Himage : forall imageObjID bgWidth bgHeight raw,
             starts_object imageObjID
               (data (image_object compressZlib imageObjID bgWidth bgHeight raw))).
  { intros. unfold image_object, starts_object. cbn [data]. eexists.
    reflexivity. }
  destruct bg as [raw |]; [| destruct ocr]; cbn zeta; cbn [fst snd].
  - apply (Hcase _ _ 0).
    + right. eexists. split; [reflexivity |]. split; [apply Himage | reflexivity].
    + eexists. reflexivity.
    + eexists. reflexivity.
  - apply (Hcase _ _ 0).
    + right. eexists. split; [reflexivity |]. split; [apply Himage | reflexivity].
    + eexists. reflexivity.
    + eexists. reflexivity.
  - apply (Hcase _ _ 0).
    + left. split; reflexivity.
    + eexists. reflexivity.
    + eexists. reflexivity.
Qed.
End ChunkFacts.

(** ** The object ids of a document *)

Section AssembleFacts.
Variable Path : Type.
Variable fmt2 fmt4 : float -> list byte.
Variable appendFloat4 : float -> list byte.
Variable appendPDFSubpathTree : Path -> float -> float -> float -> list byte.
Variable compressZlib : list byte -> option (list byte).

Local Abbreviation build_page' :=
  (build_page Path fmt2 fmt4 appendFloat4 appendPDFSubpathTree compressZlib).

Lemma build_page_ids width height pw ph pageLinks st ir :
  ids_allocated (nextObjID st) (chunks st) ->
  let st' := build_page' width height pw ph pageLinks st ir in
  ids_allocated (nextObjID st') (chunks st')
  /\ pageObjIDs st' = pageObjIDs st ++ [nextObjID st].
Proof.
  intros (Hnext & Hids & Hstart & Hne). destruct ir as [i r].
  unfold build_page.
  pose proof (chunk_structure Path fmt2 fmt4 appendFloat4 appendPDFSubpathTree
                compressZlib (colorLayers r) (bgRGB r) width height pw ph
                (default [] (pageLinks !! Z.of_nat i)) (nextObjID st) true)
    as Hchunk.
  cbn zeta in Hchunk.
  destruct (buildVectorPageChunk _ _ _ _ _ _ _ _ _ _ _ _ _ _)
    as [chunk numObjs].
  cbn [fst snd] in Hchunk.
  destruct Hchunk as (Hnum & Hcids & Hcstart & page & others & Hobjs).
  cbn zeta. cbn [nextObjID pageObjIDs chunks]. split; [| reflexivity].
  unfold ids_allocated. cbn zeta.
  rewrite map_app, concat_app. cbn [map concat]. rewrite app_nil_r.
  rewrite len_app, map_app.
  pose proof (len_nonneg (concat (map objects (chunks st)))).
  pose proof (len_nonneg (objects chunk)).
  split; [lia |]. split; [| split].
  - rewrite Hids, Hcids, Hnum, Hnext. rewrite seqZ_app by lia. reflexivity.
  - apply Forall_app. split; assumption.
  - apply Forall_app. split; [exact Hne |].
    apply List.Forall_cons; [| apply List.Forall_nil]. rewrite Hobjs.
    discriminate.
Qed.

Lemma build_pages_ids width height pw ph pageLinks irs : forall st,
  ids_allocated (nextObjID st) (chunks st) ->
  let st' := foldl (build_page' width height pw ph pageLinks) st irs in
  ids_allocated (nextObjID st') (chunks st').
Proof.
  induction irs as [| ir irs IH]; intros st Hst; [exact Hst |].
  cbn [foldl]. apply IH.
  apply (build_page_ids width height pw ph pageLinks st ir Hst).
Qed.

Lemma build_note_ids width height ppi links results :
  let st := build_note Path fmt2 fmt4 appendFloat4 appendPDFSubpathTree
              compressZlib width height ppi links results in
  ids_allocated (nextObjID st) (chunks st).
Proof.
  unfold build_note, build_pages. apply build_pages_ids.
  unfold ids_allocated. cbn. repeat split; constructor.
Qed.
End AssembleFacts.

(** The second pass keeps the beginning of an object. *)
Lemma resolve_keeps_start ids i bytes :
  starts_object i bytes -> starts_object i (resolve_placeholders ids bytes).
Proof.
  intros [rest ->]. exists (resolve_placeholders ids rest).
  rewrite !app_assoc. rewrite resolve_placeholders_no_PA.
  - reflexivity.
  - apply no_P_no_PA. repeat apply no_P_app.
    + apply itoa_no_P.
    + unfold no_P. cbn. repeat (apply List.Forall_cons; [discriminate |]).
      apply List.Forall_nil.
    + apply List.Forall_cons; [discriminate | apply List.Forall_nil].
Qed.

Lemma resolved_ids_allocated ids next chunks resolved :
  ids_allocated next chunks ->
  Forall2 (fun c r =>
             exists page others,
               objects c = page :: others
               /\ r = {| objects :=
                          {| id := id page;
                             data := resolve_placeholders ids (data page) |}
                          :: others |})
          chunks resolved ->
  ids_allocated next resolved.
Proof.
  unfold ids_allocated. cbn zeta. intros (Hnext & Hids & Hstart & Hne) Hall.
  assert (Hsame : map id (concat (map objects resolved))
                  = map id (concat (map objects chunks))
                  /\ Forall (fun c => objects c <> []) resolved
                  /\ (Forall (fun o => starts_object (id o) (data o))
                        (concat (map objects chunks)) ->
                      Forall (fun o => starts_object (id o) (data o))
                        (concat (map objects resolved)))).
  { clear Hnext Hids Hstart Hne.
    induction Hall as [| c r cs rs (page & others & Hobjs & ->) _ IH].
    - repeat split; [constructor | tauto].
    - destruct IH as (IHids & IHne & IHstart).
      cbn [map concat objects]. rewrite Hobjs, !map_app. cbn [map id].
      rewrite IHids. split; [reflexivity |]. split.
      + apply List.Forall_cons; [discriminate | exact IHne].
      + intros Hs. apply Forall_app in Hs as [Hs1 Hs2].
        apply Forall_app. split; [| apply IHstart; exact Hs2].
        apply Forall_cons in Hs1 as [Hpage Hothers].
        apply List.Forall_cons; [| exact Hothers].
        cbn [id data]. apply resolve_keeps_start. exact Hpage. }
  destruct Hsame as (Hsids & Hsne & Hsstart).
  assert (Hlen : len (concat (map objects resolved))
                 = len (concat (map objects chunks))).
  { unfold len. f_equal.
    rewrite <- (length_map id (concat (map objects resolved))), Hsids.
    apply length_map. }
  rewrite Hlen, Hsids. auto.
Qed.

(** ** The cross-reference table *)

(** As long as no offset reaches 2^64 the recorded offsets are the true
    ones. *)
Lemma object_offsets_exact datas : forall start,
  0 <= start -> start + len (concat datas) < 2 ^ 64 ->
  object_offsets start datas =
  map (fun k => start + len (concat (take k datas))) (seq 0 (length datas)).
Proof.
  induction datas as [| d datas IH]; intros start Hstart Hsize; [reflexivity |].
  cbn [object_offsets length seq map concat take].
  cbn [concat] in Hsize. rewrite len_app in Hsize.
  pose proof (len_nonneg d). pose proof (len_nonneg (concat datas)).
  f_equal; [unfold len; cbn; lia |].
  rewrite uint64_wrap_small by lia. rewrite IH by lia.
  rewrite <- seq_shift, map_map. apply map_ext. intros k.
  cbn [take concat]. rewrite len_app. lia.
Qed.

Lemma object_at_offset (pre : list byte) objs post k d :
  objs !! k = Some d ->
  take (length d)
       (drop (Z.to_nat (len (pre ++ concat (take k objs))))
             ((pre ++ concat objs) ++ post)) = d.
Proof.
  intros Hk. unfold len. rewrite Nat2Z.id.
  rewrite <- (take_drop_middle objs k d Hk) at 2.
  rewrite concat_app. cbn [concat].
  replace ((pre ++ concat (take k objs) ++ d ++ concat (drop (S k) objs)) ++ post)
    with ((pre ++ concat (take k objs))
          ++ d ++ concat (drop (S k) objs) ++ post)
    by (rewrite <- !app_assoc; reflexivity).
  rewrite drop_app_length, take_app_length. reflexivity.
Qed.

Lemma Returns_inj {A} (a b : A) : Returns a = Returns b -> a = b.
Proof. intros H. congruence. Qed.

Lemma writeOnePageVectorPDF_as_document chunk :
  writeOnePageVectorPDF chunk =
  write_document [3] [chunk] (3 + len (objects chunk)).
Proof.
  unfold writeOnePageVectorPDF, write_document.
  replace (3 + len (objects chunk) - 1) with (2 + len (objects chunk)) by lia.
  reflexivity.
Qed.

(** A document whose chunk objects carry the ids 3, 4, 5, ... in the order
    in which they are written, each beginning with its id, is written with
    a cross-reference section that tells the truth, as long as the file is
    shorter than 2^64 bytes, the width of the offset counter. *)
Lemma write_document_layout pageObjIDs chunks nextObjID :
  let objs := concat (map objects chunks) in
  map id objs = seqZ 3 (len objs) -> nextObjID = 3 + len objs ->
  Forall (fun o => starts_object (id o) (data o)) objs ->
  exists out,
    write_document pageObjIDs chunks nextObjID = Returns out
    /\ (len out < 2 ^ 64 -> xref_layout out).
Proof.
  intros objs Hids Hnext Hstart.
  rewrite (write_document_bytes pageObjIDs chunks nextObjID Hids Hnext).
  fold objs.
  set (datas := catalog_object :: pages_object pageObjIDs :: map data objs).
  eexists. split; [reflexivity |]. intros Hsize. exists datas.
  assert (Hbody : len (pdf_header ++ concat datas) < 2 ^ 64).
  { rewrite len_app in Hsize.
    pose proof (len_nonneg (xref_section
                  (object_offsets (uint64_wrap (len pdf_header)) datas)
                  (len datas)
                  (uint64_wrap (len (pdf_header ++ concat datas))))). lia. }
  assert (Hoffs : object_offsets (uint64_wrap (len pdf_header)) datas
                  = map (offset_of datas) (seq 0 (length datas))).
  { rewrite (uint64_wrap_small (len pdf_header))
      by (split; [apply len_nonneg | reflexivity]).
    rewrite len_app in Hbody. rewrite object_offsets_exact.
    - apply map_ext. intros k. unfold offset_of. rewrite len_app. reflexivity.
    - apply len_nonneg.
    - exact Hbody. }
  rewrite Hoffs, (uint64_wrap_small (len (pdf_header ++ concat datas)))
    by (split; [apply len_nonneg | exact Hbody]).
  split; [reflexivity |]. split; [reflexivity |].
  intros k d Hk. split.
  - destruct k as [| [| k]].
    + injection Hk as <-. eexists. reflexivity.
    + injection Hk as <-. eexists. reflexivity.
    + subst datas. cbn [lookup list_lookup] in Hk.
      change (map data objs !! k = Some d) in Hk.
      rewrite list_lookup_fmap in Hk.
      destruct (objs !! k) as [o |] eqn:Ho; [| discriminate Hk].
      injection Hk as <-.
      assert (Hid : id o = 3 + Z.of_nat k).
      { assert (Hm : map id objs !! k = Some (id o))
          by (rewrite list_lookup_fmap, Ho; reflexivity).
        rewrite Hids in Hm. apply lookup_seqZ in Hm. lia. }
      replace (Z.of_nat (S (S k)) + 1) with (id o) by lia.
      rewrite Forall_forall in Hstart. apply Hstart.
      apply list_elem_of_lookup_2 in Ho. exact Ho.
  - unfold offset_of. apply object_at_offset. exact Hk.
Qed.

Section CrossReference.
Variable Path : Type.
Variable fmt2 fmt4 : float -> list byte.
Variable appendFloat4 : float -> list byte.
Variable appendPDFSubpathTree : Path -> float -> float -> float -> list byte.
Variable compressZlib : list byte -> option (list byte).

Local Abbreviation assemble :=
  (assemble_note Path fmt2 fmt4 appendFloat4 appendPDFSubpathTree
     compressZlib).

Local Abbreviation overlay :=
  (overlay_document Path fmt2 fmt4 appendFloat4 appendPDFSubpathTree
     compressZlib).

Lemma assemble_note_layout width height ppi links results :
  exists out,
    assemble width height ppi links results = Returns out
    /\ (len out < 2 ^ 64 -> xref_layout out).
Proof.
  unfold assemble_note.
  pose proof (build_note_ids Path fmt2 fmt4 appendFloat4 appendPDFSubpathTree
                compressZlib width height ppi links results) as Hbuilt.
  cbn zeta in Hbuilt.
  set (st := build_note Path fmt2 fmt4 appendFloat4 appendPDFSubpathTree
               compressZlib width height ppi links results) in *.
  destruct (resolve_chunks_spec (pageObjIDs st) (chunks st))
    as (resolved & Hres & Hall).
  { destruct Hbuilt as (_ & _ & _ & Hne). exact Hne. }
  pose proof (resolved_ids_allocated _ _ _ _ Hbuilt Hall)
    as (Hnext & Hids & Hstart & _).
  unfold resolve_note. rewrite Hres.
  cbn [exec_bind nextObjID pageObjIDs chunks].
  apply write_document_layout; assumption.
Qed.

Lemma overlay_document_layout p paths width height pw ph :
  exists out,
    overlay p paths width height pw ph = Returns out
    /\ (len out < 2 ^ 64 -> xref_layout out).
Proof.
  unfold overlay_document.
  destruct (color_at (Colors p) 0) as [[r g] b].
  match goal with
  | |- context [buildVectorPageChunk _ _ _ _ _ ?layers _ _ _ _ _ _ _ _] =>
      pose proof (chunk_structure Path fmt2 fmt4 appendFloat4
                    appendPDFSubpathTree compressZlib layers None
                    width height pw ph [] 3 false)
        as (Hcount & Hids & Hstart & _)
  end.
  cbn zeta in Hcount, Hids, Hstart.
  destruct (buildVectorPageChunk _ _ _ _ _ _ _ _ _ _ _ _ _ _)
    as [chunk numObjs].
  cbn [fst snd] in Hcount, Hids, Hstart. subst numObjs.
  rewrite writeOnePageVectorPDF_as_document.
  apply write_document_layout; cbn [map concat]; rewrite ?app_nil_r;
    [exact Hids | reflexivity | exact Hstart].
Qed.

End CrossReference.


(** * Properties of the rest of the conversion core *)

(** ** The runs handed to a sink *)

Lemma runs_ascending_snoc log r :
  runs_ascending log ->
  Forall (fun r0 => run_pos r0 + run_len r0 <= run_pos r) log ->
  runs_ascending (log ++ [r]).
Proof.
  induction log as [| r0 log IH]; intros Hasc Hend.
  - cbn. split; [constructor | exact I].
  - cbn in Hasc |- *. destruct Hasc as [Hrest Hasc].
    apply List.Forall_cons_iff in Hend as [Hr0 Hend].
    split; [| apply IH; assumption].
    apply Forall_app. split; [exact Hrest |]. constructor; [exact Hr0 | constructor].
Qed.

Lemma finish_run_chained expected c length pos st log :
  0 <= pos <= expected -> expected <= 2 ^ 62 -> 0 <= length <= 2 ^ 15 ->
  Forall (run_in_raster expected) log -> runs_ascending log ->
  Forall (fun r => run_pos r + run_len r <= pos) log ->
  runs_chained expected (finish_run record_run expected c length pos st log).
Proof.
  intros Hpos Hexp Hlen Hlog Hasc Hend.
  split; [apply finish_run_in_raster; assumption |].
  rewrite finish_run_spec by assumption.
  pose proof (clamp_run_range expected pos length ltac:(lia) ltac:(lia)) as Hc.
  cbn [rle_pos rle_out].
  destruct (Byte.eqb c transparent).
  - split; [exact Hasc |].
    eapply Forall_impl; [exact Hend |]. cbn. intros r Hr. lia.
  - unfold record_run. split; [apply runs_ascending_snoc; assumption |].
    apply Forall_app. split.
    + eapply Forall_impl; [exact Hend |]. cbn. intros r Hr. lia.
    + constructor; [cbn; lia | constructor].
Qed.

Lemma rle_step_chained expected c l st :
  expected <= 2 ^ 62 -> runs_chained expected st ->
  runs_chained expected (rle_step record_run expected c l st).
Proof.
  intros Hexp ([Hpos Hlog] & Hasc & Hend). unfold rle_step.
  pose proof (u8_range l) as Hl.
  pose proof (held_run_length_range (heldLength st)) as Hh.
  destruct (hasHolder st).
  - destruct (Byte.eqb c (heldColor st)).
    + apply finish_run_chained; auto; lia.
    + cbn zeta. rewrite clamp_spec by lia.
      pose proof (clamp_run_range expected (rle_pos st)
                    (held_run_length (heldLength st)) ltac:(lia) ltac:(lia)) as Hc.
      unfold addi. rewrite int_wrap_small by lia.
      destruct (Byte.eqb (heldColor st) transparent); cbn [negb].
      * apply finish_run_chained; auto; try lia.
        eapply Forall_impl; [exact Hend |]. cbn. intros r Hr. lia.
      * unfold record_run at 2. apply finish_run_chained; auto; try lia.
        -- apply Forall_app. split; [exact Hlog |].
           constructor; [| constructor]. unfold run_in_raster. cbn. lia.
        -- apply runs_ascending_snoc; assumption.
        -- apply Forall_app. split.
           ++ eapply Forall_impl; [exact Hend |]. cbn. intros r Hr. lia.
           ++ constructor; [cbn; lia | constructor].
  - destruct (Byte.eqb l xff); [apply finish_run_chained; auto; lia |].
    destruct (negb (Z.land (u8 l) 128 =? 0)).
    + split; [split; assumption |]. split; assumption.
    + apply finish_run_chained; auto; lia.
Qed.

Lemma rle_loop_chained expected data : forall st,
  expected <= 2 ^ 62 -> runs_chained expected st ->
  runs_chained expected (rle_loop record_run expected data st).
Proof.
  induction data as [data IH] using (induction_ltof1 _ (@length byte)).
  unfold ltof in IH. intros st Hexp Hst.
  destruct data as [| c [| l rest]]; try exact Hst.
  cbn [rle_loop]. destruct (rle_pos st <? expected); [| exact Hst].
  apply IH; [cbn; lia | exact Hexp |]. apply rle_step_chained; assumption.
Qed.

Lemma decodeRLE_calls_ascending data width height :
  0 <= width * height <= 2 ^ 62 ->
  runs_ascending (decodeRLE_calls data width height).
Proof.
  intros Hsize. unfold decodeRLE_calls, decodeRLE.
  replace (muli width height) with (width * height)
    by (unfold muli; rewrite int_wrap_small by lia; reflexivity).
  destruct (rle_loop_chained (width * height) data (rle_init [])
              ltac:(lia)) as ([Hpos Hlog] & Hasc & Hend).
  { split; [split; [cbn; lia | constructor] |].
    split; [exact I | constructor]. }
  set (st := rle_loop record_run (width * height) data (rle_init [])) in *.
  unfold rle_tail.
  destruct (hasHolder st && (rle_pos st <? width * height)); [| exact Hasc].
  cbn zeta.
  match goal with |- context [if ?b then _ else _] => destruct b end;
    [| exact Hasc].
  apply runs_ascending_snoc; assumption.
Qed.

Lemma tile_lookup unit k j i :
  (j < k)%nat -> (i < length unit)%nat ->
  tile unit k !! (length unit * j + i)%nat = unit !! i.
Proof.
  revert j. induction k as [| k IH]; intros j Hj Hi; [lia |].
  cbn [tile]. destruct j as [| j].
  - rewrite Nat.mul_0_r. cbn [Nat.add]. apply lookup_app_l. exact Hi.
  - rewrite lookup_app_r by lia.
    replace (length unit * S j + i - length unit)%nat
      with (length unit * j + i)%nat by lia.
    apply IH; lia.
Qed.

(** The bytes of a buffer of [u] bytes per pixel after a run of [n] pixels
    from pixel [pos] was written with the unit [unit]. *)
Lemma written_lookup (unit buf : list byte) (pos n q i : nat) :
  let u := length unit in
  (u * (pos + n) <= length buf)%nat -> (i < u)%nat ->
  (take (u * pos) buf ++ tile unit n ++ drop (u * (pos + n)) buf)
    !! (u * q + i)%nat =
  if (pos <=? q)%nat && (q <? pos + n)%nat then unit !! i
  else buf !! (u * q + i)%nat.
Proof.
  intros u Hfit Hi.
  assert (Hpre : length (take (u * pos) buf) = (u * pos)%nat)
    by (rewrite length_take; lia).
  destruct (Nat.leb_spec pos q) as [Hle | Hlt]; cbn [andb].
  - rewrite lookup_app_r by (rewrite Hpre; nia). rewrite Hpre.
    destruct (Nat.ltb_spec q (pos + n)) as [Hin | Hout].
    + rewrite lookup_app_l by (rewrite tile_length; fold u; nia).
      replace (u * q + i - u * pos)%nat with (u * (q - pos) + i)%nat by nia.
      apply tile_lookup; [lia | exact Hi].
    + rewrite lookup_app_r by (rewrite tile_length; fold u; nia).
      rewrite tile_length, lookup_drop. fold u. f_equal. nia.
  - rewrite lookup_app_l by (rewrite Hpre; nia).
    apply lookup_take_lt. nia.
Qed.

Lemma written_length (unit buf : list byte) (pos n : nat) :
  let u := length unit in
  (u * (pos + n) <= length buf)%nat ->
  length (take (u * pos) buf ++ tile unit n ++ drop (u * (pos + n)) buf) =
  length buf.
Proof.
  intros u Hfit.
  rewrite !length_app, length_take, tile_length, length_drop. fold u. nia.
Qed.

Section Raster.
Variable u : nat.
Variable unit_of : byte -> list byte.
Variable emit : Z -> Z -> byte -> exec (list byte) -> exec (list byte).
Variable pixels : Z.
Hypothesis unit_length : forall c, length (unit_of c) = u.
Hypothesis emit_writes : forall buf pos count c,
  len buf = Z.of_nat u * pixels -> 0 <= pos -> 0 <= count ->
  pos + count <= pixels ->
  emit pos count c (Returns buf) =
  Returns (take (u * Z.to_nat pos) buf ++ tile (unit_of c) (Z.to_nat count)
           ++ drop (u * (Z.to_nat pos + Z.to_nat count)) buf).

Lemma covering_run_behind r rest q :
  Forall (fun r' => run_pos r + run_len r <= run_pos r') rest ->
  q < run_pos r + run_len r -> covering_run rest q = None.
Proof.
  intros Hrest Hq. induction Hrest as [| r' rest Hr' _ IH]; [reflexivity |].
  cbn. destruct (Z.leb_spec (run_pos r') q); [lia |]. exact IH.
Qed.

(** Replaying ascending runs that lie inside the raster on a buffer of the
    size of the raster: every fill returns, the buffer keeps its size, and
    each byte is the one [raster_byte] names. *)
Lemma replay_raster calls : forall buf,
  len buf = Z.of_nat u * pixels ->
  Forall (run_in_raster pixels) calls -> runs_ascending calls ->
  exists out,
    replay emit calls (Returns buf) = Returns out
    /\ length out = length buf
    /\ forall q i : nat,
         Z.of_nat q < pixels -> (i < u)%nat ->
         out !! (u * q + i)%nat = raster_byte unit_of u calls buf q i.
Proof.
  induction calls as [| r calls IH]; intros buf Hlen Hin Hasc.
  - exists buf. repeat split; reflexivity.
  - apply List.Forall_cons_iff in Hin as [(Hpos & Hcount & Hend) Hin].
    cbn in Hasc. destruct Hasc as [Hbehind Hasc].
    unfold replay. cbn [foldl].
    rewrite emit_writes by assumption.
    set (written := take (u * Z.to_nat (run_pos r)) buf
                    ++ tile (unit_of (run_color r)) (Z.to_nat (run_len r))
                    ++ drop (u * (Z.to_nat (run_pos r) + Z.to_nat (run_len r)))
                         buf).
    assert (Hfit : (u * (Z.to_nat (run_pos r) + Z.to_nat (run_len r))
                    <= length buf)%nat) by (unfold len in Hlen; nia).
    assert (Hwlen : length written = length buf).
    { unfold written. rewrite <- (unit_length (run_color r)) in Hfit |- *.
      apply written_length. exact Hfit. }
    destruct (IH written ltac:(unfold len in *; lia) Hin Hasc)
      as (out & Hout & Hsize & Hbytes).
    exists out. split; [exact Hout |]. split; [congruence |].
    intros q i Hq Hi. rewrite (Hbytes q i Hq Hi).
    unfold raster_byte. cbn [covering_run].
    destruct (Z.leb_spec (run_pos r) (Z.of_nat q)) as [Hle | Hlt];
      destruct (Z.ltb_spec (Z.of_nat q) (run_pos r + run_len r))
        as [Hlt' | Hge']; cbn [andb].
    + rewrite (covering_run_behind r calls _ Hbehind Hlt').
      unfold written. rewrite <- (unit_length (run_color r)) in Hfit, Hi |- *.
      rewrite written_lookup by assumption.
      destruct (Nat.leb_spec (Z.to_nat (run_pos r)) q); [| lia].
      destruct (Nat.ltb_spec q (Z.to_nat (run_pos r) + Z.to_nat (run_len r)));
        [reflexivity | lia].
    + destruct (covering_run calls (Z.of_nat q)); [reflexivity |].
      unfold written. rewrite <- (unit_length (run_color r)) in Hfit, Hi |- *.
      rewrite written_lookup by assumption.
      destruct (Nat.ltb_spec q (Z.to_nat (run_pos r) + Z.to_nat (run_len r)));
        [lia |]. rewrite andb_false_r. reflexivity.
    + destruct (covering_run calls (Z.of_nat q)); [reflexivity |].
      unfold written. rewrite <- (unit_length (run_color r)) in Hfit, Hi |- *.
      rewrite written_lookup by assumption.
      destruct (Nat.leb_spec (Z.to_nat (run_pos r)) q); [lia |]. reflexivity.
    + lia.
Qed.

Lemma decodeRLE_raster data width height buf :
  0 <= width * height <= 2 ^ 62 -> width * height = pixels ->
  len buf = Z.of_nat u * pixels ->
  exists out,
    decodeRLE emit data width height (Returns buf) = Returns out
    /\ length out = length buf
    /\ forall q i : nat,
         Z.of_nat q < pixels -> (i < u)%nat ->
         out !! (u * q + i)%nat =
         raster_byte unit_of u (decodeRLE_calls data width height) buf q i.
Proof.
  intros Hsize Hpix Hlen. rewrite decodeRLE_replay.
  apply replay_raster; [exact Hlen | |].
  - rewrite <- Hpix. apply decodeRLE_calls_in_raster. exact Hsize.
  - apply decodeRLE_calls_ascending. exact Hsize.
Qed.
End Raster.

Lemma pixels_of_bounded expected calls : forall start,
  Forall (run_in_raster expected) calls -> runs_ascending calls ->
  Forall (fun r => start <= run_pos r) calls -> start <= expected ->
  pixels_of calls <= expected - start.
Proof.
  induction calls as [| r calls IH]; intros start Hin Hasc Hstart Hle.
  - cbn. lia.
  - apply List.Forall_cons_iff in Hin as [(Hpos & Hcount & Hend) Hin].
    apply List.Forall_cons_iff in Hstart as [Hr Hstart].
    cbn in Hasc. destruct Hasc as [Hbehind Hasc].
    cbn [pixels_of foldr]. fold (pixels_of calls).
    specialize (IH (run_pos r + run_len r) Hin Hasc Hbehind Hend). lia.
Qed.

(** X1. On a raster of at most 2^62 pixels the runs [decodeRLE] hands to
    its callback lie inside the raster, have a length that is not negative,
    come in ascending order without overlap (each starts at or behind the
    end of the one before), and together hold no more pixels than the
    raster has. *)
Theorem decodeRLE_runs_ascending_inside_raster :
  forall (data : list byte) (width height : Z),
    0 <= width * height <= 2 ^ 62 ->
    let calls := decodeRLE_calls data width height in
    Forall (fun r => 0 <= run_pos r /\ 0 <= run_len r
                     /\ run_pos r + run_len r <= width * height) calls
    /\ runs_ascending calls
    /\ pixels_of calls <= width * height.
Proof.
  intros data width height Hsize calls.
  pose proof (decodeRLE_calls_in_raster data width height Hsize) as Hin.
  pose proof (decodeRLE_calls_ascending data width height Hsize) as Hasc.
  split; [exact Hin |]. split; [exact Hasc |].
  rewrite <- (Z.sub_0_r (width * height)).
  apply pixels_of_bounded; try assumption; [| lia].
  eapply Forall_impl; [exact Hin |]. intros r (Hpos & _). exact Hpos.
Qed.

Lemma decodeRLE_runs_ascending_inside_raster_witness :
  let calls := decodeRLE_calls [x61; x81; x00; x05; x62; x03; x63; xff] 40 10 in
  calls = [Run 0 256 x61; Run 256 6 x00; Run 266 134 x63]
  /\ Forall (fun r => 0 <= run_pos r /\ 0 <= run_len r
                      /\ run_pos r + run_len r <= 40 * 10) calls
  /\ runs_ascending calls
  /\ pixels_of calls <= 40 * 10.
Proof.
  split; [vm_compute; reflexivity |].
  exact (decodeRLE_runs_ascending_inside_raster
           [x61; x81; x00; x05; x62; x03; x63; xff] 40 10 ltac:(lia)).
Defined.

(** ** The three rasters *)

Lemma emit_code_writes pixels buf pos count c :
  pixels <= 2 ^ 62 ->
  len buf = Z.of_nat 1 * pixels -> 0 <= pos -> 0 <= count ->
  pos + count <= pixels ->
  emit_code pos count c (Returns buf) =
  Returns (take (1 * Z.to_nat pos) buf ++ tile (code_unit c) (Z.to_nat count)
           ++ drop (1 * (Z.to_nat pos + Z.to_nat count)) buf).
Proof.
  intros Hpix Hlen Hpos Hcount Hend. unfold emit_code. cbn [exec_bind].
  rewrite fillCodes_clamped by lia. cbv zeta.
  replace (Z.to_nat (Z.min count (len buf - pos))) with (Z.to_nat count) by lia.
  rewrite !Nat.mul_1_l. unfold code_unit. rewrite tile_single. reflexivity.
Qed.

Lemma emit_rgb_writes p pixels buf pos count c :
  pixels <= 2 ^ 60 ->
  len buf = Z.of_nat 3 * pixels -> 0 <= pos -> 0 <= count ->
  pos + count <= pixels ->
  emit_rgb p pos count c (Returns buf) =
  Returns (take (3 * Z.to_nat pos) buf ++ tile (rgb_unit p c) (Z.to_nat count)
           ++ drop (3 * (Z.to_nat pos + Z.to_nat count)) buf).
Proof.
  intros Hpix Hlen Hpos Hcount Hend. unfold emit_rgb, rgb_unit.
  cbn [exec_bind]. destruct (color_at (Colors p) (u8 c)) as [[r g] b].
  rewrite (fillRGB_in_bounds buf pixels) by lia.
  rewrite Nat.mul_add_distr_l. reflexivity.
Qed.

Lemma emit_rgba_writes p pixels buf pos count c :
  pixels <= 2 ^ 60 ->
  len buf = Z.of_nat 4 * pixels -> 0 <= pos -> 0 <= count ->
  pos + count <= pixels ->
  emit_rgba p pos count c (Returns buf) =
  Returns (take (4 * Z.to_nat pos) buf ++ tile (rgba_unit p c) (Z.to_nat count)
           ++ drop (4 * (Z.to_nat pos + Z.to_nat count)) buf).
Proof.
  intros Hpix Hlen Hpos Hcount Hend. unfold emit_rgba, rgba_unit.
  cbn [exec_bind]. destruct (color_at (Colors p) (u8 c)) as [[r g] b].
  rewrite (fillRGBA_clamped buf pixels) by lia. cbv zeta.
  replace (Z.to_nat (Z.min count (pixels - pos))) with (Z.to_nat count) by lia.
  rewrite Nat.mul_add_distr_l. reflexivity.
Qed.

(** X2. On a code map of the size of the raster [decodeRLEToCodeMap]
    returns (no fill leaves the buffer), the map keeps its size, and each
    pixel holds the code of the run that covers it, or what the map held
    before when no run covers it. *)
Theorem decodeRLEToCodeMap_pixels :
  forall (data codeMap : list byte) (width height : Z),
    0 <= width * height <= 2 ^ 62 -> len codeMap = width * height ->
    exists out,
      decodeRLEToCodeMap data codeMap width height = Returns out
      /\ length out = length codeMap
      /\ forall q : nat,
           Z.of_nat q < width * height ->
           out !! q =
           match covering_run (decodeRLE_calls data width height) (Z.of_nat q)
           with
           | Some r => Some (run_color r)
           | None => codeMap !! q
           end.
Proof.
  intros data codeMap width height Hsize Hlen.
  destruct (decodeRLE_raster 1 code_unit emit_code (width * height)
              (fun _ => eq_refl)
              (fun buf pos count c =>
                 emit_code_writes (width * height) buf pos count c
                   ltac:(lia))
              data width height codeMap Hsize eq_refl ltac:(lia))
    as (out & Hout & Hlength & Hbytes).
  exists out. split; [exact Hout |]. split; [exact Hlength |].
  intros q Hq. specialize (Hbytes q 0%nat Hq ltac:(lia)).
  rewrite Nat.mul_1_l, Nat.add_0_r in Hbytes. rewrite Hbytes.
  unfold raster_byte.
  destruct (covering_run _ _); [reflexivity |].
  rewrite Nat.mul_1_l, Nat.add_0_r. reflexivity.
Qed.

Lemma decodeRLEToCodeMap_pixels_witness :
  exists out,
    decodeRLEToCodeMap [x00; x05] (replicate 10 xff) 10 1 = Returns out
    /\ length out = length (replicate 10 xff)
    /\ forall q : nat,
         Z.of_nat q < 10 * 1 ->
         out !! q =
         match covering_run (decodeRLE_calls [x00; x05] 10 1) (Z.of_nat q) with
         | Some r => Some (run_color r)
         | None => replicate 10 xff !! q
         end.
Proof.
  exact (decodeRLEToCodeMap_pixels [x00; x05] (replicate 10 xff) 10 1
           ltac:(lia) eq_refl).
Defined.

(** X3. On an RGB raster of the size of the page, three bytes a pixel,
    [decodeRLEToRGB] returns: no run handed to [fillRGB] passes the end of
    the buffer, so the bound of its loop by [count] does no harm here. The
    raster keeps its size, and each pixel holds the palette colour of the
    run that covers it, or what it held before. *)
Theorem decodeRLEToRGB_pixels :
  forall (data rgb : list byte) (width height : Z) (p : Palette),
    0 <= width * height <= 2 ^ 60 -> len rgb = 3 * (width * height) ->
    exists out,
      decodeRLEToRGB data rgb width height p = Returns out
      /\ length out = length rgb
      /\ forall q i : nat,
           Z.of_nat q < width * height -> (i < 3)%nat ->
           out !! (3 * q + i)%nat =
           match covering_run (decodeRLE_calls data width height) (Z.of_nat q)
           with
           | Some r => rgb_unit p (run_color r) !! i
           | None => rgb !! (3 * q + i)%nat
           end.
Proof.
  intros data rgb width height p Hsize Hlen.
  apply (decodeRLE_raster 3 (rgb_unit p) (emit_rgb p) (width * height)).
  - intros c. unfold rgb_unit.
    destruct (color_at (Colors p) (u8 c)) as [[r g] b]. reflexivity.
  - intros buf pos count c. apply emit_rgb_writes. lia.
  - lia.
  - reflexivity.
  - lia.
Qed.

Lemma decodeRLEToRGB_pixels_witness :
  exists out,
    decodeRLEToRGB [x00; x05] (replicate 30 xff) 10 1 (note_palette (sample_config 0x1p-1))
    = Returns out
    /\ length out = length (replicate 30 xff)
    /\ forall q i : nat,
         Z.of_nat q < 10 * 1 -> (i < 3)%nat ->
         out !! (3 * q + i)%nat =
         match covering_run (decodeRLE_calls [x00; x05] 10 1) (Z.of_nat q) with
         | Some r => rgb_unit (note_palette (sample_config 0x1p-1)) (run_color r) !! i
         | None => replicate 30 xff !! (3 * q + i)%nat
         end.
Proof.
  exact (decodeRLEToRGB_pixels [x00; x05] (replicate 30 xff) 10 1
           (note_palette (sample_config 0x1p-1)) ltac:(lia) eq_refl).
Defined.

(** X4. On an RGBA raster of the size of the page, four bytes a pixel,
    [decodeRLEToRGBA] returns, the raster keeps its size, and each pixel
    holds the palette colour and alpha of the run that covers it, or what it
    held before. *)
Theorem decodeRLEToRGBA_pixels :
  forall (data rgba : list byte) (width height : Z) (p : Palette),
    0 <= width * height <= 2 ^ 60 -> len rgba = 4 * (width * height) ->
    exists out,
      decodeRLEToRGBA data rgba width height p = Returns out
      /\ length out = length rgba
      /\ forall q i : nat,
           Z.of_nat q < width * height -> (i < 4)%nat ->
           out !! (4 * q + i)%nat =
           match covering_run (decodeRLE_calls data width height) (Z.of_nat q)
           with
           | Some r => rgba_unit p (run_color r) !! i
           | None => rgba !! (4 * q + i)%nat
           end.
Proof.
  intros data rgba width height p Hsize Hlen.
  apply (decodeRLE_raster 4 (rgba_unit p) (emit_rgba p) (width * height)).
  - intros c. unfold rgba_unit.
    destruct (color_at (Colors p) (u8 c)) as [[r g] b]. reflexivity.
  - intros buf pos count c. apply emit_rgba_writes. lia.
  - lia.
  - reflexivity.
  - lia.
Qed.

Lemma decodeRLEToRGBA_pixels_witness :
  exists out,
    decodeRLEToRGBA [x00; x05] (replicate 40 x00) 10 1 (note_palette (sample_config 0x1p-1))
    = Returns out
    /\ length out = length (replicate 40 x00)
    /\ forall q i : nat,
         Z.of_nat q < 10 * 1 -> (i < 4)%nat ->
         out !! (4 * q + i)%nat =
         match covering_run (decodeRLE_calls [x00; x05] 10 1) (Z.of_nat q) with
         | Some r => rgba_unit (note_palette (sample_config 0x1p-1)) (run_color r) !! i
         | None => replicate 40 x00 !! (4 * q + i)%nat
         end.
Proof.
  exact (decodeRLEToRGBA_pixels [x00; x05] (replicate 40 x00) 10 1
           (note_palette (sample_config 0x1p-1)) ltac:(lia) eq_refl).
Defined.

(** ** The fill sinks, pixel by pixel *)



Lemma written_pixels (unit buf : list byte) (pos n : nat) :
  (length unit * (pos + n) <= length buf)%nat ->
  length (take (length unit * pos) buf ++ tile unit n
          ++ drop (length unit * pos + length unit * n) buf) = length buf
  /\ forall q i : nat,
       (i < length unit)%nat ->
       (take (length unit * pos) buf ++ tile unit n
        ++ drop (length unit * pos + length unit * n) buf)
         !! (length unit * q + i)%nat =
       if (pos <=? q)%nat && (q <? pos + n)%nat then unit !! i
       else buf !! (length unit * q + i)%nat.
Proof.
  intros Hfit. rewrite <- Nat.mul_add_distr_l. split.
  - apply written_length. exact Hfit.
  - intros q i Hi. apply written_lookup; assumption.
Qed.



(** X7. On a buffer of whole RGB pixels [fillRGB] returns for every run
    that ends inside the buffer: the buffer keeps its size, the pixels of
    the run hold the three bytes [r g b], and every other pixel is as it
    was. *)
Theorem fillRGB_pixels :
  forall (rgb : list byte) (pixels pos count : Z) (r g b : byte),
    len rgb = 3 * pixels -> pixels <= 2 ^ 60 ->
    0 <= pos -> 0 <= count -> pos + count <= pixels ->
    exists out,
      fillRGB rgb pos count r g b = Returns out
      /\ length out = length rgb
      /\ forall q i : nat,
           Z.of_nat q < pixels -> (i < 3)%nat ->
           out !! (3 * q + i)%nat =
           if (pos <=? Z.of_nat q) && (Z.of_nat q <? pos + count)
           then [r; g; b] !! i else rgb !! (3 * q + i)%nat.
Proof.
  intros rgb pixels pos count r g b Hlen Hpix Hpos Hcount Hsum.
  rewrite (fillRGB_in_bounds rgb pixels) by assumption.
  eexists. split; [reflexivity |].
  destruct (written_pixels [r; g; b] rgb (Z.to_nat pos) (Z.to_nat count))
    as [Hsize Hbytes]; [cbn [length]; unfold len in *; lia |].
  cbn [length] in Hsize, Hbytes. split; [exact Hsize |].
  intros q i Hq Hi. rewrite (Hbytes q i Hi).
  destruct (Nat.leb_spec (Z.to_nat pos) q);
    destruct (Z.leb_spec pos (Z.of_nat q)); try lia; cbn [andb];
    [| reflexivity].
  destruct (Nat.ltb_spec q (Z.to_nat pos + Z.to_nat count));
    destruct (Z.ltb_spec (Z.of_nat q) (pos + count)); try lia; reflexivity.
Qed.

Lemma fillRGB_pixels_witness :
  exists out,
    fillRGB (replicate 30 xff) 6 2 x01 x02 x03 = Returns out
    /\ length out = length (replicate 30 xff)
    /\ forall q i : nat,
         Z.of_nat q < 10 -> (i < 3)%nat ->
         out !! (3 * q + i)%nat =
         if (6 <=? Z.of_nat q) && (Z.of_nat q <? 6 + 2)
         then [x01; x02; x03] !! i else replicate 30 xff !! (3 * q + i)%nat.
Proof.
  exact (fillRGB_pixels (replicate 30 xff) 10 6 2 x01 x02 x03
           eq_refl ltac:(lia) ltac:(lia) ltac:(lia) ltac:(lia)).
Defined.

(** ** The decoder at the ends of its input *)

Section DecodeRLEInput.
Context {Sink : Type}.
Variable emit : Z -> Z -> byte -> Sink -> Sink.

(** The loop stays where it is once the raster is full. *)
Lemma rle_loop_full expected data (st : rle_state Sink) :
  expected <= rle_pos st -> rle_loop emit expected data st = st.
Proof.
  intros Hfull. destruct data as [| c [| l rest]]; try reflexivity.
  cbn [rle_loop]. destruct (Z.ltb_spec (rle_pos st) expected); [lia |].
  reflexivity.
Qed.

(** The loop reads a whole number of pairs and then goes on with what
    follows. *)
Lemma rle_loop_app expected more data : forall st : rle_state Sink,
  Nat.Even (length data) ->
  rle_loop emit expected (data ++ more) st =
  rle_loop emit expected more (rle_loop emit expected data st).
Proof.
  induction data as [data IH] using (induction_ltof1 _ (@length byte)).
  unfold ltof in IH. intros st Heven.
  destruct data as [| c [| l rest]].
  - reflexivity.
  - destruct Heven as [k Hk]. cbn in Hk. lia.
  - cbn [app rle_loop].
    destruct (Z.ltb_spec (rle_pos st) expected) as [Hlt | Hge].
    + apply IH; [cbn; lia |].
      destruct Heven as [k Hk]. exists (k - 1)%nat. cbn in Hk. lia.
    + symmetry. apply rle_loop_full. exact Hge.
Qed.
End DecodeRLEInput.

(** X8. [decodeRLE] reads its input pair by pair as long as the raster is
    not full. A last byte without a partner is ignored; and once the pairs
    read so far have filled the raster, whatever follows is ignored: the
    calls of [emit] are those of the input cut there. *)
Theorem decodeRLE_ignores_unusable_input :
  forall (Sink : Type) (emit : Z -> Z -> byte -> Sink -> Sink)
         (data : list byte) (width height : Z) (out : Sink),
    Nat.Even (length data) ->
    (forall b : byte,
       decodeRLE emit (data ++ [b]) width height out =
       decodeRLE emit data width height out)
    /\ (forall more : list byte,
          muli width height <=
          rle_pos (rle_loop emit (muli width height) data (rle_init out)) ->
          decodeRLE emit (data ++ more) width height out =
          decodeRLE emit data width height out).
Proof.
  intros Sink emit data width height out Heven. split.
  - intros b. unfold decodeRLE. rewrite rle_loop_app by exact Heven.
    reflexivity.
  - intros more Hfull. unfold decodeRLE. rewrite rle_loop_app by exact Heven.
    rewrite rle_loop_full by exact Hfull. reflexivity.
Qed.

Lemma decodeRLE_ignores_unusable_input_witness :
  (forall b : byte,
     decodeRLE record_run ([x61; x05; x63; x03] ++ [b]) 10 1 [] =
     decodeRLE record_run [x61; x05; x63; x03] 10 1 [])
  /\ (forall more : list byte,
        decodeRLE record_run ([x61; x05; x63; x03] ++ more) 10 1 [] =
        [Run 0 6 x61; Run 6 4 x63]).
Proof.
  pose proof (decodeRLE_ignores_unusable_input (list run) record_run
                [x61; x05; x63; x03] 10 1 [] (ex_intro _ 2%nat eq_refl))
    as [Hodd Hfull].
  split; [exact Hodd |].
  intros more. rewrite Hfull; [reflexivity |]. vm_compute. discriminate.
Defined.

(** X9. While [decodeRLE] holds a pair [(c1, L1)], a pair [(c2, L2)] of
    another colour first flushes the held run, [((L1 & 0x7F) + 1) << 7]
    pixels of [c1] cut at the end of the raster, and then makes the run of
    the new pair, [L2 + 1] pixels of [c2] cut at the end of the raster,
    right behind it; a run of the transparent code moves the position
    without a call of [emit]. No hold is pending afterwards. *)
Theorem different_color_pair_flushes_held_run :
  forall (Sink : Type) (emit : Z -> Z -> byte -> Sink -> Sink)
         (expected : Z) (st : rle_state Sink) (c2 L2 : byte),
    0 <= rle_pos st < expected -> expected <= 2 ^ 62 ->
    hasHolder st = true -> c2 <> heldColor st ->
    let pos := rle_pos st in
    let held := Z.min (Z.shiftl (Z.land (u8 (heldLength st)) 0x7f + 1) 7)
                      (expected - pos) in
    let own := Z.min (u8 L2 + 1) (expected - (pos + held)) in
    let out1 := if Byte.eqb (heldColor st) x62 then rle_out st
                else emit pos held (heldColor st) (rle_out st) in
    let out2 := if Byte.eqb c2 x62 then out1
                else emit (pos + held) own c2 out1 in
    rle_step emit expected c2 L2 st =
    RleState (pos + held + own) (heldColor st) (heldLength st) false out2.
Proof.
  intros Sink emit expected st c2 L2 Hpos Hexp Hhold Hcol pos held own out1 out2.
  unfold rle_step. rewrite Hhold.
  rewrite (proj2 (byte_eqb_neq c2 (heldColor st)) Hcol).
  pose proof (u8_range L2) as HL2.
  pose proof (held_run_length_range (heldLength st)) as Hh.
  cbn zeta. rewrite clamp_spec by lia.
  pose proof (clamp_run_range expected (rle_pos st)
                (held_run_length (heldLength st)) ltac:(lia) ltac:(lia)) as Hc.
  unfold addi. rewrite int_wrap_small by lia.
  rewrite finish_run_spec by lia.
  unfold out2, out1, own, held, pos, clamp_run, held_run_length, transparent.
  destruct (Byte.eqb (heldColor st) x62); destruct (Byte.eqb c2 x62);
    reflexivity.
Qed.

Lemma different_color_pair_flushes_held_run_witness :
  rle_step record_run 1000 x63 x05 (RleState 7 x61 x81 true []) =
  RleState 269 x61 x81 false [Run 7 256 x61; Run 263 6 x63].
Proof.
  exact (different_color_pair_flushes_held_run (list run) record_run 1000
           (RleState 7 x61 x81 true []) x63 x05
           ltac:(cbn; lia) ltac:(lia) eq_refl ltac:(discriminate)).
Defined.

(** X10. With no pair held, a pair [(c, L)] is read as follows: the length
    code 0xFF is a run of 0x4000 pixels; any other length code with the
    high bit set starts a hold and makes no call; a length code below 0x80
    is a run of [L + 1] pixels. A run is cut at the end of the raster, and
    a run of the transparent code moves the position without a call of
    [emit]. *)
Theorem idle_pair_decoding :
  forall (Sink : Type) (emit : Z -> Z -> byte -> Sink -> Sink)
         (expected : Z) (st : rle_state Sink) (c L : byte),
    0 <= rle_pos st < expected -> expected <= 2 ^ 62 ->
    hasHolder st = false ->
    let pos := rle_pos st in
    let run_of length :=
      let length := Z.min length (expected - pos) in
      RleState (pos + length) (heldColor st) (heldLength st) false
        (if Byte.eqb c x62 then rle_out st
         else emit pos length c (rle_out st)) in
    rle_step emit expected c L st =
    if u8 L =? 0xff then run_of 0x4000
    else if 0x80 <=? u8 L then RleState pos c L true (rle_out st)
    else run_of (u8 L + 1).
Proof.
  intros Sink emit expected st c L Hpos Hexp Hidle pos run_of.
  unfold rle_step. rewrite Hidle. pose proof (u8_range L) as HL.
  assert (Hff : Byte.eqb L xff = (u8 L =? 0xff)).
  { destruct L; reflexivity. }
  assert (Hbit : negb (Z.land (u8 L) 128 =? 0) = (0x80 <=? u8 L)).
  { destruct L; reflexivity. }
  rewrite Hff, Hbit.
  destruct (u8 L =? 255).
  - rewrite finish_run_spec by lia. reflexivity.
  - destruct (128 <=? u8 L); [reflexivity |].
    rewrite finish_run_spec by lia. reflexivity.
Qed.

Lemma idle_pair_decoding_witness :
  rle_step record_run 100000 x61 xff (RleState 7 x00 x00 false []) =
    RleState 16391 x00 x00 false [Run 7 16384 x61]
  /\ rle_step record_run 100000 x61 x85 (RleState 7 x00 x00 false []) =
     RleState 7 x61 x85 true []
  /\ rle_step record_run 100000 x61 x7f (RleState 7 x00 x00 false []) =
     RleState 135 x00 x00 false [Run 7 128 x61].
Proof.
  split; [| split].
  - exact (idle_pair_decoding (list run) record_run 100000
             (RleState 7 x00 x00 false []) x61 xff
             ltac:(cbn; lia) ltac:(lia) eq_refl).
  - exact (idle_pair_decoding (list run) record_run 100000
             (RleState 7 x00 x00 false []) x61 x85
             ltac:(cbn; lia) ltac:(lia) eq_refl).
  - exact (idle_pair_decoding (list run) record_run 100000
             (RleState 7 x00 x00 false []) x61 x7f
             ltac:(cbn; lia) ltac:(lia) eq_refl).
Defined.

(** ** Metadata blocks: errors and gaps *)

Lemma read_full_spec file off n :
  0 <= n -> 0 < n \/ Z.of_nat (Z.to_nat off) <= len file ->
  read_full file off n =
  if Z.of_nat (Z.to_nat off) + n <=? len file
  then Some (take (Z.to_nat n) (drop (Z.to_nat off) file)) else None.
Proof.
  intros Hn Hoff. unfold read_full, len in *. rewrite length_drop.
  destruct (Z.leb_spec n (Z.of_nat (length file - Z.to_nat off)));
    destruct (Z.leb_spec (Z.of_nat (Z.to_nat off) + n) (Z.of_nat (length file)));
    try reflexivity; lia.
Qed.

Lemma le_uint32_nonneg buf : 0 <= le_uint32 buf.
Proof.
  destruct buf as [| b0 [| b1 [| b2 [| b3 [| ? ?]]]]]; cbn; try lia.
  pose proof (u8_range b0). pose proof (u8_range b1).
  pose proof (u8_range b2). pose proof (u8_range b3).
  repeat (apply Z.lor_nonneg; split); try apply Z.shiftl_nonneg; lia.
Qed.

(** X11. [parseMetadataBlock] returns for every file and every address; it
    never panics. Address 0 gives the empty map without a look at the file.
    Any other address gives an error exactly when the address does not fit
    a file offset (it is 2^63 or more), or the file ends before the four
    length bytes, or before the payload whose size they give; otherwise it
    gives the map of the payload. *)
Theorem parseMetadataBlock_errors :
  forall (file : list byte) (addr : Z),
    0 <= addr < 2 ^ 64 ->
    let blockLen := le_uint32 (take 4 (drop (Z.to_nat addr) file)) in
    let short :=
      (2 ^ 63 <=? addr) || (len file <? addr + 4)
      || (len file <? addr + 4 + blockLen) in
    parseMetadataBlock file addr =
    if addr =? 0 then Returns (Some ∅)
    else if short then Returns None
    else do m <- parse_block (take (Z.to_nat blockLen)
                                (drop (Z.to_nat (addr + 4)) file)) ;
         Returns (Some m).
Proof.
  intros file addr Haddr blockLen short. unfold parseMetadataBlock.
  destruct (Z.eqb_spec addr 0) as [_ | Hnz]; [reflexivity |].
  unfold short.
  destruct (Z.leb_spec (2 ^ 63) addr) as [Hbig | Hsmall]; cbn [orb].
  - replace (int_wrap addr <? 0) with true; [reflexivity |].
    symmetry. apply Z.ltb_lt. unfold int_wrap.
    replace ((addr + 2 ^ 63) mod 2 ^ 64) with (addr - 2 ^ 63); [lia |].
    apply Z.mod_unique with (q := 1); lia.
  - rewrite int_wrap_small by lia.
    destruct (Z.ltb_spec addr 0) as [| _]; [lia |].
    rewrite read_full_spec by lia. rewrite Z2Nat.id by lia.
    destruct (Z.leb_spec (addr + 4) (len file)) as [Hfour | Hfour];
      destruct (Z.ltb_spec (len file) (addr + 4)); try lia; cbn [orb];
      [| reflexivity].
    change (Z.to_nat 4) with 4%nat. fold blockLen.
    pose proof (le_uint32_nonneg (take 4 (drop (Z.to_nat addr) file))) as Hb.
    fold blockLen in Hb.
    rewrite read_full_spec by (try exact Hb; rewrite Z2Nat.id by lia; lia).
    rewrite Z2Nat.id by lia.
    destruct (Z.leb_spec (addr + 4 + blockLen) (len file));
      destruct (Z.ltb_spec (len file) (addr + 4 + blockLen)); try lia;
      reflexivity.
Qed.

Lemma parseMetadataBlock_errors_witness :
  parseMetadataBlock (B "xxxx" ++ [x07; x00; x00; x00] ++ B "<A:b>") 4
  = Returns None
  /\ parseMetadataBlock (B "xxxx" ++ [x05; x00; x00; x00] ++ B "<A:b>zz") 4
     = Returns (Some {[ "A"%string := "b"%string ]})
  /\ parseMetadataBlock (B "xxxx" ++ [x05; x00]) 4 = Returns None.
Proof.
  split; [| split].
  - rewrite parseMetadataBlock_errors by lia. reflexivity.
  - rewrite parseMetadataBlock_errors by lia. reflexivity.
  - rewrite parseMetadataBlock_errors by lia. reflexivity.
Defined.

Lemma parse_from_gaps items tail : forall result,
  Forall (fun item =>
            Forall (fun c => c <> "<"%byte) item.1
            /\ key_bytes item.2.1 /\ value_bytes item.2.2) items ->
  Forall (fun c => c <> "<"%byte) tail ->
  parse_from result (records_with_gaps items tail) =
  Returns (insert_records result (map snd items)).
Proof.
  unfold records_with_gaps.
  induction items as [| [junk [key value]] items IH]; intros result Hitems Htail.
  - cbn [map concat app insert_records foldl].
    rewrite <- (app_nil_r tail), parse_from_skip by exact Htail.
    reflexivity.
  - apply List.Forall_cons_iff in Hitems as [(Hjunk & Hkey & Hvalue) Hitems].
    cbn [fst snd] in Hjunk, Hkey, Hvalue.
    cbn [map concat fst snd]. rewrite <- !app_assoc.
    rewrite parse_from_skip by exact Hjunk.
    rewrite record_bytes_app, parse_from_well_formed by assumption.
    rewrite IH by assumption. reflexivity.
Qed.

(** X12. In the payload of a block the bytes between the records, in front
    of the first and behind the last are ignored as long as none of them
    is '<': the map is that of the records alone, entered in their order,
    so that the value of a key that occurs more than once is that of its
    last record. *)
Theorem parse_block_ignores_gaps :
  forall (items : list (list byte * (list byte * list byte)))
         (tail : list byte),
    Forall (fun item =>
              Forall (fun c => c <> "<"%byte) item.1
              /\ key_bytes item.2.1 /\ value_bytes item.2.2) items ->
    Forall (fun c => c <> "<"%byte) tail ->
    parse_block (records_with_gaps items tail) =
      Returns (insert_records ∅ (map snd items))
    /\ forall (key value : list byte) (junk : list byte),
         Forall (fun c => c <> "<"%byte) junk ->
         key_bytes key -> value_bytes value ->
         exists m,
           parse_block (records_with_gaps (items ++ [(junk, (key, value))]) tail)
           = Returns m
           /\ m !! string_of_list_byte key = Some (string_of_list_byte value).
Proof.
  intros items tail Hitems Htail. split.
  - apply parse_from_gaps; assumption.
  - intros key value junk Hjunk Hkey Hvalue. eexists. split.
    + apply parse_from_gaps; [| exact Htail].
      apply Forall_app. split; [exact Hitems |].
      constructor; [| constructor]. cbn [fst snd]. auto.
    + rewrite map_app. cbn [map snd].
      unfold insert_records. rewrite foldl_app. cbn [foldl fst snd].
      apply lookup_insert_eq.
Qed.

Lemma parse_block_ignores_gaps_witness :
  parse_block (B "  <K:v>" ++ B "<K:w>" ++ B "..")
  = Returns {[ "K"%string := "w"%string ]}
  /\ exists m,
       parse_block (B "  <K:v>" ++ B "<K:w>" ++ B "..<N:5>" ++ B "..")
       = Returns m
       /\ m !! "N"%string = Some "5"%string.
Proof.
  assert (Hitems :
            Forall (fun item : list byte * (list byte * list byte) =>
                      Forall (fun c => c <> "<"%byte) item.1
                      /\ key_bytes item.2.1 /\ value_bytes item.2.2)
              [(B "  ", (B "K", B "v")); ([], (B "K", B "w"))]).
  { repeat (apply List.Forall_cons; [repeat split; bytes_ok |]).
    apply List.Forall_nil. }
  assert (Htail : Forall (fun c => c <> "<"%byte) (B "..")) by bytes_ok.
  destruct (parse_block_ignores_gaps _ _ Hitems Htail) as [Hmap Hlast].
  split.
  - etransitivity; [exact Hmap |]. reflexivity.
  - exact (Hlast (B "N") (B "5") (B "..")
             ltac:(bytes_ok) ltac:(bytes_ok) ltac:(bytes_ok)).
Defined.

(** ** The device of a notebook *)

Lemma parseMetadataBlock_returns file addr :
  exists parsed, parseMetadataBlock file addr = Returns parsed.
Proof.
  unfold parseMetadataBlock.
  destruct (addr =? 0); [eexists; reflexivity |].
  destruct (int_wrap addr <? 0); [eexists; reflexivity |].
  destruct (read_full file addr 4) as [lenbuf |]; [| eexists; reflexivity].
  destruct (read_full file (addr + 4) (le_uint32 lenbuf)) as [buf |];
    [| eexists; reflexivity].
  destruct (parse_block_returns buf) as [m ->]. eexists. reflexivity.
Qed.


(** A footer that names the header block at offset 4, read as a Manta. *)
Example detectDeviceDimensions_manta :
  detectDeviceDimensions
    (B "note" ++ [x14; x00; x00; x00] ++ B "<APPLY_EQUIPMENT:N5>")
    {[ "FILE_FEATURE"%string := "4"%string ]}
  = Returns (1920, 2560, 300%float,
             Some {[ "APPLY_EQUIPMENT"%string := "N5"%string ]}).
Proof. vm_compute. reflexivity. Qed.

(** ** Colours of the configuration *)

Lemma parse_hex_pair_hex_pair upper b :
  parse_hex_pair (hex_char upper (u8 b / 16)) (hex_char upper (u8 b mod 16))
  = Some b.
Proof. destruct upper, b; reflexivity. Qed.

Lemma hex_char_not_hash upper b :
  Byte.eqb (hex_char upper (u8 b / 16)) "#" = false.
Proof. destruct upper, b; reflexivity. Qed.

Lemma parseHexColor_digits r1 r2 g1 g2 b1 b2 r g b :
  parse_hex_pair r1 r2 = Some r -> parse_hex_pair g1 g2 = Some g ->
  parse_hex_pair b1 b2 = Some b ->
  forall hex, trim_hash hex = [r1; r2; g1; g2; b1; b2] ->
  parseHexColor hex = ((r, g, b), true).
Proof.
  intros Hr Hg Hb hex Hhex. unfold parseHexColor.
  rewrite Hhex, Hr, Hg, Hb. reflexivity.
Qed.

Lemma parseHexColor_error_zero hex :
  (parseHexColor hex).2 = false -> (parseHexColor hex).1 = (x00, x00, x00).
Proof.
  unfold parseHexColor.
  destruct (trim_hash hex)
    as [| r1 [| r2 [| g1 [| g2 [| b1 [| b2 [| ? ?]]]]]]];
    try reflexivity.
  destruct (parse_hex_pair r1 r2); [| reflexivity].
  destruct (parse_hex_pair g1 g2); [| reflexivity].
  destruct (parse_hex_pair b1 b2); [| reflexivity].
  discriminate.
Qed.

(** X14. [parseHexColor] reads a colour written as six hexadecimal digits,
    in capitals or not, with or without a leading '#', and returns the
    three bytes the digits spell. It accepts exactly these strings: after
    one leading '#' is dropped, six bytes that are all hexadecimal digits.
    For every other string it returns the error, with the three channels
    zero. *)
Theorem parseHexColor_round_trip :
  (forall (hash upper : bool) (r g b : byte),
     parseHexColor ((if hash then ["#"%byte] else [])
                    ++ hex_pair upper r ++ hex_pair upper g ++ hex_pair upper b)
     = ((r, g, b), true))
  /\ (forall hex : list byte,
        (parseHexColor hex).2 = true <->
        length (trim_hash hex) = 6%nat
        /\ forallb is_hex_digit (trim_hash hex) = true)
  /\ (forall hex : list byte,
        (parseHexColor hex).2 = false ->
        (parseHexColor hex).1 = (x00, x00, x00)).
Proof.
  split; [| split].
  - intros hash upper r g b.
    apply (parseHexColor_digits _ _ _ _ _ _ r g b
             (parse_hex_pair_hex_pair upper r)
             (parse_hex_pair_hex_pair upper g)
             (parse_hex_pair_hex_pair upper b)).
    destruct hash; cbn [app hex_pair trim_hash].
    + reflexivity.
    + rewrite hex_char_not_hash. reflexivity.
  - intros hex. unfold parseHexColor.
    destruct (trim_hash hex)
      as [| r1 [| r2 [| g1 [| g2 [| b1 [| b2 [| ? ?]]]]]]];
      try (cbn; split; [discriminate | intros [Hlen _]; discriminate Hlen]).
    unfold parse_hex_pair, is_hex_digit. cbn [forallb length].
    destruct (hex_digit r1), (hex_digit r2), (hex_digit g1), (hex_digit g2),
      (hex_digit b1), (hex_digit b2); cbn;
      (split; [intros H; try discriminate H; split; reflexivity
              | intros [_ H]; try discriminate H; reflexivity]).
  - apply parseHexColor_error_zero.
Qed.

(** The colours of the default configuration, and three strings that are
    no colours. *)
Example parseHexColor_samples :
  parseHexColor (B "#9D9D9D") = ((x9d, x9d, x9d), true)
  /\ parseHexColor (B "c9C9c9") = ((xc9, xc9, xc9), true)
  /\ parseHexColor (B "##000000") = ((x00, x00, x00), false)
  /\ parseHexColor (B "#FFF") = ((x00, x00, x00), false)
  /\ parseHexColor (B "#12345G") = ((x00, x00, x00), false).
Proof. vm_compute. repeat split; reflexivity. Qed.

Lemma parseHexColor_color_or_black hex :
  (parseHexColor (color_or_black hex)).1 = (parseHexColor hex).1.
Proof.
  unfold color_or_black.
  destruct (parseHexColor hex).2 eqn:Hok; [reflexivity |].
  rewrite (parseHexColor_error_zero hex Hok). reflexivity.
Qed.

(** X15. [BuildPalette] drops the error of [parseHexColor]: a configured
    colour that is no colour (a name, three digits, a stray character)
    gives the palette that black gives in its place, without a report. *)
Theorem BuildPalette_reads_bad_colour_as_black :
  forall (cfg : ColorConfig) (markerOpacity : float),
    BuildPalette cfg markerOpacity =
    BuildPalette
      {| Black := color_or_black (Black cfg);
         DarkGray := color_or_black (DarkGray cfg);
         LightGray := color_or_black (LightGray cfg);
         White := color_or_black (White cfg) |} markerOpacity.
Proof.
  intros cfg markerOpacity. unfold BuildPalette.
  cbn [Black DarkGray LightGray White].
  rewrite !parseHexColor_color_or_black. reflexivity.
Qed.

Lemma BuildPalette_reads_bad_colour_as_black_witness :
  BuildPalette {| Black := B "#000000"; DarkGray := B "#9D9D9D";
                  LightGray := B "#C9C9C9"; White := B "white" |} 0x1p-1
  = BuildPalette {| Black := B "#000000"; DarkGray := B "#9D9D9D";
                    LightGray := B "#C9C9C9"; White := B "#000000" |} 0x1p-1.
Proof.
  exact (BuildPalette_reads_bad_colour_as_black
           {| Black := B "#000000"; DarkGray := B "#9D9D9D";
              LightGray := B "#C9C9C9"; White := B "white" |} 0x1p-1).
Defined.

(** ** Colour groups and the palette *)

(** The entries of the pen codes, with the interpolated entries left
    symbolic. *)
Lemma pen_entries (g1 g2 g3 : Z -> rgb) :
  let colors :=
    foldl (fun colors j => <[Z.to_nat j := g3 j]> colors)
      (foldl (fun colors j => <[Z.to_nat j := g2 j]> colors)
         (foldl (fun colors j => <[Z.to_nat j := g1 j]> colors)
            (replicate 256 (x00, x00, x00)) (seqZ 0 (157 - 0 + 1)))
         (seqZ 157 (201 - 157 + 1)))
      (seqZ 201 (255 - 201 + 1)) in
  let colors := alias 0x61 0 colors in
  let colors := alias 0x63 157 colors in
  let colors := alias 0x64 201 colors in
  let colors := alias 0x65 255 colors in
  let colors := alias 0x66 0 colors in
  let colors := alias 0x67 157 colors in
  let colors := alias 0x68 201 colors in
  let colors := alias 0x9d 157 colors in
  let colors := alias 0x9e 157 colors in
  let colors := alias 0xc9 201 colors in
  let colors := alias 0xca 201 colors in
  length colors = 256%nat
  /\ (color_at colors (u8 x00) = g1 0 /\ color_at colors (u8 x61) = g1 0
      /\ color_at colors (u8 x66) = g1 0)
  /\ (color_at colors (u8 x63) = g2 157 /\ color_at colors (u8 x9d) = g2 157
      /\ color_at colors (u8 x9e) = g2 157 /\ color_at colors (u8 x67) = g2 157)
  /\ (color_at colors (u8 x64) = g3 201 /\ color_at colors (u8 xc9) = g3 201
      /\ color_at colors (u8 xca) = g3 201 /\ color_at colors (u8 x68) = g3 201)
  /\ color_at colors (u8 x65) = g3 255 /\ color_at colors (u8 xff) = g3 255.
Proof. vm_compute. repeat split; reflexivity. Qed.

Lemma BuildPalette_pen_entries cfg markerOpacity :
  let colors := Colors (BuildPalette cfg markerOpacity) in
  let black := (parseHexColor (Black cfg)).1 in
  let dark := (parseHexColor (DarkGray cfg)).1 in
  let light := (parseHexColor (LightGray cfg)).1 in
  let white := (parseHexColor (White cfg)).1 in
  length colors = 256%nat
  /\ (color_at colors (u8 x00) = black /\ color_at colors (u8 x61) = black
      /\ color_at colors (u8 x66) = black)
  /\ (color_at colors (u8 x63) = dark /\ color_at colors (u8 x9d) = dark
      /\ color_at colors (u8 x9e) = dark /\ color_at colors (u8 x67) = dark)
  /\ (color_at colors (u8 x64) = light /\ color_at colors (u8 xc9) = light
      /\ color_at colors (u8 xca) = light /\ color_at colors (u8 x68) = light)
  /\ color_at colors (u8 x65) = white /\ color_at colors (u8 xff) = white.
Proof.
  intros colors c0 c1 c2 c3. subst colors.
  pose proof (palette_entry_start 0 157 c0 c1 eq_refl) as H0.
  pose proof (palette_entry_start 157 201 c1 c2 eq_refl) as H157.
  pose proof (palette_entry_start 201 255 c2 c3 eq_refl) as H201.
  pose proof (palette_entry_end 201 255 c2 c3 eq_refl) as H255.
  pose proof (pen_entries (palette_entry (Anchor 0 c0) (Anchor 157 c1))
                (palette_entry (Anchor 157 c1) (Anchor 201 c2))
                (palette_entry (Anchor 201 c2) (Anchor 255 c3))) as H.
  cbv zeta in H. rewrite H0, H157, H201, H255 in H. exact H.
Qed.

Lemma alpha_entries (m code : byte) :
  alpha_at
    (<[Z.to_nat 0x68 := m]>
       (<[Z.to_nat 0x67 := m]> (<[Z.to_nat 0x66 := m]> (replicate 256 xff))))
    (u8 code)
  = match code with x66 | x67 | x68 => m | _ => xff end.
Proof. destruct code; reflexivity. Qed.

Lemma BuildPalette_alphas cfg markerOpacity code :
  alpha_at (Alphas (BuildPalette cfg markerOpacity)) (u8 code)
  = match code with
    | x66 | x67 | x68 => marker_alpha markerOpacity
    | _ => xff
    end.
Proof. exact (alpha_entries (marker_alpha markerOpacity) code). Qed.

(** X16. The colour groups of the tracer agree with the palette: every code
    that [canonicalGroup] puts into a group that is drawn (0, 1, 2 for the
    pens, 4, 5, 6 for the markers) has, in every palette [BuildPalette]
    makes, the colour and the alpha of the palette index that
    [groupPaletteIdx] gives for the group; and that colour is the
    configured black, dark gray or light gray of the tone. Tracing a group
    as one layer loses no colour. *)
Theorem canonicalGroup_codes_share_palette_entry :
  forall (cfg : ColorConfig) (markerOpacity : float) (code : byte),
    0 <= canonicalGroup code -> canonicalGroup code <> 3 ->
    let p := BuildPalette cfg markerOpacity in
    let g := canonicalGroup code in
    let idx := group_index g in
    canonicalGroup idx = g
    /\ color_at (Colors p) (u8 code) = color_at (Colors p) (u8 idx)
    /\ alpha_at (Alphas p) (u8 code) = alpha_at (Alphas p) (u8 idx)
    /\ color_at (Colors p) (u8 code) =
       (match g with
        | 0 | 4 => parseHexColor (Black cfg)
        | 1 | 5 => parseHexColor (DarkGray cfg)
        | _ => parseHexColor (LightGray cfg)
        end).1.
Proof.
  intros cfg markerOpacity code Hdrawn Hwhite p g idx. subst p g idx.
  rewrite !BuildPalette_alphas.
  destruct (BuildPalette_pen_entries cfg markerOpacity)
    as (_ & (E00 & E61 & E66) & (E63 & E9d & E9e & E67)
        & (E64 & Ec9 & Eca & E68) & _).
  cbv zeta in *.
  destruct code; cbn [canonicalGroup] in Hdrawn, Hwhite |- *;
    try lia; try (exfalso; apply Hwhite; reflexivity);
    try change (group_index 0) with x00;
    try change (group_index 1) with x9d;
    try change (group_index 2) with xc9;
    try change (group_index 4) with x66;
    try change (group_index 5) with x67;
    try change (group_index 6) with x68;
    cbn [canonicalGroup];
    rewrite ?E00, ?E61, ?E66, ?E63, ?E9d, ?E9e, ?E67, ?E64, ?Ec9, ?Eca, ?E68;
    repeat split; reflexivity.
Qed.

Lemma canonicalGroup_codes_share_palette_entry_witness :
  let p := BuildPalette sample_colors 0x1p-1 in
  canonicalGroup x9d = 1
  /\ color_at (Colors p) (u8 x9e) = color_at (Colors p) (u8 x9d)
  /\ alpha_at (Alphas p) (u8 x9e) = alpha_at (Alphas p) (u8 x9d)
  /\ color_at (Colors p) (u8 x9e) = (parseHexColor (B "#9D9D9D")).1.
Proof.
  exact (canonicalGroup_codes_share_palette_entry sample_colors 0x1p-1 x9e
           ltac:(cbn; lia) ltac:(cbn; lia)).
Defined.


(** ** Path trees *)

(** Induction on a path tree: the children of a path are trees for which
    the property holds. *)
Lemma TracedPath_ind (P : TracedPath -> Prop) :
  (forall curve childs, Forall P childs -> P (MkPath curve childs)) ->
  forall p, P p.
Proof.
  intros Hstep.
  fix IH 1. intros [curve childs]. apply Hstep.
  induction childs as [| child childs IHchilds]; constructor.
  - apply IH.
  - exact IHchilds.
Qed.

Section PathTreeFacts.
Variable appendFloat4 : float -> list byte.
Variables sx sy pageHeightPt : float.

Local Abbreviation subpath buf p :=
  (appendPDFSubpath appendFloat4 buf p sx sy pageHeightPt).
Local Abbreviation tree buf p :=
  (appendPDFSubpathTree appendFloat4 buf p sx sy pageHeightPt).

Lemma foldl_append {A} (f : A -> list byte) items : forall buf,
  foldl (fun buf x => buf ++ f x) buf items = buf ++ concat (map f items).
Proof.
  induction items as [| x items IH]; intros buf; cbn.
  - rewrite app_nil_r. reflexivity.
  - rewrite IH, <- app_assoc. reflexivity.
Qed.

Lemma appendPDFSubpath_appends buf p : subpath buf p = buf ++ subpath [] p.
Proof.
  unfold appendPDFSubpath. destruct (Curve p) as [| first rest];
    [rewrite app_nil_r; reflexivity |].
  cbv zeta. rewrite !foldl_append. cbn [app]. rewrite <- !app_assoc.
  reflexivity.
Qed.

Lemma appendPDFSubpathTree_preorder p : forall buf,
  tree buf p = buf ++ concat (map (fun q => subpath [] q) (preorder p)).
Proof.
  induction p as [curve childs IH] using TracedPath_ind. intros buf.
  cbn [appendPDFSubpathTree preorder Childs map concat].
  rewrite (appendPDFSubpath_appends buf), app_assoc.
  generalize (buf ++ subpath [] (MkPath curve childs)). clear buf.
  induction IH as [| child childs Hchild _ IHchilds]; intros acc.
  - cbn. rewrite app_nil_r. reflexivity.
  - rewrite Hchild, IHchilds, map_app, concat_app, app_assoc. reflexivity.
Qed.
End PathTreeFacts.

(** X18. [appendPDFSubpathTree] only appends, and what it appends for a
    path is the subpath of the path itself followed by the whole tree of
    each child in turn, depth first. The subpath of a path without
    segments is empty; any other starts with the move to the end point of
    its last segment, goes on with the operators of its segments in order
    and ends with the closing "h". *)
Theorem appendPDFSubpathTree_parent_then_children :
  forall (appendFloat4 : float -> list byte) (sx sy pageHeightPt : float)
         (buf : list byte) (p : TracedPath),
    let subpath q := appendPDFSubpath appendFloat4 [] q sx sy pageHeightPt in
    appendPDFSubpathTree appendFloat4 buf p sx sy pageHeightPt =
      buf ++ concat (map subpath (preorder p))
    /\ subpath p =
       match Curve p with
       | [] => []
       | first :: _ =>
           let last := List.last (Curve p) first in
           appendFloat4 (pt_X (Pnt2 last) * sx)%float ++ B " "
           ++ appendFloat4 (pageHeightPt - pt_Y (Pnt2 last) * sy)%float
           ++ B " m" ++ LF
           ++ concat (map (segment_ops appendFloat4 sx sy pageHeightPt)
                          (Curve p))
           ++ B "h" ++ LF
       end.
Proof.
  intros appendFloat4 sx sy pageHeightPt buf p subpath. split.
  - apply appendPDFSubpathTree_preorder.
  - unfold subpath, appendPDFSubpath.
    destruct (Curve p) as [| first rest]; [reflexivity |].
    cbv zeta. rewrite foldl_append. cbn [app]. rewrite <- !app_assoc.
    reflexivity.
Qed.

(** A contour with a hole that holds an island: the three subpaths come
    parent first, then the hole, then the island inside it, then the second
    child. *)
Example preorder_nested (a b c d : list Segment) :
  preorder (MkPath a [MkPath b [MkPath c []]; MkPath d []])
  = [MkPath a [MkPath b [MkPath c []]; MkPath d []];
     MkPath b [MkPath c []]; MkPath c []; MkPath d []].
Proof. reflexivity. Qed.

(** ** Visible pixels *)

Lemma hasVisiblePixels_spec rgba :
  hasVisiblePixels rgba = true <->
  exists (k : nat) (a : byte), rgba !! (4 * k + 3)%nat = Some a /\ a <> x00.
Proof.
  induction rgba as [rgba IH] using (induction_ltof1 _ (@length byte)).
  unfold ltof in IH.
  destruct rgba as [| a0 [| a1 [| a2 [| a rest]]]];
    try (cbn [hasVisiblePixels]; split; [discriminate |];
         intros (k & a & Hk & _);
         apply lookup_lt_Some in Hk; cbn in Hk; lia).
  cbn [hasVisiblePixels].
  destruct (Byte.eqb a x00) eqn:Ha; cbn [negb].
  - apply byte_eqb_eq in Ha. subst a.
    rewrite (IH rest) by (cbn; lia). split.
    + intros (k & a & Hk & Hne). exists (S k), a. split; [| exact Hne].
      replace (4 * S k + 3)%nat with (S (S (S (S (4 * k + 3))))) by lia.
      exact Hk.
    + intros (k & a & Hk & Hne). destruct k as [| k].
      * cbn in Hk. injection Hk as <-. contradiction.
      * exists k, a. split; [| exact Hne].
        replace (4 * S k + 3)%nat with (S (S (S (S (4 * k + 3))))) in Hk
          by lia.
        exact Hk.
  - apply byte_eqb_neq in Ha. split; [intros _ | reflexivity].
    exists 0%nat, a. split; [reflexivity | exact Ha].
Qed.

(** X19. [hasVisiblePixels] is true exactly when some pixel of the RGBA
    raster has an alpha byte that is not zero; bytes behind the last whole
    pixel are not looked at. So it is false on the zeroed raster a page
    starts from, and true as soon as [fillRGBA] has written one pixel with
    an alpha that is not zero. *)
Theorem hasVisiblePixels_iff_some_alpha :
  forall rgba : list byte,
    (hasVisiblePixels rgba = true <->
     exists (k : nat) (a : byte),
       rgba !! (4 * k + 3)%nat = Some a /\ a <> x00)
    /\ (forall n : nat, hasVisiblePixels (replicate n x00) = false)
    /\ (forall (pixels pos count : Z) (r g b alpha : byte),
          len rgba = 4 * pixels -> pixels <= 2 ^ 60 ->
          0 <= pos < pixels -> 0 < count -> pos + count <= 2 ^ 60 ->
          alpha <> x00 ->
          exists out,
            fillRGBA rgba pos count r g b alpha = Returns out
            /\ hasVisiblePixels out = true).
Proof.
  intros rgba. split; [apply hasVisiblePixels_spec |]. split.
  - intros n. destruct (hasVisiblePixels (replicate n x00)) eqn:Hvis;
      [| reflexivity].
    apply hasVisiblePixels_spec in Hvis as (k & a & Hk & Hne).
    apply lookup_replicate in Hk as [-> _]. contradiction.
  - intros pixels pos count r g b alpha Hlen Hpix Hpos Hcount Hsum Halpha.
    rewrite (fillRGBA_clamped rgba pixels) by lia. cbv zeta.
    eexists. split; [reflexivity |].
    apply hasVisiblePixels_spec. exists (Z.to_nat pos), alpha.
    split; [| exact Halpha].
    pose proof (written_lookup [r; g; b; alpha] rgba (Z.to_nat pos)
                  (Z.to_nat (Z.min count (pixels - pos))) (Z.to_nat pos) 3)
      as Hlook.
    cbn [length] in Hlook. cbv zeta in Hlook.
    rewrite Nat.mul_add_distr_l in Hlook. rewrite Hlook.
    + destruct (Nat.leb_spec (Z.to_nat pos) (Z.to_nat pos)); [| lia].
      destruct (Nat.ltb_spec (Z.to_nat pos)
                  (Z.to_nat pos + Z.to_nat (Z.min count (pixels - pos))));
        [reflexivity | lia].
    + unfold len in Hlen. lia.
    + lia.
Qed.

(** ** The links of a notebook *)

Lemma page_links_snoc links nl totalPages scale pageHeightPt :
  page_links (links ++ [nl]) totalPages scale pageHeightPt =
  let pageLinks := page_links links totalPages scale pageHeightPt in
  if negb (SameFile nl) || (nl_DestPage nl <? 0)
     || (nl_DestPage nl >=? totalPages)
  then pageLinks
  else
    <[SourcePage nl :=
        default [] (pageLinks !! SourcePage nl)
        ++ [{| Rect := ((f64 (nl_X nl) * scale)%float,
                        (pageHeightPt
                         - f64 (addi (nl_Y nl) (nl_H nl)) * scale)%float,
                        (f64 (addi (nl_X nl) (nl_W nl)) * scale)%float,
                        (pageHeightPt - f64 (nl_Y nl) * scale)%float);
               DestPage := nl_DestPage nl |}]]> pageLinks.
Proof. unfold page_links. rewrite foldl_app. reflexivity. Qed.

Lemma link_kept_spec totalPages nl :
  negb (SameFile nl) || (nl_DestPage nl <? 0) || (nl_DestPage nl >=? totalPages)
  = negb (link_kept totalPages nl).
Proof.
  unfold link_kept. destruct (SameFile nl); [| reflexivity].
  destruct (Z.ltb_spec (nl_DestPage nl) 0), (Z.leb_spec 0 (nl_DestPage nl)),
    (Z.geb_spec (nl_DestPage nl) totalPages),
    (Z.ltb_spec (nl_DestPage nl) totalPages);
    try reflexivity; lia.
Qed.

Lemma page_links_destinations links totalPages scale pageHeightPt page :
  map DestPage
    (default [] (page_links links totalPages scale pageHeightPt !! page))
  = map nl_DestPage
      (List.filter (fun nl => link_kept totalPages nl
                              && (SourcePage nl =? page)) links).
Proof.
  induction links as [| nl links IH] using rev_ind; [reflexivity |].
  rewrite page_links_snoc, List.filter_app, map_app, <- IH. cbv zeta.
  rewrite link_kept_spec. cbn [List.filter].
  destruct (link_kept totalPages nl); cbn [negb andb].
  - destruct (Z.eqb_spec (SourcePage nl) page) as [-> | Hne].
    + rewrite lookup_insert_eq. cbn [from_option]. unfold Datatypes.id at 1.
      rewrite map_app. reflexivity.
    + rewrite lookup_insert_ne by exact Hne. cbn [map].
      rewrite app_nil_r. reflexivity.
  - cbn [map]. rewrite app_nil_r. reflexivity.
Qed.


(** ** Graphics states and the objects of a page *)

Section GraphicsStates.
Variable Path : Type.
Implicit Types (cl : colorLayer Path) (layers : list (colorLayer Path)).

Lemma collect_gs_fold layers :
  collect_gs layers = foldl collect_gs_step ([], ∅) layers.
Proof.
  unfold collect_gs. generalize (@nil gsEntry, (∅ : gmap byte (list byte))).
  induction layers as [| cl layers IH]; intros acc; [reflexivity |].
  cbn [foldl]. rewrite IH. destruct acc as [entries gsMap]. reflexivity.
Qed.

Lemma gs_entry_of_alpha entries a :
  In a (map gs_alpha entries) ->
  exists (k : nat) (e : gsEntry), entries !! k = Some e /\ gs_alpha e = a.
Proof.
  intros Hin. apply in_map_iff in Hin as (e & Ha & He).
  apply list_elem_of_In, list_elem_of_lookup in He as [k Hk]. eauto.
Qed.

Lemma collect_gs_step_consistent entries gsMap cl :
  gs_consistent entries gsMap ->
  let r := collect_gs_step (entries, gsMap) cl in
  gs_consistent r.1 r.2
  /\ forall a, In a (map gs_alpha r.1) <->
               In a (map gs_alpha entries)
               \/ (a = cl_alpha cl /\ u8 a < 255).
Proof.
  intros (Hnd & Hentry & Hdom). unfold collect_gs_step.
  destruct (Z.ltb_spec (u8 (cl_alpha cl)) 255) as [Hmarker | Hink].
  - destruct (gsMap !! cl_alpha cl) as [name |] eqn:Hlook; cbn [fst snd].
    + split; [split; [| split]; assumption |].
      intros a. split; [auto |]. intros [Hin | [-> _]]; [exact Hin |].
      apply Hdom. rewrite Hlook. eauto.
    + assert (Hnew : ~ In (cl_alpha cl) (map gs_alpha entries)).
      { intros Hin. apply gs_entry_of_alpha in Hin as (k & e & Hk & He).
        destruct (Hentry k e Hk) as (_ & Hfound & _).
        rewrite He, Hlook in Hfound. discriminate Hfound. }
      split; [split; [| split] |].
      * rewrite map_app. cbn [map gs_alpha].
        apply NoDup_app. split; [exact Hnd |]. split; [| apply NoDup_singleton].
        intros a Ha Hin. apply list_elem_of_singleton in Hin. subst a.
        apply Hnew, list_elem_of_In, Ha.
      * intros k e Hk.
        destruct (Nat.lt_ge_cases k (length entries)) as [Hold | Hlast].
        -- rewrite lookup_app_l in Hk by exact Hold.
           destruct (Hentry k e Hk) as (Hname & Hfound & Hlt).
           split; [exact Hname |]. split; [| exact Hlt].
           rewrite lookup_insert_ne; [exact Hfound |].
           intros Heq. apply Hnew. rewrite Heq. apply in_map.
           apply list_elem_of_In, list_elem_of_lookup. eauto.
        -- rewrite lookup_app_r in Hk by exact Hlast.
           destruct (k - length entries)%nat as [| ?] eqn:Hidx;
             [| discriminate Hk].
           injection Hk as <-. cbn [gs_name gs_alpha].
           rewrite lookup_insert_eq.
           replace (Z.of_nat k) with (len entries) by (unfold len; lia).
           auto.
      * intros a Ha. rewrite map_app, in_app_iff. cbn [map gs_alpha In].
        destruct (decide (cl_alpha cl = a)) as [-> | Hne]; [auto |].
        rewrite lookup_insert_ne in Ha by exact Hne. left. apply Hdom, Ha.
      * intros a. rewrite map_app, in_app_iff. cbn [map gs_alpha In].
        split.
        -- intros [Hin | [<- | []]]; [left; exact Hin | right; auto].
        -- intros [Hin | [-> _]]; [left; exact Hin | right; left; reflexivity].
  - cbn [fst snd]. split; [split; [| split]; assumption |].
    intros a. split; [auto |]. intros [Hin | [-> Hlt]]; [exact Hin | lia].
Qed.

Lemma collect_gs_fold_consistent layers : forall entries gsMap,
  gs_consistent entries gsMap ->
  let r := foldl collect_gs_step (entries, gsMap) layers in
  gs_consistent r.1 r.2
  /\ forall a, In a (map gs_alpha r.1) <->
               In a (map gs_alpha entries)
               \/ exists cl, In cl layers /\ cl_alpha cl = a /\ u8 a < 255.
Proof.
  induction layers as [| cl layers IH]; intros entries gsMap Hok.
  - cbn. split; [exact Hok |]. intros a. split; [auto |].
    intros [Hin | (cl & [] & _)]. exact Hin.
  - cbn [foldl].
    destruct (collect_gs_step_consistent entries gsMap cl Hok) as [Hstep Hmem].
    destruct (collect_gs_step (entries, gsMap) cl) as [entries' gsMap'].
    cbn [fst snd] in Hstep, Hmem.
    destruct (IH entries' gsMap' Hstep) as [Hfinal Hall].
    split; [exact Hfinal |]. intros a. rewrite Hall, Hmem. cbn [In]. split.
    + intros [[Hin | [-> Hlt]] | (cl' & Hcl' & Ha & Hlt)]; eauto 6.
    + intros [Hin | (cl' & [<- | Hcl'] & Ha & Hlt)]; eauto 6.
Qed.

End GraphicsStates.

(** ** The objects of a page, counted *)

Section ChunkShape.
Variable Path : Type.
Variable fmt2 fmt4 : float -> list byte.
Variable appendFloat4 : float -> list byte.
Variable appendPDFSubpathTree : Path -> float -> float -> float -> list byte.
Variable compressZlib : list byte -> option (list byte).

Local Abbreviation chunk_of :=
  (buildVectorPageChunk fmt2 fmt4 appendFloat4 appendPDFSubpathTree
     compressZlib).

(** The first object of a chunk is the page, under the id [objStart]; the
    contents follow, then one object for each graphics state, then the
    image when the page has a background or the fallback is asked for. *)
Lemma chunk_shape layers bg width height pw ph links objStart ocr :
  let result := chunk_of layers bg width height pw ph links objStart ocr in
  let states := (collect_gs layers).1 in
  let image := match bg with Some _ => true | None => ocr end in
  result.2 = 2 + len states + (if image then 1 else 0)
  /\ exists pageRest contents gsObjects img,
       objects result.1 =
         {| id := objStart;
            data := itoa objStart ++ B " 0 obj" ++ LF
                    ++ B "<< /Type /Page" ++ LF ++ pageRest |}
         :: contents :: gsObjects ++ img
       /\ id contents = objStart + 1
       /\ length gsObjects = length states
       /\ length img = if image then 1%nat else 0%nat.
Proof.
  unfold buildVectorPageChunk.
  pose proof (collect_gs_NoDup Path layers) as Hnd.
  destruct (collect_gs layers) as [entries gsMap]. cbn [fst] in Hnd.
  pose proof (assign_gs_ids_invariant objStart entries ∅ 2 Hnd) as Hgs.
  cbn zeta in Hgs. fold (assign_gs_ids objStart entries) in Hgs.
  destruct (assign_gs_ids objStart entries) as [ids n].
  cbn [fst snd] in Hgs. destruct Hgs as (Hn & _ & _).
  destruct bg as [raw |]; [| destruct ocr]; cbn zeta; cbn [fst snd].
  - split; [lia |].
    eexists _, _, (map (gs_object fmt4 ids) entries), [_].
    split; [reflexivity |].
    split; [reflexivity |]. split; [apply length_map | reflexivity].
  - split; [lia |].
    eexists _, _, (map (gs_object fmt4 ids) entries), [_].
    split; [reflexivity |].
    split; [reflexivity |]. split; [apply length_map | reflexivity].
  - split; [lia |].
    eexists _, _, (map (gs_object fmt4 ids) entries), [].
    split; [reflexivity |].
    split; [reflexivity |]. split; [apply length_map | reflexivity].
Qed.

(** X22. The objects of a page: [buildVectorPageChunk] returns the number
    of objects it made, which is two, for the page and its contents, plus
    one for each distinct alpha below 255 among the layers, plus one for
    the image when the page has a background or the white fallback is
    asked for. Their ids are [objStart], [objStart + 1], ... without a
    gap, and the object under [objStart] is the /Type /Page object. *)
Theorem buildVectorPageChunk_objects :
  forall (layers : list (colorLayer Path)) (bg : option (list byte))
         (width height : Z) (pw ph : float) (links : list pdfLink)
         (objStart : Z) (ocr : bool),
    let result := chunk_of layers bg width height pw ph links objStart ocr in
    let states := (collect_gs layers).1 in
    let image := match bg with Some _ => true | None => ocr end in
    result.2 = 2 + len states + (if image then 1 else 0)
    /\ len (objects result.1) = result.2
    /\ map id (objects result.1) = seqZ objStart result.2
    /\ exists page rest,
         objects result.1 = page :: rest
         /\ id page = objStart
         /\ exists more,
              data page = itoa objStart ++ B " 0 obj" ++ LF
                          ++ B "<< /Type /Page" ++ LF ++ more.
Proof.
  intros layers bg width height pw ph links objStart ocr.
  pose proof (chunk_shape layers bg width height pw ph links objStart ocr)
    as Hshape.
  pose proof (chunk_structure Path fmt2 fmt4 appendFloat4 appendPDFSubpathTree
                compressZlib layers bg width height pw ph links objStart ocr)
    as Hids.
  cbv zeta in *.
  destruct Hshape as (Hcount & pageRest & contents & gsObjects & img & Hobjs & _).
  destruct Hids as (Hnum & Hseq & _).
  split; [exact Hcount |]. split; [symmetry; exact Hnum |].
  split; [exact Hseq |].
  rewrite Hobjs. do 2 eexists. split; [reflexivity |].
  split; [reflexivity |]. eexists. reflexivity.
Qed.
End ChunkShape.

(** ** The page objects of a notebook *)

Lemma page_ids_from_snoc chunks : forall start chunk,
  page_ids_from start (chunks ++ [chunk]) =
  page_ids_from start chunks ++ [start + len (concat (map objects chunks))].
Proof.
  induction chunks as [| c chunks IH]; intros start chunk.
  - cbn. f_equal. unfold len. cbn. lia.
  - cbn [app page_ids_from map concat]. rewrite IH, len_app.
    cbn [app]. do 3 f_equal. lia.
Qed.

Section NotePages.
Variable Path : Type.
Variable fmt2 fmt4 : float -> list byte.
Variable appendFloat4 : float -> list byte.
Variable appendPDFSubpathTree : Path -> float -> float -> float -> list byte.
Variable compressZlib : list byte -> option (list byte).

Local Abbreviation build_page' :=
  (build_page Path fmt2 fmt4 appendFloat4 appendPDFSubpathTree compressZlib).

Lemma build_page_pages width height pw ph pageLinks st ir :
  pages_allocated st ->
  pages_allocated (build_page' width height pw ph pageLinks st ir).
Proof.
  intros (Hnext & Hids & Hpages). destruct ir as [i r]. unfold build_page.
  pose proof (buildVectorPageChunk_objects Path fmt2 fmt4 appendFloat4
                appendPDFSubpathTree compressZlib (colorLayers r) (bgRGB r)
                width height pw ph (default [] (pageLinks !! Z.of_nat i))
                (nextObjID st) true) as Hchunk.
  cbv zeta in Hchunk.
  destruct (buildVectorPageChunk _ _ _ _ _ _ _ _ _ _ _ _ _ _)
    as [chunk numObjs].
  cbn [fst snd] in Hchunk.
  destruct Hchunk as (Hcount & Hlen & _ & page & rest & Hobjs & Hid & more & Hdata).
  assert (Hthree : 3 <= numObjs).
  { pose proof (len_nonneg (collect_gs (colorLayers r)).1).
    destruct (bgRGB r); lia. }
  unfold pages_allocated. cbn [nextObjID pageObjIDs chunks].
  split; [| split].
  - rewrite map_app, concat_app, len_app. cbn [map concat].
    rewrite app_nil_r. lia.
  - rewrite page_ids_from_snoc, <- Hids. do 2 f_equal. exact Hnext.
  - apply Forall2_app; [exact Hpages |].
    constructor; [| constructor].
    split; [lia |]. exists page, rest, more. auto.
Qed.

Lemma build_pages_pages width height pw ph pageLinks irs : forall st,
  pages_allocated st ->
  pages_allocated (foldl (build_page' width height pw ph pageLinks) st irs)
  /\ length (chunks (foldl (build_page' width height pw ph pageLinks) st irs))
     = (length (chunks st) + length irs)%nat.
Proof.
  induction irs as [| ir irs IH]; intros st Hst.
  - cbn. split; [exact Hst | lia].
  - cbn [foldl].
    destruct (IH _ (build_page_pages width height pw ph pageLinks st ir Hst))
      as [Hall Hlen].
    split; [exact Hall |]. rewrite Hlen. destruct ir as [i r].
    unfold build_page.
    destruct (buildVectorPageChunk _ _ _ _ _ _ _ _ _ _ _ _ _ _).
    cbn [chunks length]. rewrite length_app. cbn [length]. lia.
Qed.

(** X23. The pages of a notebook: [ConvertNoteToPDFVector] makes one chunk
    for each rendered page, in the order of the pages. The id noted for
    page k, the one listed in /Kids, is the id of the first object of
    chunk k, and that object is its /Type /Page object. The first page has id 3, and the id of each page
    after that is the id of the page before plus the number of objects of
    that page, which is at least three since every page of a notebook has
    an image. *)
Theorem build_note_page_objects :
  forall (width height : Z) (ppi : float) (links : list NoteLink)
         (results : list (pageResult Path)),
    let st := build_note Path fmt2 fmt4 appendFloat4 appendPDFSubpathTree
                compressZlib width height ppi links results in
    length (chunks st) = length results
    /\ pageObjIDs st = page_ids_from 3 (chunks st)
    /\ Forall2 page_of_chunk (pageObjIDs st) (chunks st).
Proof.
  intros width height ppi links results. unfold build_note, build_pages.
  set (start := {| nextObjID := 3; pageObjIDs := []; chunks := [] |}).
  assert (Hstart : pages_allocated start).
  { unfold pages_allocated. cbn. repeat split. constructor. }
  match goal with
  | |- context [foldl ?f start ?irs] =>
      destruct (build_pages_pages width height
                  (f64 width / ppi * 72)%float (f64 height / ppi * 72)%float
                  (page_links links (len results) (72 / ppi)%float
                     (f64 height / ppi * 72)%float)
                  irs start Hstart) as [(_ & Hids & Hpages) Hlen]
  end.
  cbv zeta. split; [| split; assumption].
  rewrite Hlen. cbn [start chunks length]. rewrite length_imap. reflexivity.
Qed.
End NotePages.

(** ** From the code map to the layers *)

Lemma copy_within_length buf dlo dhi slo shi out :
  copy_within buf dlo dhi slo shi = Returns out -> length out = length buf.
Proof.
  unfold copy_within, slice_ok.
  destruct (_ && _) eqn:Hok; [| discriminate].
  intros [= <-]. unfold len in Hok.
  rewrite !length_app, !length_take, !length_drop. lia.
Qed.

Lemma code_map_loop_fillCodes_loop : forall fuel codeMap filled,
  0 <= filled -> len codeMap <= 2 ^ 62 ->
  code_map_loop fuel codeMap filled =
  fillCodes_loop fuel codeMap 0 (len codeMap) filled.
Proof.
  induction fuel as [| fuel IH]; intros codeMap filled Hfilled Hlen.
  all: pose proof (len_nonneg codeMap) as Hnn.
  all: cbn [code_map_loop fillCodes_loop].
  all: replace (subi (len codeMap) 0) with (len codeMap)
         by (unfold subi; rewrite int_wrap_small by lia; lia).
  all: destruct (Z.ltb_spec filled (len codeMap)) as [Hlt | Hge];
         [| reflexivity].
  - reflexivity.
  - replace (addi 0 filled) with filled
      by (unfold addi; rewrite int_wrap_small by lia; lia).
    destruct (copy_within codeMap filled (len codeMap) 0 filled)
      as [out | |] eqn:Hcopy; cbn [exec_bind]; [| reflexivity | reflexivity].
    apply copy_within_length in Hcopy.
    assert (Hout : len out = len codeMap) by (unfold len; lia).
    rewrite IH.
    + rewrite Hout. reflexivity.
    + unfold muli. rewrite int_wrap_small by lia. lia.
    + lia.
Qed.

Lemma store_length buf i v out :
  store buf i v = Returns out -> length out = length buf.
Proof.
  unfold store. destruct (_ && _); [| discriminate].
  intros [= <-]. apply length_insert.
Qed.

Lemma init_code_map_fillCodes width height :
  0 < muli width height <= 2 ^ 62 ->
  init_code_map width height =
  fillCodes (replicate (Z.to_nat (muli width height)) x00) 0
            (muli width height) xff.
Proof.
  intros Hn. unfold init_code_map, fillCodes. cbv zeta.
  set (n := muli width height) in *.
  set (buf := replicate (Z.to_nat n) x00).
  assert (Hbuf : len buf = n)
    by (unfold len, buf; rewrite length_replicate; lia).
  replace (addi 0 n) with n
    by (unfold addi; rewrite int_wrap_small by lia; lia).
  rewrite Hbuf, Z.min_id.
  destruct (Z.ltb_spec n 0) as [Hneg | _]; [lia |].
  destruct (Z.geb_spec 0 n) as [Hge | _]; [lia |].
  destruct (store buf 0 xff) as [out | |] eqn:Hstore; cbn [exec_bind];
    [| reflexivity | reflexivity].
  apply store_length in Hstore.
  assert (Hout : len out = n) by (unfold len in *; lia).
  rewrite code_map_loop_fillCodes_loop by lia. rewrite Hout. reflexivity.
Qed.

(** X24. The code map of a page: [renderContentColorLayers] starts from a
    map of [width * height] bytes that are all 0xFF, the code of the
    paper, for every page of up to 2^62 pixels. On a page without pixels
    it panics, at the store into the first byte or in [make]. *)
Theorem init_code_map_all_paper :
  forall width height : Z,
    (muli width height <= 0 -> init_code_map width height = Panics)
    /\ (0 < muli width height <= 2 ^ 62 ->
        init_code_map width height =
        Returns (replicate (Z.to_nat (muli width height)) xff)).
Proof.
  intros width height. split.
  - intros Hn. unfold init_code_map. cbv zeta.
    destruct (Z.ltb_spec (muli width height) 0) as [Hneg | Hnn];
      [reflexivity |].
    replace (muli width height) with 0 by lia. reflexivity.
  - intros Hn. rewrite init_code_map_fillCodes by exact Hn.
    rewrite fillCodes_clamped by
      (try (unfold len; rewrite length_replicate); lia).
    cbv zeta. unfold len. rewrite length_replicate.
    replace (Z.to_nat (Z.min (muli width height)
                         (Z.of_nat (Z.to_nat (muli width height)) - 0)))
      with (Z.to_nat (muli width height)) by lia.
    cbn [Z.to_nat take app Nat.add].
    rewrite drop_ge by (rewrite length_replicate; lia).
    apply f_equal. apply app_nil_r.
Qed.

Lemma canonicalGroup_range code :
  canonicalGroup code = -1 \/ 0 <= canonicalGroup code < 7.
Proof. destruct code; cbn [canonicalGroup]; lia. Qed.

Lemma group_present_snoc g seen code :
  group_present g (seen ++ [code]) =
  group_present g seen || (canonicalGroup code =? g).
Proof.
  unfold group_present. rewrite existsb_app. cbn [existsb].
  rewrite orb_false_r. reflexivity.
Qed.

Lemma group_mask_snoc g seen code :
  group_mask g (seen ++ [code]) =
  group_mask g seen ++ [if canonicalGroup code =? g then x00 else xff].
Proof. unfold group_mask. rewrite map_app. reflexivity. Qed.

Lemma group_mask_absent g seen :
  group_present g seen = false ->
  group_mask g seen = replicate (length seen) xff.
Proof.
  induction seen as [| code seen IH]; [reflexivity |].
  cbn [group_present existsb group_mask map length replicate].
  intros Habsent. apply orb_false_elim in Habsent as [-> Habsent].
  f_equal. apply IH, Habsent.
Qed.

Lemma replicate_cut (n k : nat) (x : byte) :
  (k < n)%nat -> replicate (n - k) x = x :: replicate (n - S k) x.
Proof.
  intros Hk. replace (n - k)%nat with (S (n - S k)) by lia. reflexivity.
Qed.

(** A pixel of another group, of the paper or of no group leaves the mask
    of [g] as it is. *)
Lemma mask_so_far_other totalPixels seen code g :
  (length seen < Z.to_nat totalPixels)%nat ->
  canonicalGroup code <> g \/ g = 3 ->
  mask_so_far totalPixels (seen ++ [code]) g = mask_so_far totalPixels seen g.
Proof.
  intros Hroom Hother. unfold mask_so_far.
  destruct (Z.eqb_spec g 3) as [-> | Hg]; [reflexivity |].
  destruct Hother as [Hother | ?]; [| contradiction].
  rewrite group_present_snoc, group_mask_snoc.
  destruct (Z.eqb_spec (canonicalGroup code) g) as [? | _]; [contradiction |].
  rewrite orb_false_r. cbn [negb andb].
  destruct (group_present g seen); [| reflexivity].
  rewrite length_app, <- app_assoc. cbn [length app].
  rewrite (replicate_cut _ (length seen)) by exact Hroom.
  repeat f_equal. lia.
Qed.

(** A pixel of the group [g] makes the mask when there is none and
    blackens the pixel. *)
Lemma mask_so_far_same totalPixels seen code g :
  (length seen < Z.to_nat totalPixels)%nat ->
  canonicalGroup code = g -> g <> 3 ->
  Some (<[length seen := x00]>
          (default (white_mask totalPixels) (mask_so_far totalPixels seen g)))
  = mask_so_far totalPixels (seen ++ [code]) g.
Proof.
  intros Hroom Hsame Hg. unfold mask_so_far.
  destruct (Z.eqb_spec g 3) as [? | _]; [contradiction |].
  rewrite group_present_snoc, group_mask_snoc.
  destruct (Z.eqb_spec (canonicalGroup code) g) as [_ | ?]; [| contradiction].
  rewrite orb_true_r. cbn [negb andb]. f_equal.
  assert (Hmask : default (white_mask totalPixels)
                    (if group_present g seen
                     then Some (group_mask g seen
                                ++ replicate (Z.to_nat totalPixels - length seen) xff)
                     else None)
                  = group_mask g seen
                    ++ replicate (Z.to_nat totalPixels - length seen) xff).
  { destruct (group_present g seen) eqn:Hpresent; [reflexivity |].
    cbn [default from_option]. unfold white_mask.
    rewrite (group_mask_absent g seen Hpresent), <- replicate_add.
    f_equal. lia. }
  rewrite Hmask.
  rewrite (replicate_cut _ (length seen)) by exact Hroom.
  replace (length seen) with (length (group_mask g seen) + 0)%nat at 1
    by (unfold group_mask; rewrite length_map; lia).
  rewrite insert_app_r. cbn [insert list_insert].
  rewrite length_app, <- app_assoc. cbn [length app].
  repeat f_equal. lia.
Qed.

Lemma seqZ_groups : seqZ 0 7 = [0; 1; 2; 3; 4; 5; 6].
Proof. reflexivity. Qed.

Lemma mask_step_so_far totalPixels seen code :
  (length seen < Z.to_nat totalPixels)%nat ->
  mask_step totalPixels (map (mask_so_far totalPixels seen) (seqZ 0 7))
    (length seen, code)
  = map (mask_so_far totalPixels (seen ++ [code])) (seqZ 0 7).
Proof.
  intros Hroom. unfold mask_step. rewrite seqZ_groups. cbn [map].
  pose proof (fun g H => mask_so_far_other totalPixels seen code g Hroom H)
    as Hother.
  pose proof (fun g => mask_so_far_same totalPixels seen code g Hroom)
    as Hsame.
  destruct (canonicalGroup_range code) as [Hskip | Hrange].
  - rewrite Hskip. cbn [Z.ltb Z.compare orb].
    rewrite !Hother by (left; lia). reflexivity.
  - assert (Hg : canonicalGroup code = 0 \/ canonicalGroup code = 1
                 \/ canonicalGroup code = 2 \/ canonicalGroup code = 3
                 \/ canonicalGroup code = 4 \/ canonicalGroup code = 5
                 \/ canonicalGroup code = 6) by lia.
    destruct Hg as [Hg | [Hg | [Hg | [Hg | [Hg | [Hg | Hg]]]]]].
    all: rewrite Hg; cbn [Z.ltb Z.eqb Z.compare Pos.compare Pos.compare_cont
                          Pos.eqb orb].
    all: repeat match goal with
           | |- context [Z.to_nat ?k] =>
               let n := eval vm_compute in (Z.to_nat k) in
               change (Z.to_nat k) with n
           end.
    all: cbn [lookup list_lookup insert list_insert].
    all: repeat match goal with
           | |- context [default None (Some ?x)] =>
               change (default None (Some x)) with x
           end.
    all: try (rewrite (Hsame _ Hg) by lia).
    all: repeat (apply (f_equal2 cons);
                 [first [reflexivity
                        | symmetry; apply Hother;
                          first [left; lia | right; reflexivity]] |]).
    all: reflexivity.
Qed.

Lemma group_masks_prefix totalPixels : forall seen,
  (length seen <= Z.to_nat totalPixels)%nat ->
  foldl (mask_step totalPixels) (replicate 7 None) (imap pair seen)
  = map (mask_so_far totalPixels seen) (seqZ 0 7).
Proof.
  induction seen as [| code seen IH] using rev_ind; intros Hroom.
  - reflexivity.
  - rewrite length_app in Hroom. cbn [length] in Hroom.
    rewrite imap_app, foldl_app. cbn [imap foldl].
    rewrite IH by lia. rewrite Nat.add_0_r.
    apply mask_step_so_far. lia.
Qed.

Lemma group_masks_closed codeMap :
  group_masks codeMap =
  map (fun g => if negb (g =? 3) && group_present g codeMap
                then Some (group_mask g codeMap) else None)
      (seqZ 0 7).
Proof.
  unfold group_masks.
  rewrite group_masks_prefix by (unfold len; lia).
  apply map_ext. intros g. unfold mask_so_far, len.
  rewrite Nat2Z.id, Nat.sub_diag. cbn [replicate]. rewrite app_nil_r.
  reflexivity.
Qed.

(** X25. The masks of the colour groups: from the code map
    [renderContentColorLayers] makes, for each of the groups 0, 1, 2, 4, 5
    and 6 that some pixel is of, a mask of the size of the code map that
    is black (0x00) exactly at the pixels of the group and white (0xFF)
    elsewhere. It makes no mask for a group that no pixel is of, and none
    for group 3, the paper. No pixel is black in two masks. *)
Theorem group_masks_by_group :
  forall codeMap : list byte,
    group_masks codeMap =
      map (fun g => if negb (g =? 3) && group_present g codeMap
                    then Some (group_mask g codeMap) else None)
          (seqZ 0 7)
    /\ (forall g, length (group_mask g codeMap) = length codeMap)
    /\ (forall (g : Z) (i : nat),
          group_mask g codeMap !! i = Some x00 <->
          exists code, codeMap !! i = Some code /\ canonicalGroup code = g)
    /\ (forall (g1 g2 : Z) (i : nat),
          group_mask g1 codeMap !! i = Some x00 ->
          group_mask g2 codeMap !! i = Some x00 -> g1 = g2).
Proof.
  intros codeMap.
  assert (Hblack : forall (g : Z) (i : nat),
            group_mask g codeMap !! i = Some x00 <->
            exists code, codeMap !! i = Some code /\ canonicalGroup code = g).
  { intros g i. unfold group_mask. rewrite list_lookup_fmap.
    destruct (codeMap !! i) as [code |]; cbn [fmap option_fmap option_map].
    - destruct (Z.eqb_spec (canonicalGroup code) g) as [Hg | Hg].
      + split; [intros _; eauto |]. reflexivity.
      + split; [discriminate |]. intros (code' & [= <-] & Hcode).
        contradiction.
    - split; [discriminate |]. intros (code & Hcode & _). discriminate Hcode. }
  split; [apply group_masks_closed |]. split; [| split].
  - intros g. apply length_map.
  - exact Hblack.
  - intros g1 g2 i H1 H2.
    apply Hblack in H1 as (code1 & Hcode1 & <-).
    apply Hblack in H2 as (code2 & Hcode2 & <-).
    congruence.
Qed.

(** ** The layers of the groups *)

Section GroupLayerFacts.
Variable Path : Type.
Variable trace : list byte -> option (list Path).
Variable p : Palette.
Variable codeMap : list byte.

Local Abbreviation step :=
  (group_layer_step Path trace p (group_masks codeMap)).
Local Abbreviation drawn :=
  (fun g => negb (g =? 3) && group_present g codeMap).
Local Abbreviation layer_of :=
  (fun g => match trace (group_mask g codeMap) with
            | Some (q :: qs) => Some (group_layer Path p g (q :: qs))
            | _ => None
            end).

Lemma group_layer_step_closed acc g :
  0 <= g < 7 ->
  step (Some acc) g =
  if drawn g
  then match trace (group_mask g codeMap) with
       | None => None
       | Some [] => Some acc
       | Some (q :: qs) => Some (acc ++ [group_layer Path p g (q :: qs)])
       end
  else Some acc.
Proof.
  intros Hg. unfold group_layer_step.
  rewrite group_masks_closed, seqZ_groups. cbn [map].
  assert (Hcases : g = 0 \/ g = 1 \/ g = 2 \/ g = 3 \/ g = 4 \/ g = 5 \/ g = 6)
    by lia.
  destruct Hcases as [-> | [-> | [-> | [-> | [-> | [-> | ->]]]]]].
  all: cbn [Z.eqb Pos.eqb negb andb]; try reflexivity.
  all: repeat match goal with
         | |- context [Z.to_nat ?k] =>
             let n := eval vm_compute in (Z.to_nat k) in
             change (Z.to_nat k) with n
         end.
  all: cbn [lookup list_lookup].
  all: repeat match goal with
         | |- context [default None (Some ?x)] =>
             change (default None (Some x)) with x
         end.
  all: destruct (group_present _ codeMap); [| reflexivity].
  all: destruct (trace _) as [[| q qs] |]; reflexivity.
Qed.

Lemma group_layers_failed gs : foldl step None gs = None.
Proof. induction gs as [| g gs IH]; [reflexivity | exact IH]. Qed.

Lemma group_layers_traced : forall gs acc,
  Forall (fun g => 0 <= g < 7) gs ->
  (forall g, In g (List.filter drawn gs) ->
             trace (group_mask g codeMap) <> None) ->
  foldl step (Some acc) gs =
  Some (acc ++ omap layer_of (List.filter drawn gs)).
Proof.
  induction gs as [| g gs IH]; intros acc Hrange Htraced.
  - cbn. rewrite app_nil_r. reflexivity.
  - apply Forall_cons in Hrange as [Hg Hrange].
    cbn [foldl List.filter] in *. rewrite group_layer_step_closed by exact Hg.
    destruct (drawn g) eqn:Hdrawn.
    + pose proof (Htraced g (or_introl eq_refl)) as Hok.
      cbn [omap list_omap].
      destruct (trace (group_mask g codeMap)) as [[| q qs] |];
        [| | contradiction].
      * apply IH; [exact Hrange |]. intros g' Hin. apply Htraced. right.
        exact Hin.
      * rewrite IH; [rewrite <- app_assoc; reflexivity | exact Hrange |].
        intros g' Hin. apply Htraced. right. exact Hin.
    + apply IH; assumption.
Qed.

Lemma group_layers_error : forall gs acc,
  Forall (fun g => 0 <= g < 7) gs ->
  (exists g, In g (List.filter drawn gs)
             /\ trace (group_mask g codeMap) = None) ->
  foldl step (Some acc) gs = None.
Proof.
  induction gs as [| g gs IH]; intros acc Hrange (bad & Hin & Hbad).
  - destruct Hin.
  - apply Forall_cons in Hrange as [Hg Hrange].
    cbn [foldl List.filter] in *. rewrite group_layer_step_closed by exact Hg.
    destruct (drawn g) eqn:Hdrawn.
    + destruct Hin as [-> | Hin].
      * rewrite Hbad. apply group_layers_failed.
      * destruct (trace (group_mask g codeMap)) as [[| q qs] |].
        -- apply IH; eauto.
        -- apply IH; eauto.
        -- apply group_layers_failed.
    + apply IH; eauto.
Qed.

(** X26. The layers of the colour groups: [renderContentColorLayers] traces
    the masks of the groups 0, 1, 2, 4, 5, 6 that some pixel of the code
    map is of, in this order. When a trace fails the page fails. Otherwise
    there is one layer for each of these groups whose trace gave a path,
    in the order of the groups, with the paths of its mask and the colour
    and alpha of the palette entry of the group; a group without a path
    gives no layer. A code map that holds only the paper and codes of no
    group gives no layer and no trace is made. *)
Theorem group_layers_of_code_map :
  let groups := List.filter (fun g => group_present g codeMap)
                            [0; 1; 2; 4; 5; 6] in
  let layers := group_layers Path trace p (group_masks codeMap) in
  ((exists g, In g groups /\ trace (group_mask g codeMap) = None) ->
   layers = None)
  /\ ((forall g, In g groups -> trace (group_mask g codeMap) <> None) ->
      layers = Some (omap layer_of groups))
  /\ (Forall (fun code => canonicalGroup code = 3
                          \/ canonicalGroup code = -1) codeMap ->
      layers = Some []).
Proof.
  intros groups layers.
  assert (Hrange : Forall (fun g => 0 <= g < 7) (seqZ 0 7)).
  { rewrite seqZ_groups. repeat constructor; lia. }
  assert (Hgroups : List.filter drawn (seqZ 0 7) = groups) by reflexivity.
  assert (Hfirst :
    (exists g, In g groups /\ trace (group_mask g codeMap) = None) ->
    layers = None).
  { intros Hbad. apply group_layers_error; [exact Hrange |].
    rewrite Hgroups. exact Hbad. }
  assert (Hsecond :
    (forall g, In g groups -> trace (group_mask g codeMap) <> None) ->
    layers = Some (omap layer_of groups)).
  { intros Hok. unfold layers, group_layers.
    rewrite group_layers_traced; [rewrite Hgroups; reflexivity | exact Hrange |].
    rewrite Hgroups. exact Hok. }
  split; [exact Hfirst |]. split; [exact Hsecond |].
  intros Hblank.
  assert (Habsent : forall g, g <> 3 -> g <> -1 ->
                              group_present g codeMap = false).
  { intros g H3 H1. unfold group_present.
    apply not_true_is_false. intros Hex.
    apply existsb_exists in Hex as (code & Hin & Hcode).
    rewrite List.Forall_forall in Hblank.
    apply Z.eqb_eq in Hcode. destruct (Hblank code Hin); lia. }
  assert (Hnone : groups = []).
  { unfold groups. cbn [List.filter].
    rewrite !Habsent by lia. reflexivity. }
  rewrite Hsecond; [rewrite Hnone; reflexivity |].
  rewrite Hnone. intros g [].
Qed.
End GroupLayerFacts.
